(** * star_shadow: the sinusoid-extraction and harmonic-coupling engine

    A shallow embedding of [timeseries_functions.py]: the periodogram
    routines, the BIC oracle, the single-frequency extractors, the
    prewhitening loop, the harmonic-locking procedure and the
    frequency-reduction procedures, with the properties their
    specification states about them.

    Conventions of the embedding.
    - A NumPy array of floats is a [list R]: arithmetic is the exact
      arithmetic of the real numbers, so rounding error, NaN and the
      infinities of IEEE doubles are idealised away.  The one infinity
      the code uses on purpose, [bic_prev = np.inf], is kept
      ([xreal]).
    - An exception is a value of [outcome]: [Raised e].  Loops whose
      number of iterations the code does not bound take a [fuel]
      argument and answer [OutOfFuel] when it is exhausted.
    - The module [analysis_functions] (imported as [af]) is not part of
      the sources at hand: its four functions used here are parameters
      of the sections that need them.
    - [ln] and the division are the total functions of the real
      numbers: [ln x] is [0] for [x <= 0] and [x / 0] is [0], where the
      code gets [-inf], [nan] or an exception.  A residual of zeros is
      where it shows: its BIC is [-inf] in the code.
    - Printing ([verbose]) has no effect on any result and is left out. *)

From Stdlib Require Import Reals Lra Lia List ZArith Bool Arith Sorted.
Import ListNotations.
Open Scope R_scope.

(** ** Outcomes: results, exceptions, exhausted fuel *)

Inductive exn : Type :=
| NoHarmonicsFound   (* ValueError('No harmonic frequencies found') *)
| ValueError         (* a NumPy ValueError: empty argmax, negative size *)
| IndexError.        (* a NumPy IndexError: index out of bounds *)

Inductive outcome (A : Type) : Type :=
| Done (a : A)
| Raised (e : exn)
| OutOfFuel.

Arguments Done {A} a.
Arguments Raised {A} e.
Arguments OutOfFuel {A}.

Definition bind {A B : Type} (m : outcome A) (k : A -> outcome B) : outcome B :=
  match m with
  | Done a => k a
  | Raised e => Raised e
  | OutOfFuel => OutOfFuel
  end.

Notation "x <- m ;; k" := (bind m (fun x => k))
  (at level 61, m at next level, right associativity).
Notation "' p <- m ;; k" := (bind m (fun p => k))
  (at level 61, p pattern, m at next level, right associativity).

(** A left fold whose step may raise: Python's [for x in xs: ...]. *)
Fixpoint foldM {A S : Type} (step : S -> A -> outcome S) (xs : list A) (s : S)
  : outcome S :=
  match xs with
  | [] => Done s
  | x :: xs' => s' <- step s x ;; foldM step xs' s'
  end.

(** ** Decisions on real numbers *)

Definition Rltb (a b : R) : bool := if Rlt_dec a b then true else false.
Definition Rleb (a b : R) : bool := if Rle_dec a b then true else false.
Definition Reqb (a b : R) : bool := if Req_dec_T a b then true else false.

(** [np.inf] as the initial value of [bic_prev]. *)
Inductive xreal : Type :=
| Finite (r : R)
| PlusInf.

(** ** The NumPy operations the code uses *)

Module Np.

Fixpoint map2 {A B C : Type} (f : A -> B -> C) (xs : list A) (ys : list B)
  : list C :=
  match xs, ys with
  | x :: xs', y :: ys' => f x y :: map2 f xs' ys'
  | _, _ => []
  end.

Definition sub (xs ys : list R) : list R := map2 Rminus xs ys.
Definition add (xs ys : list R) : list R := map2 Rplus xs ys.
Definition div (xs ys : list R) : list R := map2 Rdiv xs ys.

Definition zeros (n : nat) : list R := repeat 0 n.

(** [np.sum], accumulated from the left. *)
Definition sum (xs : list R) : R := fold_left Rplus xs 0.

Definition mean (xs : list R) : R := sum xs / INR (length xs).

Definition amax (xs : list R) : R := fold_left Rmax xs (hd 0 xs).
Definition amin (xs : list R) : R := fold_left Rmin xs (hd 0 xs).

(** [np.ptp]: peak to peak. *)
Definition ptp (xs : list R) : R := amax xs - amin xs.

(** [xs[a:b]] for [0 <= a], [0 <= b]. *)
Definition slice {A : Type} (a b : nat) (xs : list A) : list A :=
  firstn (b - a) (skipn a xs).

(** [xs[1:] - xs[:-1]]. *)
Definition diff (xs : list R) : list R := sub (tl xs) (removelast xs).

Definition mem (i : nat) (idx : list nat) : bool := existsb (Nat.eqb i) idx.

Fixpoint delete_from {A : Type} (k : nat) (xs : list A) (idx : list nat)
  : list A :=
  match xs with
  | [] => []
  | x :: xs' =>
      if mem k idx then delete_from (S k) xs' idx
      else x :: delete_from (S k) xs' idx
  end.

(** [np.delete(xs, idx)] for indices within bounds. *)
Definition delete {A : Type} (xs : list A) (idx : list nat) : list A :=
  delete_from 0 xs idx.

Fixpoint set_nth {A : Type} (j : nat) (v : A) (xs : list A) : list A :=
  match xs, j with
  | [], _ => []
  | _ :: xs', O => v :: xs'
  | x :: xs', S j' => x :: set_nth j' v xs'
  end.

(** The index [k] of an array of length [len], negative indices counting
    from the end; [None] when it is out of bounds. *)
Definition norm_index (len : nat) (k : Z) : option nat :=
  if ((0 <=? k) && (k <? Z.of_nat len))%Z then Some (Z.to_nat k)
  else if ((- Z.of_nat len <=? k) && (k <? 0))%Z
       then Some (Z.to_nat (k + Z.of_nat len))
       else None.

Fixpoint norm_indices (len : nat) (idx : list Z) : option (list nat) :=
  match idx with
  | [] => Some []
  | k :: idx' =>
      match norm_index len k, norm_indices len idx' with
      | Some i, Some is' => Some (i :: is')
      | _, _ => None
      end
  end.

(** [np.delete(xs, idx)] for an array of integer indices: an index out of
    bounds raises. *)
Definition delete_checked {A : Type} (xs : list A) (idx : list Z)
  : outcome (list A) :=
  match norm_indices (length xs) idx with
  | Some idx' => Done (delete xs idx')
  | None => Raised IndexError
  end.

(** [np.arange(n)]. *)
Definition arange (n : nat) : list nat := seq 0 n.

(** [xs[idx]] for an index list. *)
Definition take (xs : list R) (idx : list nat) : list R :=
  map (fun i => nth i xs 0) idx.

Fixpoint insert_unique (n : Z) (xs : list Z) : list Z :=
  match xs with
  | [] => [n]
  | x :: xs' =>
      if (n <? x)%Z then n :: x :: xs'
      else if (n =? x)%Z then x :: xs'
      else x :: insert_unique n xs'
  end.

(** [np.unique]: the sorted distinct values. *)
Definition unique (xs : list Z) : list Z :=
  fold_right insert_unique [] xs.

Fixpoint argmax_from (k best : nat) (vbest : R) (xs : list R) : nat :=
  match xs with
  | [] => best
  | x :: xs' =>
      if Rltb vbest x then argmax_from (S k) k x xs'
      else argmax_from (S k) best vbest xs'
  end.

Definition unique_idx (xs : list nat) : list nat :=
  map Z.to_nat (unique (map Z.of_nat xs)).

Definition ceil (x : R) : Z := (- Int_part (- x))%Z.

(** [np.arange(1, stop, dtype=int)]: the integers [1 .. ceil(stop) - 1]. *)
Definition arange_from_1 (stop : R) : list Z :=
  map (fun k => Z.of_nat (S k)) (seq 0 (Z.to_nat (ceil (stop - 1)))).

(** [np.argmax]: the first index of the maximum; raises on an empty array. *)
Definition argmax (xs : list R) : outcome nat :=
  match xs with
  | [] => Raised ValueError
  | x :: xs' => Done (argmax_from 1 0 x xs')
  end.

(** Python's [x % m] on floats, for the exact quotient. *)
Definition pymod (x m : R) : R := x - m * IZR (Int_part (x / m)).

(** Python's [int(x)]: truncation towards zero. *)
Definition pyint (x : R) : Z :=
  if Rle_dec 0 x then Int_part x else (- Int_part (- x))%Z.

(** [np.rint]: round half to even. *)
Definition rint (x : R) : Z :=
  let n := Int_part x in
  let r := frac_part x in
  if Rlt_dec r (1 / 2) then n
  else if Rlt_dec (1 / 2) r then (n + 1)%Z
  else if Z.even n then n else (n + 1)%Z.

(** [np.round(x, 2)]. *)
Definition round2 (x : R) : R := IZR (rint (x * 100)) / 100.

(** [np.arctan2(y, x)]. *)
Definition arctan2 (y x : R) : R :=
  if Rlt_dec 0 x then atan (y / x)
  else if Rlt_dec x 0 then
    if Rle_dec 0 y then atan (y / x) + PI else atan (y / x) - PI
  else if Rlt_dec 0 y then PI / 2
  else if Rlt_dec y 0 then - (PI / 2)
  else 0.

End Np.

(** ** The BIC oracle *)

(** [calc_bic(residuals, n_param)]: the residuals are squared and summed
    by a loop, then the closed formula is applied. *)
Definition calc_bic (residuals : list R) (n_param : Z) : R :=
  let n := INR (length residuals) in
  let sum_r_2 := fold_left (fun acc r => acc + r ^ 2) residuals 0 in
  n * ln (2 * PI * sum_r_2 / n) + n + IZR n_param * ln n.

(** The formula of the specification, on the sum of the squares. *)
Definition sum_of_squares (residuals : list R) : R :=
  fold_right (fun r acc => r * r + acc) 0 residuals.

Definition bic_formula (N : R) (sum_sq : R) (k : R) : R :=
  N * ln (2 * PI * sum_sq / N) + N + k * ln N.

(** ** The linear trend and the sum of sines *)

(** A segment [(start, end)] of [i_sectors]. *)
Definition sector : Type := (nat * nat)%type.

Fixpoint assign_slice (k : nat) (s : sector) (co sl : R) (times curve : list R)
  : list R :=
  match times, curve with
  | t :: times', c :: curve' =>
      (if (fst s <=? k)%nat && (k <? snd s)%nat then co + sl * t else c)
        :: assign_slice (S k) s co sl times' curve'
  | _, _ => curve
  end.

(** [linear_curve]: [curve[s[0]:s[1]] = co + sl * times[s[0]:s[1]]] for each
    segment in turn, on an array of zeros. *)
Definition linear_curve (times const slope : list R) (i_sectors : list sector)
  : list R :=
  fold_left
    (fun curve '(co, (sl, s)) => assign_slice 0 s co sl times curve)
    (combine const (combine slope i_sectors))
    (Np.zeros (length times)).

Definition sector_pars (times signal : list R) (s : sector) : R * R :=
  let x := Np.slice (fst s) (snd s) times in
  let y := Np.slice (fst s) (snd s) signal in
  let x_m := Np.mean x in
  let x_ms := map (fun v => v - x_m) x in
  let y_m := Np.mean y in
  let y_ms := map (fun v => v - y_m) y in
  let s_xx := Np.sum (map (fun v => v ^ 2) x_ms) in
  let s_xy := Np.sum (Np.map2 Rmult x_ms y_ms) in
  let slope := s_xy / s_xx in
  (y_m - slope * x_m, slope).

(** [linear_pars]: the pair [(y_inter, slope)], one entry per segment. *)
Definition linear_pars (times signal : list R) (i_sectors : list sector)
  : list R * list R :=
  let pars := map (sector_pars times signal) i_sectors in
  (map fst pars, map snd pars).

(** [sum_sines]: each sinusoid in turn is added to an array of zeros. *)
Definition sum_sines (times f_n a_n ph_n : list R) : list R :=
  fold_left
    (fun model_sines '(f, (a, ph)) =>
       Np.map2 (fun m t => m + a * sin (2 * PI * f * t + ph)) model_sines times)
    (combine f_n (combine a_n ph_n))
    (Np.zeros (length times)).

(** ** Folding, likelihood and the polynomial helpers *)

(** [fold_time_series]: [((times - zero) / p_orb + 0.5) % 1 - 0.5], with
    [zero = times[0]] when it is not given. *)
Definition fold_time_series (times : list R) (p_orb : R) (zero : option R)
  : list R :=
  let zero := match zero with Some z => z | None => hd 0 times end in
  map (fun t => Np.pymod ((t - zero) / p_orb + 0.5) 1 - 0.5) times.

(** [calc_likelihood]: the residuals are squared and summed by a loop. *)
Definition calc_likelihood (residuals : list R) : R :=
  let n := INR (length residuals) in
  let sum_r_2 := fold_left (fun acc r => acc + r ^ 2) residuals 0 in
  - n / 2 * (ln (2 * PI * sum_r_2 / n) + 1).

(** [linear_pars_two_points]: the pair [(y_inter, slope)]. *)
Definition linear_pars_two_points (x1 y1 x2 y2 : R) : R * R :=
  let slope := (y2 - y1) / (x2 - x1) in
  let y_inter := y1 - slope * x1 in
  (y_inter, slope).

Definition quadratic_curve (times : list R) (a b c : R) : list R :=
  map (fun t => a * t ^ 2 + b * t + c) times.

Definition quadratic_pars (times signal : list R) : R * R * R :=
  let x_m := Np.mean times in
  let x2_m := Np.mean (map (fun t => t ^ 2) times) in
  let x_ms := map (fun t => t - x_m) times in
  let x2_ms := map (fun t => t ^ 2 - x2_m) times in
  let y_m := Np.mean signal in
  let y_ms := map (fun y => y - y_m) signal in
  let s_xx := Np.sum (map (fun v => v ^ 2) x_ms) in
  let s_x2x := Np.sum (Np.map2 Rmult x2_ms x_ms) in
  let s_x2x2 := Np.sum (map (fun v => v ^ 2) x2_ms) in
  let s_xy := Np.sum (Np.map2 Rmult x_ms y_ms) in
  let s_x2y := Np.sum (Np.map2 Rmult x2_ms y_ms) in
  let a := (s_x2y * s_xx - s_xy * s_x2x) / (s_x2x2 * s_xx - s_x2x ^ 2) in
  let b := (s_xy - a * s_x2x) / s_xx in
  let c := y_m - a * x2_m - b * x_m in
  (a, b, c).

(** [quadratic_pars_two_points]: [y2] is an argument the body does not
    use. *)
Definition quadratic_pars_two_points (x1 y1 x2 y2 : R) : R * R * R :=
  let sqr_dif := (x1 - x2) ^ 2 in
  let a := - y1 / sqr_dif in
  let b := 2 * x1 * y1 / sqr_dif in
  let c := y1 * (1 - x1 ^ 2 / sqr_dif) in
  (a, b, c).

Definition cubic_curve (times : list R) (a b c d : R) : list R :=
  map (fun t => a * t ^ 3 + b * t ^ 2 + c * t + d) times.

Definition cubic_pars (times signal : list R) : R * R * R * R :=
  let x_m := Np.mean times in
  let x2_m := Np.mean (map (fun t => t ^ 2) times) in
  let x3_m := Np.mean (map (fun t => t ^ 3) times) in
  let x_ms := map (fun t => t - x_m) times in
  let x2_ms := map (fun t => t ^ 2 - x2_m) times in
  let x3_ms := map (fun t => t ^ 3 - x3_m) times in
  let y_m := Np.mean signal in
  let y_ms := map (fun y => y - y_m) signal in
  let s_xx := Np.sum (map (fun v => v ^ 2) x_ms) in
  let s_x2x := Np.sum (Np.map2 Rmult x2_ms x_ms) in
  let s_x2x2 := Np.sum (map (fun v => v ^ 2) x2_ms) in
  let s_x3x := Np.sum (Np.map2 Rmult x3_ms x_ms) in
  let s_x3x2 := Np.sum (Np.map2 Rmult x3_ms x2_ms) in
  let s_x3x3 := Np.sum (map (fun v => v ^ 2) x3_ms) in
  let s_xy := Np.sum (Np.map2 Rmult x_ms y_ms) in
  let s_x2y := Np.sum (Np.map2 Rmult x2_ms y_ms) in
  let s_x3y := Np.sum (Np.map2 Rmult x3_ms y_ms) in
  let a :=
    s_x3y * (s_x2x2 * s_xx - s_x2x ^ 2)
    - s_x2y * (s_x3x2 * s_xx - s_x3x * s_x2x)
    + s_xy * (s_x3x2 * s_x2x - s_x3x * s_x2x2) in
  let a :=
    a / (s_x3x3 * (s_x2x2 * s_xx - s_x2x ^ 2)
         - s_x3x2 * (s_x3x2 * s_xx - 2 * s_x3x * s_x2x)
         - s_x3x ^ 2 * s_x2x2) in
  let b :=
    (s_x2y * s_xx - s_xy * s_x2x - a * (s_x3x2 * s_xx - s_x3x * s_x2x))
    / (s_x2x2 * s_xx - s_x2x ^ 2) in
  let c := (s_xy - a * s_x3x - b * s_x2x) / s_xx in
  let d := y_m - a * x3_m - b * x2_m - c * x_m in
  (a, b, c, d).

Definition cubic_pars_from_quadratic (x1 a_q b_q c_q : R) : R * R * R * R :=
  let a := a_q / 3 in
  let b := b_q / 2 in
  let c := c_q in
  let d := - (a_q / 3 * x1 ^ 3 + b_q / 2 * x1 ^ 2 + c_q * x1) in
  (a, b, c, d).

(** [sum_sines_deriv]: each sinusoid in turn is added to an array of
    zeros. *)
Definition sum_sines_deriv (times f_n a_n ph_n : list R) (deriv : nat)
  : list R :=
  let mod_2 := (deriv mod 2)%nat in
  let mod_4 := (deriv mod 4)%nat in
  let ph_cos := PI / 2 * INR mod_2 in
  let sign := (-1) ^ ((mod_4 - mod_2) / 2) in
  fold_left
    (fun model_sines '(f, (a, ph)) =>
       Np.map2
         (fun m t =>
            m + sign * (2 * PI * f) ^ deriv * a
                * sin (2 * PI * f * t + ph + ph_cos))
         model_sines times)
    (combine f_n (combine a_n ph_n))
    (Np.zeros (length times)).

(** [spectral_window]: one value per frequency. *)
Definition spectral_window (times freqs : list R) : list R :=
  let n_time := INR (length times) in
  map (fun f =>
         let cos_term := Np.sum (map (fun t => cos (2 * PI * f * t)) times) in
         let sin_term := Np.sum (map (fun t => sin (2 * PI * f * t)) times) in
         (cos_term ^ 2 + sin_term ^ 2) / n_time ^ 2)
      freqs.

(** ** Phase dispersion and the period uncertainty *)

(** [np.linspace(start, stop, num + 1)]: [num] steps of one width. *)
Definition linspace (start stop : R) (num : nat) : list R :=
  map (fun k => start + INR k * ((stop - start) / INR num)) (seq 0 (S num)).

(** [np.sum(np.abs(a - np.mean(a))**2)]. *)
Definition var_no_avg (a : list R) : R :=
  Np.sum (map (fun v => Rabs (v - Np.mean a) ^ 2) a).

(** [np.var]. *)
Definition var (a : list R) : R :=
  Np.mean (map (fun v => Rabs (v - Np.mean a) ^ 2) a).

(** [signal[(phases >= b1) & (phases < b2)]]. *)
Definition in_bin (phases signal : list R) (b1 b2 : R) : list R :=
  map snd
      (filter (fun ps => Rleb b1 (fst ps) && Rltb (fst ps) b2)
              (combine phases signal)).

(** [phase_dispersion]: a bin without a point has the variance zero. *)
Definition phase_dispersion (phases signal : list R) (n_bins : nat) : R :=
  let edges := linspace (- 0.5) 0.5 n_bins in
  let binned_var :=
    map (fun '(b1, b2) =>
           let bin := in_bin phases signal b1 b2 in
           if (0 <? length bin)%nat then var_no_avg bin else 0)
        (combine (removelast edges) (tl edges)) in
  let total_var := Np.sum binned_var / INR (length signal) in
  let overall_var := var signal in
  total_var / overall_var.

(** [f_n_err[harmonics] / harmonic_n]. *)
Definition harmonic_errors (f_n_err : list R) (harmonics : list nat)
  (harmonic_n : list Z) : list R :=
  Np.map2 (fun e n => e / IZR n) (Np.take f_n_err harmonics) harmonic_n.

Definition formal_period_uncertainty (p_orb : R) (f_n_err : list R)
  (harmonics : list nat) (harmonic_n : list Z) : R :=
  let f_h_err := harmonic_errors f_n_err harmonics harmonic_n in
  let n := INR (length f_h_err) in
  let f_orb_err :=
    sqrt (Np.sum (map (fun e => 1 / e ^ 2 / n ^ 2) f_h_err))
    / Np.sum (map (fun e => 1 / e ^ 2 / n) f_h_err) in
  f_orb_err * p_orb ^ 2.

(** ** The periodogram engine *)

(** One pass of the inner loop [for j in range(nf)] of [scargle]: the
    accumulators [ss[j], sc[j], ss2[j], sc2[j]] are kept as one list of
    quadruples, and the running sines and cosines are rotated by [df] at
    each step. *)
Fixpoint scargle_inner
  (sin_f0_s cos_f0_s mc_1_a mc_1_b sin_df cos_df mc_2_a mc_2_b : R)
  (acc : list (R * R * R * R)) : list (R * R * R * R) :=
  match acc with
  | [] => []
  | (ss, sc, ss2, sc2) :: acc' =>
      (ss + sin_f0_s, sc + cos_f0_s, ss2 + mc_1_a, sc2 + mc_1_b)
        :: scargle_inner
             (sin_f0_s * cos_df + cos_f0_s * sin_df)
             (cos_f0_s * cos_df - sin_f0_s * sin_df)
             (mc_1_a * mc_2_b + mc_1_b * mc_2_a)
             (mc_1_b * mc_2_b - mc_1_a * mc_2_a)
             sin_df cos_df mc_2_a mc_2_b acc'
  end.

(** The body of the outer loop [for i in range(n)]. *)
Definition scargle_row (f0 df : R) (acc : list (R * R * R * R)) (ts : R * R)
  : list (R * R * R * R) :=
  let '(t, s) := ts in
  let two_pi := 2 * PI in
  let t_f0 := Np.pymod (t * two_pi * f0) two_pi in
  let sin_f0 := sin t_f0 in
  let cos_f0 := cos t_f0 in
  let mc_1_a := 2 * sin_f0 * cos_f0 in
  let mc_1_b := cos_f0 * cos_f0 - sin_f0 * sin_f0 in
  let t_df := Np.pymod (t * two_pi * df) two_pi in
  let sin_df := sin t_df in
  let cos_df := cos t_df in
  let mc_2_a := 2 * sin_df * cos_df in
  let mc_2_b := cos_df * cos_df - sin_df * sin_df in
  scargle_inner (sin_f0 * s) (cos_f0 * s) mc_1_a mc_1_b
                sin_df cos_df mc_2_a mc_2_b acc.

Definition scargle_power (n : R) (q : R * R * R * R) : R :=
  let '(ss, sc, ss2, sc2) := q in
  (sc ^ 2 * (n - sc2) + ss ^ 2 * (n + sc2) - 2 * ss * sc * ss2)
    / (n ^ 2 - sc2 ^ 2 - ss2 ^ 2).

(** The frequency grid of [scargle]: the clamped start, the step, and the
    number of frequencies [nf]. *)
Definition scargle_grid (times : list R) (f0 fn df : R) : R * R * Z :=
  let t_tot := Np.ptp times in
  let f0 := Rmax f0 (0.01 / t_tot) in
  let df := if Req_dec_T df 0 then 0.1 / t_tot else df in
  let fn := if Req_dec_T fn 0 then 1 / (2 * Np.amin (Np.diff times)) else fn in
  (f0, df, (Np.pyint ((fn - f0) / df + 0.001) + 1)%Z).

(** The number of frequencies of the grid. *)
Definition grid_size (times : list R) (f0 fn df : R) : Z :=
  snd (scargle_grid times f0 fn df).

(** [scargle] with its default normalisation, ['amplitude']: the pair
    [(f1, s1)].  A negative [nf] makes [np.zeros] raise.  The clamp of a
    non-finite [s1[0]] has no counterpart on real numbers. *)
Definition scargle (times signal : list R) (f0 fn df : R)
  : outcome (list R * list R) :=
  let n := INR (length signal) in
  let '(f0, df, nf) := scargle_grid times f0 fn df in
  if (nf <? 0)%Z then Raised ValueError
  else
    let acc := fold_left (scargle_row f0 df) (combine times signal)
                         (repeat (0, 0, 0, 0) (Z.to_nat nf)) in
    let f1 := map (fun j => f0 + INR j * df) (Np.arange (Z.to_nat nf)) in
    let s1 := map (fun q => sqrt (4 / n) * sqrt (scargle_power n q)) acc in
    Done (f1, s1).

(** [tau(f)], the time shift shared by the single-frequency routines. *)
Definition scargle_tau (times : list R) (f : R) : R :=
  let four_pi := 4 * PI in
  let cos_tau := fold_left (fun acc t => acc + cos (four_pi * f * t)) times 0 in
  let sin_tau := fold_left (fun acc t => acc + sin (four_pi * f * t)) times 0 in
  1 / (four_pi * f) * Np.arctan2 sin_tau cos_tau.

(** The four sums [(s_cos, cos_2, s_sin, sin_2)] of the second loop. *)
Definition scargle_sums (times signal : list R) (f tau : R) : R * R * R * R :=
  let two_pi := 2 * PI in
  fold_left
    (fun '(s_cos, cos_2, s_sin, sin_2) '(t, s) =>
       let c := cos (two_pi * f * (t - tau)) in
       let sn := sin (two_pi * f * (t - tau)) in
       (s_cos + s * c, cos_2 + c ^ 2, s_sin + s * sn, sin_2 + sn ^ 2))
    (combine times signal) (0, 0, 0, 0).

Definition scargle_ampl_single (times signal : list R) (f : R) : R :=
  let tau := scargle_tau times f in
  let '(s_cos, cos_2, s_sin, sin_2) := scargle_sums times signal f tau in
  let a_cos_2 := s_cos ^ 2 / cos_2 in
  let b_sin_2 := s_sin ^ 2 / sin_2 in
  let ampl := (a_cos_2 + b_sin_2) / 2 in
  sqrt (4 / INR (length times)) * sqrt ampl.

Definition scargle_phase_single (times signal : list R) (f : R) : R :=
  let two_pi := 2 * PI in
  let tau := scargle_tau times f in
  let '(s_cos, cos_2, s_sin, sin_2) := scargle_sums times signal f tau in
  let a_cos := s_cos / sqrt cos_2 in
  let b_sin := s_sin / sqrt sin_2 in
  PI / 2 - Np.arctan2 b_sin a_cos - two_pi * f * tau.

(** [scargle_ampl] and [scargle_phase] repeat the single-frequency
    computation for each frequency of [fs]. *)
Definition scargle_ampl (times signal fs : list R) : list R :=
  map (scargle_ampl_single times signal) fs.

Definition scargle_phase (times signal fs : list R) : list R :=
  map (scargle_phase_single times signal) fs.

(** [(ph + np.pi) % (2 * np.pi) - np.pi]: the wrap applied to a phase. *)
Definition wrap_phase (ph : R) : R := Np.pymod (ph + PI) (2 * PI) - PI.

(** ** The single-frequency extractors *)

Definition extract_single (times signal : list R) (f0 fn : R)
  : outcome (R * R * R) :=
  let df := 0.1 / Np.ptp times in
  '(freqs, ampls) <- scargle times signal f0 fn df ;;
  p1 <- Np.argmax ampls ;;
  let f_left_1 := Rmax (nth p1 freqs 0 - df) (0.01 / Np.ptp times) in
  let f_right_1 := nth p1 freqs 0 + df in
  '(f_refine_1, a_refine_1) <-
     scargle times signal f_left_1 f_right_1 (df / 100) ;;
  p2 <- Np.argmax a_refine_1 ;;
  let f_final := nth p2 f_refine_1 0 in
  let a_final := nth p2 a_refine_1 0 in
  let ph_final := scargle_phase_single times signal f_final in
  Done (f_final, a_final, wrap_phase ph_final).

(** The mask of [extract_single_harmonics]: a frequency is kept when it is
    further than [avoid / 2] from every multiple of [1 / p_orb]. *)
Definition harmonic_mask (p_orb avoid f : R) : bool :=
  Rltb (avoid / 2) (Np.pymod f (1 / p_orb))
  && Rltb (Np.pymod f (1 / p_orb)) (1 / p_orb - avoid / 2).

Definition masked (p_orb avoid : R) (freqs ampls : list R) : list (R * R) :=
  filter (fun fa => harmonic_mask p_orb avoid (fst fa)) (combine freqs ampls).

Definition extract_single_harmonics (times signal : list R) (p_orb f0 fn : R)
  : outcome (R * R * R) :=
  let freq_res := 1.5 / Np.ptp times in
  let df := 0.1 / Np.ptp times in
  '(freqs, ampls) <- scargle times signal f0 fn df ;;
  let avoid := freq_res / (Np.ptp times / p_orb) in
  let kept := masked p_orb avoid freqs ampls in
  if (length kept =? 0)%nat then Done (0, 0, 0)
  else
    p1 <- Np.argmax (map snd kept) ;;
    let f_p1 := nth p1 (map fst kept) 0 in
    let f_left_1 := Rmax (f_p1 - df) (0.01 / Np.ptp times) in
    let f_right_1 := f_p1 + df in
    '(f_refine_1, a_refine_1) <-
       scargle times signal f_left_1 f_right_1 (df / 100) ;;
    p2 <- Np.argmax a_refine_1 ;;
    let f_left_2 :=
      Rmax (nth p2 f_refine_1 0 - df / 100) (0.01 / Np.ptp times) in
    let f_right_2 := nth p2 f_refine_1 0 + df / 100 in
    '(f_refine_2, a_refine_2) <-
       scargle times signal f_left_2 f_right_2 (df / 10000) ;;
    p3 <- Np.argmax a_refine_2 ;;
    let f_final := nth p3 f_refine_2 0 in
    let a_final := nth p3 a_refine_2 0 in
    let ph_final := scargle_phase_single times signal f_final in
    Done (f_final, a_final, wrap_phase ph_final).

(** ** Accept/reject gates on the BIC *)

(** [bic_prev - bic], with [bic_prev] possibly [np.inf]. *)
Definition bic_drop (bic_prev : xreal) (bic : R) : xreal :=
  match bic_prev with
  | Finite p => Finite (p - bic)
  | PlusInf => PlusInf
  end.

Definition xround2 (d : xreal) : xreal :=
  match d with
  | Finite r => Finite (Np.round2 r)
  | PlusInf => PlusInf
  end.

(** [d > thr]. *)
Definition exceeds (d : xreal) (thr : R) : bool :=
  match d with
  | Finite r => Rltb thr r
  | PlusInf => true
  end.

(** A sinusoid set: the parallel arrays [(f_n, a_n, ph_n)]. *)
Definition sines : Type := (list R * list R * list R)%type.

(** The number of sinusoids of a set: [len(f_n)]. *)
Definition nsines (s : sines) : nat := length (fst (fst s)).

(** A stage result [(const, slope, f_n, a_n, ph_n)]. *)
Definition model : Type := (list R * list R * sines)%type.

Definition zlen {A : Type} (xs : list A) : Z := Z.of_nat (length xs).

(** [while (len(removed) > n_prev): n_prev = len(removed); sweep]: the
    outer loop of every reduction pass. *)
Fixpoint sweeps {S : Type} (fuel : nat) (sweep : S -> outcome S)
  (size : S -> nat) (n_prev : Z) (st : S) : outcome S :=
  match fuel with
  | O => OutOfFuel
  | Datatypes.S fuel' =>
      if (n_prev <? Z.of_nat (size st))%Z then
        st' <- sweep st ;;
        sweeps fuel' sweep size (Z.of_nat (size st)) st'
      else Done st
  end.

(** [[g[np.arange(p1, p2 + 1)] for p1 in range(len(g) - 1)
      for p2 in range(p1 + 1, len(g))]]. *)
Definition sub_ranges (g : list nat) : list (list nat) :=
  flat_map
    (fun p1 =>
       map (fun p2 => Np.slice p1 (S p2) g)
           (seq (S p1) (length g - S p1)))
    (seq 0 (length g - 1)).

(** [[k for j in remove_sets for k in f_sets[j]]]. *)
Definition all_removed (f_sets : list (list nat)) (remove_sets : list nat)
  : list nat :=
  flat_map (fun j => nth j f_sets []) remove_sets.

(** [s_indices[[np.any([j in set_i for j in subset]) for subset in f_sets]]]. *)
Definition overlapping (f_sets : list (list nat)) (set_i : list nat)
  : list nat :=
  map fst
    (filter (fun ks => existsb (fun j => Np.mem j set_i) (snd ks))
            (combine (Np.arange (length f_sets)) f_sets)).

(** [harmonics[harmonic_n == n]]. *)
Definition matched_to (n : Z) (harmonics : list nat) (harmonic_n : list Z)
  : list nat :=
  map fst (filter (fun p => Z.eqb (snd p) n) (combine harmonics harmonic_n)).

(** ** The harmonic pattern matcher and the close-frequency finders *)

Module AfModel.

(** Modelled from the spec: [analysis_functions.find_harmonics_from_pattern]
    and [find_harmonics_tolerance] are missing from the sources.  The
    matcher returns the indices of [f_n] that lie within the tolerance of
    [n / p_orb] for a positive integer [n], with these [n]; of two
    frequencies within the tolerance of the same multiple the closer one is
    kept (the earlier one when they are equally close). *)
Definition harmonic_number (p_orb f : R) : Z := Np.rint (f * p_orb).

Definition offset (p_orb f : R) : R :=
  Rabs (f - IZR (harmonic_number p_orb f) / p_orb).

Definition within (p_orb f_tol f : R) : bool :=
  (1 <=? harmonic_number p_orb f)%Z && Rltb (offset p_orb f) f_tol.

(** Index [j] takes the harmonic of index [i] away from it. *)
Definition beats (f_n : list R) (p_orb f_tol : R) (i j : nat) : bool :=
  let fi := nth i f_n 0 in
  let fj := nth j f_n 0 in
  within p_orb f_tol fj
  && (harmonic_number p_orb fj =? harmonic_number p_orb fi)%Z
  && (Rltb (offset p_orb fj) (offset p_orb fi)
      || (Reqb (offset p_orb fj) (offset p_orb fi) && (j <? i)%nat)).

Definition is_harmonic (f_n : list R) (p_orb f_tol : R) (i : nat) : bool :=
  within p_orb f_tol (nth i f_n 0)
  && negb (existsb (beats f_n p_orb f_tol i) (Np.arange (length f_n))).

Definition find_harmonics (f_n : list R) (p_orb f_tol : R)
  : list nat * list Z :=
  let harmonics :=
    filter (is_harmonic f_n p_orb f_tol) (Np.arange (length f_n)) in
  (harmonics, map (fun i => harmonic_number p_orb (nth i f_n 0)) harmonics).

(** The tight tolerance used once the harmonics are locked. *)
Definition tight_tolerance : R := 1 / 10 ^ 9.

Definition find_harmonics_from_pattern (f_n : list R) (p_orb : R)
  : list nat * list Z :=
  find_harmonics f_n p_orb tight_tolerance.

Definition find_harmonics_tolerance (f_n : list R) (p_orb f_tol : R)
  : list nat * list Z :=
  find_harmonics f_n p_orb f_tol.

(** Modelled from the spec: [analysis_functions.chains_within_rayleigh] and
    [f_within_rayleigh] are missing from the sources.  The frequencies are
    sorted, and a chain is a maximal stretch of the sorted frequencies in
    which every frequency is within the Rayleigh resolution of the next. *)
Fixpoint insert_by (f_n : list R) (i : nat) (sorted : list nat) : list nat :=
  match sorted with
  | [] => [i]
  | j :: rest =>
      if Rleb (nth i f_n 0) (nth j f_n 0) then i :: sorted
      else j :: insert_by f_n i rest
  end.

Definition argsort (f_n : list R) : list nat :=
  fold_right (insert_by f_n) [] (Np.arange (length f_n)).

Fixpoint stretches (f_n : list R) (rayleigh : R) (sorted : list nat)
  : list (list nat) :=
  match sorted with
  | [] => []
  | i :: rest =>
      match stretches f_n rayleigh rest with
      | (j :: g) :: gs =>
          if Rltb (nth j f_n 0 - nth i f_n 0) rayleigh
          then (i :: j :: g) :: gs
          else [i] :: (j :: g) :: gs
      | _ => [[i]]
      end
  end.

(** The chains of two frequencies or more. *)
Definition chains_within_rayleigh (f_n : list R) (rayleigh : R)
  : list (list nat) :=
  filter (fun g => (1 <? length g)%nat) (stretches f_n rayleigh (argsort f_n)).

(** The frequencies chained to frequency [i], itself included. *)
Definition f_within_rayleigh (i : nat) (f_n : list R) (rayleigh : R)
  : list nat :=
  concat (filter (fun g => Np.mem i g)
                 (stretches f_n rayleigh (argsort f_n))).

End AfModel.

(** ** The pipeline stages *)

Section Engine.

(** The functions of [analysis_functions] the stages call. *)
Variable find_harmonics_tolerance : list R -> R -> R -> list nat * list Z.
Variable find_harmonics_from_pattern : list R -> R -> list nat * list Z.
Variable f_within_rayleigh : nat -> list R -> R -> list nat.
Variable chains_within_rayleigh : list R -> R -> list (list nat).

(** *** [refine_subset] *)

Record refine_state : Type := {
  rs_const : list R;
  rs_slope : list R;
  rs_accepted : sines;     (* f_n, a_n, ph_n *)
  rs_temp : sines;         (* f_n_temp, a_n_temp, ph_n_temp *)
  rs_bic_prev : xreal;
  rs_bic : R
}.

(** The body of [for j in close_f]: frequency [j] is taken out of the model
    and extracted again within one [freq_res] of its old value. *)
Definition refine_one (times signal const slope : list R)
  (i_sectors : list sector) (freq_res : R) (temp : sines) (j : nat)
  : outcome sines :=
  let '(f_n_temp, a_n_temp, ph_n_temp) := temp in
  let model :=
    Np.add (linear_curve times const slope i_sectors)
           (sum_sines times (Np.delete f_n_temp [j]) (Np.delete a_n_temp [j])
                      (Np.delete ph_n_temp [j])) in
  let resid := Np.sub signal model in
  '(f_j, a_j, ph_j) <-
     extract_single times resid (nth j f_n_temp 0 - freq_res)
                    (nth j f_n_temp 0 + freq_res) ;;
  Done (Np.set_nth j f_j f_n_temp, Np.set_nth j a_j a_n_temp,
        Np.set_nth j ph_j ph_n_temp).

(** [while (np.round(bic_prev - bic, 2) > 0)]. *)
Fixpoint refine_loop (fuel : nat) (times signal signal_err : list R)
  (close_f : list nat) (i_sectors : list sector) (freq_res : R) (n_param : Z)
  (st : refine_state) : outcome refine_state :=
  match fuel with
  | O => OutOfFuel
  | S fuel' =>
      if exceeds (xround2 (bic_drop (rs_bic_prev st) (rs_bic st))) 0 then
        temp <- foldM (refine_one times signal (rs_const st) (rs_slope st)
                                  i_sectors freq_res)
                      close_f (rs_temp st) ;;
        let '(f_n_temp, a_n_temp, ph_n_temp) := temp in
        let model := sum_sines times f_n_temp a_n_temp ph_n_temp in
        let '(const, slope) :=
          linear_pars times (Np.sub signal model) i_sectors in
        let model := Np.add model (linear_curve times const slope i_sectors) in
        let resid := Np.sub signal model in
        let bic := calc_bic (Np.div resid signal_err) n_param in
        refine_loop fuel' times signal signal_err close_f i_sectors freq_res
                    n_param
                    {| rs_const := const; rs_slope := slope;
                       rs_accepted := rs_temp st; rs_temp := temp;
                       rs_bic_prev := Finite (rs_bic st); rs_bic := bic |}
      else Done st
  end.

Definition refine_subset (fuel : nat) (times signal signal_err : list R)
  (close_f : list nat) (const slope : list R) (s : sines)
  (i_sectors : list sector) : outcome model :=
  let '(f_n, a_n, ph_n) := s in
  let freq_res := 1.5 / Np.ptp times in
  let n_sectors := zlen i_sectors in
  let n_f := zlen f_n in
  let model :=
    Np.add (linear_curve times const slope i_sectors)
           (sum_sines times f_n a_n ph_n) in
  let resid := Np.sub signal model in
  let n_param := (2 * n_sectors + 3 * n_f)%Z in
  let bic := calc_bic (Np.div resid signal_err) n_param in
  st <- refine_loop fuel times signal signal_err close_f i_sectors freq_res
                    n_param
                    {| rs_const := const; rs_slope := slope;
                       rs_accepted := s; rs_temp := s;
                       rs_bic_prev := PlusInf; rs_bic := bic |} ;;
  let '(f_n, a_n, ph_n) := rs_accepted st in
  let resid := Np.sub signal (sum_sines times f_n a_n ph_n) in
  let '(const, slope) := linear_pars times resid i_sectors in
  Done (const, slope, (f_n, a_n, ph_n)).

(** *** [refine_subset_harmonics] *)




(** *** [extract_all] *)

Record extract_state : Type := {
  es_const : list R;
  es_slope : list R;
  es_resid : list R;
  es_accepted : sines;     (* f_n, a_n, ph_n *)
  es_temp : sines;         (* f_n_temp, a_n_temp, ph_n_temp *)
  es_bic_prev : xreal;
  es_bic : R;
  es_i : nat
}.

(** The test of the prewhitening loop: [bic_prev - bic > 2]. *)
Definition extract_all_test (st : extract_state) : bool :=
  exceeds (bic_drop (es_bic_prev st) (es_bic st)) 2.

(** The BIC of a sinusoid set as [extract_all] computes it: the trend is
    fitted to what the sinusoids leave, and every segment counts two
    parameters, every sinusoid three. *)
Definition bic_of_sines (times signal signal_err : list R)
  (i_sectors : list sector) (s : sines) : R :=
  let '(f_n, a_n, ph_n) := s in
  let model := sum_sines times f_n a_n ph_n in
  let '(const, slope) := linear_pars times (Np.sub signal model) i_sectors in
  let model := Np.add model (linear_curve times const slope i_sectors) in
  let resid := Np.sub signal model in
  calc_bic (Np.div resid signal_err)
           (2 * zlen i_sectors + 3 * zlen f_n)%Z.

(** One pass through the body of the loop. *)
Definition extract_all_body (fuel : nat) (times signal signal_err : list R)
  (i_sectors : list sector) (freq_res : R) (st : extract_state)
  : outcome extract_state :=
  let '(f_n_temp, a_n_temp, ph_n_temp) := es_temp st in
  '(f_i, a_i, ph_i) <- extract_single times (es_resid st) 0 0 ;;
  let temp := (f_n_temp ++ [f_i], a_n_temp ++ [a_i], ph_n_temp ++ [ph_i]) in
  let close_f := f_within_rayleigh (es_i st) (f_n_temp ++ [f_i]) freq_res in
  '(const, slope, temp) <-
     (if (0 <? es_i st)%nat && (1 <? length close_f)%nat
      then refine_subset fuel times signal signal_err close_f
                         (es_const st) (es_slope st) temp i_sectors
      else Done (es_const st, es_slope st, temp)) ;;
  let '(f_n_temp, a_n_temp, ph_n_temp) := temp in
  let model := sum_sines times f_n_temp a_n_temp ph_n_temp in
  let '(const, slope) := linear_pars times (Np.sub signal model) i_sectors in
  let model := Np.add model (linear_curve times const slope i_sectors) in
  let resid := Np.sub signal model in
  let n_param := (2 * zlen i_sectors + 3 * zlen f_n_temp)%Z in
  let bic := calc_bic (Np.div resid signal_err) n_param in
  Done {| es_const := const; es_slope := slope; es_resid := resid;
          es_accepted := es_temp st; es_temp := temp;
          es_bic_prev := Finite (es_bic st); es_bic := bic;
          es_i := S (es_i st) |}.

(** [while (bic_prev - bic > 2)]. *)
Fixpoint extract_all_loop (fuel : nat) (times signal signal_err : list R)
  (i_sectors : list sector) (freq_res : R) (st : extract_state)
  : outcome extract_state :=
  match fuel with
  | O => OutOfFuel
  | S fuel' =>
      if extract_all_test st then
        st' <- extract_all_body fuel' times signal signal_err i_sectors
                                freq_res st ;;
        extract_all_loop fuel' times signal signal_err i_sectors freq_res st'
      else Done st
  end.

(** What the function returns once the loop has stopped in state [st]. *)
Definition extract_all_result (times signal : list R)
  (i_sectors : list sector) (st : extract_state) : model :=
  let '(f_n, a_n, ph_n) := es_accepted st in
  let resid := Np.sub signal (sum_sines times f_n a_n ph_n) in
  let '(const, slope) := linear_pars times resid i_sectors in
  (const, slope, (f_n, a_n, ph_n)).

(** [times -= times[0]]. *)
Definition shift_times (times : list R) : list R :=
  map (fun t => t - hd 0 times) times.

Definition extract_all_init (times signal signal_err : list R)
  (i_sectors : list sector) : extract_state :=
  let '(const, slope) := linear_pars times signal i_sectors in
  let resid := Np.sub signal (linear_curve times const slope i_sectors) in
  let n_param := (2 * zlen i_sectors)%Z in
  {| es_const := const; es_slope := slope; es_resid := resid;
     es_accepted := ([], [], []); es_temp := ([], [], []);
     es_bic_prev := PlusInf;
     es_bic := calc_bic (Np.div resid signal_err) n_param;
     es_i := 0 |}.

Definition extract_all (fuel : nat) (times signal signal_err : list R)
  (i_sectors : list sector) : outcome model :=
  let times := shift_times times in
  let freq_res := 1.5 / Np.ptp times in
  st <- extract_all_loop fuel times signal signal_err i_sectors freq_res
                         (extract_all_init times signal signal_err i_sectors) ;;
  Done (extract_all_result times signal i_sectors st).

(** *** [fix_harmonic_frequency] *)

(** The working set once the frequencies matched to harmonic [n] are
    deleted. *)
Definition lock_removed (p_orb f_tolerance : R) (s : sines) (n : Z) : sines :=
  let '(f_n, a_n, ph_n) := s in
  let '(harmonics, harmonic_n) :=
    find_harmonics_tolerance f_n p_orb f_tolerance in
  let remove := matched_to n harmonics harmonic_n in
  (Np.delete f_n remove, Np.delete a_n remove, Np.delete ph_n remove).

(** The residual harmonic [n] is evaluated on: the signal minus the model
    without the frequencies matched to [n]. *)
Definition lock_resid (times signal : list R) (p_orb f_tolerance : R)
  (i_sectors : list sector) (m : model) (n : Z) : list R :=
  let '(const, slope, s) := m in
  let '(f_n, a_n, ph_n) := lock_removed p_orb f_tolerance s n in
  let model :=
    Np.add (linear_curve times const slope i_sectors)
           (sum_sines times f_n a_n ph_n) in
  Np.sub signal model.

(** The entry written for harmonic [n]: frequency [n / p_orb], amplitude
    and wrapped phase from the periodogram at that one frequency. *)
Definition locked_entry (times resid : list R) (p_orb : R) (n : Z)
  : R * R * R :=
  (IZR n / p_orb,
   scargle_ampl_single times resid (IZR n / p_orb),
   wrap_phase (scargle_phase_single times resid (IZR n / p_orb))).

(** The body of [for n in np.unique(harmonic_n)]. *)
Definition lock_harmonic (times signal : list R) (p_orb f_tolerance : R)
  (i_sectors : list sector) (m : model) (n : Z) : model :=
  let '(const, slope, s) := m in
  let '(f_n, a_n, ph_n) := lock_removed p_orb f_tolerance s n in
  let resid := lock_resid times signal p_orb f_tolerance i_sectors m n in
  let '(f, a, ph) := locked_entry times resid p_orb n in
  let f_n := f_n ++ [f] in
  let a_n := a_n ++ [a] in
  let ph_n := ph_n ++ [ph] in
  let resid := Np.sub signal (sum_sines times f_n a_n ph_n) in
  let '(const, slope) := linear_pars times resid i_sectors in
  (const, slope, (f_n, a_n, ph_n)).

(** The body of [for i in non_harm]. *)
Definition reextract (times signal : list R) (freq_res : R)
  (i_sectors : list sector) (m : model) (i : nat) : outcome model :=
  let '(const, slope, (f_n, a_n, ph_n)) := m in
  let model :=
    Np.add (linear_curve times const slope i_sectors)
           (sum_sines times (Np.delete f_n [i]) (Np.delete a_n [i])
                      (Np.delete ph_n [i])) in
  let fl := nth i f_n 0 - freq_res in
  let fr := nth i f_n 0 + freq_res in
  '(f_i, a_i, ph_i) <- extract_single times (Np.sub signal model) fl fr ;;
  let f_n := Np.set_nth i f_i f_n in
  let a_n := Np.set_nth i a_i a_n in
  let ph_n := Np.set_nth i (wrap_phase ph_i) ph_n in
  let resid := Np.sub signal (sum_sines times f_n a_n ph_n) in
  let '(const, slope) := linear_pars times resid i_sectors in
  Done (const, slope, (f_n, a_n, ph_n)).

Definition f_tolerance_of (times : list R) (p_orb : R) : R :=
  Rmin (1.5 / Np.ptp times / 2) (1 / (2 * p_orb)).

(** The working set after the locking loop. *)
Definition locked_model (times signal : list R) (p_orb : R)
  (m : model) (i_sectors : list sector) : model :=
  let f_tolerance := f_tolerance_of times p_orb in
  let '(harmonics, harmonic_n) :=
    find_harmonics_tolerance (fst (fst (snd m))) p_orb f_tolerance in
  fold_left (lock_harmonic times signal p_orb f_tolerance i_sectors)
            (Np.unique harmonic_n) m.

Definition fix_harmonic_frequency (times signal : list R) (p_orb : R)
  (const slope : list R) (s : sines) (i_sectors : list sector)
  : outcome model :=
  let freq_res := 1.5 / Np.ptp times in
  let f_tolerance := f_tolerance_of times p_orb in
  let '(harmonics, harmonic_n) :=
    find_harmonics_tolerance (fst (fst s)) p_orb f_tolerance in
  if (length harmonics =? 0)%nat then Raised NoHarmonicsFound
  else
    let m := locked_model times signal p_orb (const, slope, s) i_sectors in
    let f_n := fst (fst (snd m)) in
    let '(harmonics, harmonic_n) := find_harmonics_from_pattern f_n p_orb in
    let non_harm := Np.delete (Np.arange (length f_n)) harmonics in
    foldM (reextract times signal freq_res i_sectors) non_harm m.

(** *** [extract_additional_harmonics] *)

Record harmonic_state : Type := {
  hs_const : list R;
  hs_slope : list R;
  hs_sines : sines;
  hs_resid : list R;
  hs_bic_prev : R;
  hs_n_accepted : Z
}.

(** The body of [for h_c in h_candidate]. *)
Definition try_harmonic (times signal signal_err : list R) (p_orb : R)
  (i_sectors : list sector) (n_param_orig : Z) (st : harmonic_state) (h_c : Z)
  : harmonic_state :=
  let '(f_n, a_n, ph_n) := hs_sines st in
  let f_c := IZR h_c / p_orb in
  let a_c := scargle_ampl_single times (hs_resid st) f_c in
  let ph_c := wrap_phase (scargle_phase_single times (hs_resid st) f_c) in
  let f_n_temp := f_n ++ [f_c] in
  let a_n_temp := a_n ++ [a_c] in
  let ph_n_temp := ph_n ++ [ph_c] in
  let model := sum_sines times f_n_temp a_n_temp ph_n_temp in
  let '(const, slope) := linear_pars times (Np.sub signal model) i_sectors in
  let model :=
    Np.add (linear_curve times const slope i_sectors)
           (sum_sines times f_n_temp a_n_temp ph_n_temp) in
  let resid := Np.sub signal model in
  let n_param := (n_param_orig + 2 * (hs_n_accepted st + 1))%Z in
  let bic := calc_bic (Np.div resid signal_err) n_param in
  if Rltb 2 (Np.round2 (hs_bic_prev st - bic)) then
    {| hs_const := const; hs_slope := slope;
       hs_sines := (f_n_temp, a_n_temp, ph_n_temp); hs_resid := resid;
       hs_bic_prev := bic; hs_n_accepted := (hs_n_accepted st + 1)%Z |}
  else
    let resid := Np.sub signal (sum_sines times f_n a_n ph_n) in
    let '(const, slope) := linear_pars times resid i_sectors in
    let model :=
      Np.add (linear_curve times const slope i_sectors)
             (sum_sines times f_n a_n ph_n) in
    {| hs_const := const; hs_slope := slope; hs_sines := (f_n, a_n, ph_n);
       hs_resid := Np.sub signal model; hs_bic_prev := hs_bic_prev st;
       hs_n_accepted := hs_n_accepted st |}.

Definition extract_additional_harmonics (times signal signal_err : list R)
  (p_orb : R) (const slope : list R) (s : sines) (i_sectors : list sector)
  : outcome model :=
  let '(f_n, a_n, ph_n) := s in
  let f_max := 1 / (2 * Np.amin (Np.diff times)) in
  let '(harmonics, harmonic_n) := find_harmonics_from_pattern f_n p_orb in
  if (length harmonics =? 0)%nat then Raised NoHarmonicsFound
  else
    h_candidate <-
      Np.delete_checked (Np.arange_from_1 (p_orb * f_max))
                        (map (fun n => (n - 1)%Z) harmonic_n) ;;
    let model :=
      Np.add (linear_curve times const slope i_sectors)
             (sum_sines times f_n a_n ph_n) in
    let resid := Np.sub signal model in
    let n_param_orig := (3 * zlen f_n + 2 - zlen harmonics + 1)%Z in
    let bic_prev := calc_bic (Np.div resid signal_err) n_param_orig in
    let st :=
      fold_left (try_harmonic times signal signal_err p_orb i_sectors
                              n_param_orig)
                h_candidate
                {| hs_const := const; hs_slope := slope; hs_sines := s;
                   hs_resid := resid; hs_bic_prev := bic_prev;
                   hs_n_accepted := 0 |} in
    Done (hs_const st, hs_slope st, hs_sines st).

(** *** The reduction passes *)

(** The BIC of the model made of the sinusoids [s] and the trend fitted
    to what they leave, with [n_param] free parameters. *)
Definition refit_bic (times signal signal_err : list R)
  (i_sectors : list sector) (s : sines) (n_param : Z) : R :=
  let '(f_n, a_n, ph_n) := s in
  let model := sum_sines times f_n a_n ph_n in
  let '(const, slope) := linear_pars times (Np.sub signal model) i_sectors in
  let model := Np.add model (linear_curve times const slope i_sectors) in
  calc_bic (Np.div (Np.sub signal model) signal_err) n_param.

Definition delete_sines (s : sines) (remove : list nat) : sines :=
  let '(f_n, a_n, ph_n) := s in
  (Np.delete f_n remove, Np.delete a_n remove, Np.delete ph_n remove).

Definition append_sines (s new : sines) : sines :=
  let '(f_n, a_n, ph_n) := s in
  let '(f_new, a_new, ph_new) := new in
  (f_n ++ f_new, a_n ++ a_new, ph_n ++ ph_new).

(** The single-removal pass.  Its state is [(remove_single, bic_prev)];
    [n_param_of] gives the parameter count from [len(f_n_temp)]. *)
Definition try_remove (times signal signal_err : list R)
  (i_sectors : list sector) (s : sines) (n_param_of : Z -> Z)
  (st : list nat * R) (i : nat) : list nat * R :=
  let '(remove_single, bic_prev) := st in
  if Np.mem i remove_single then st
  else
    let remove := remove_single ++ [i] in
    let temp := delete_sines s remove in
    let n_param := n_param_of (zlen (fst (fst temp))) in
    let bic := refit_bic times signal signal_err i_sectors temp n_param in
    if Rltb 0 (Np.round2 (bic_prev - bic)) then (remove_single ++ [i], bic)
    else st.

Definition removal_pass (times signal signal_err : list R)
  (i_sectors : list sector) (s : sines) (n_param_of : Z -> Z)
  (candidates : list nat) (bic_init : R) : outcome (list nat * R) :=
  sweeps (S (S (length candidates)))
         (fun st =>
            Done (fold_left (try_remove times signal signal_err i_sectors s
                                        n_param_of) candidates st))
         (fun st => length (fst st)) (-1) ([], bic_init).

(** The cluster-merge pass.  [replacement resid set_i] gives the entries
    that replace the set; [n_param_of] gives the parameter count from
    [len(f_n_temp)] and the number of replacing entries. *)
Record merge_state : Type := {
  ms_remove_sets : list nat;
  ms_used_sets : list nat;
  ms_new : sines;           (* f_new, a_new, ph_new *)
  ms_bic_prev : R
}.

Definition try_merge (times signal signal_err : list R)
  (i_sectors : list sector) (s : sines) (f_sets : list (list nat))
  (replacement : list R -> list nat -> outcome sines)
  (n_param_of : Z -> Z -> Z)
  (st : merge_state) (iset : nat * list nat) : outcome merge_state :=
  let '(i, set_i) := iset in
  if Np.mem i (ms_used_sets st) then Done st
  else
    let remove := all_removed f_sets (ms_remove_sets st) ++ set_i in
    let temp := append_sines (delete_sines s remove) (ms_new st) in
    let '(f_n_temp, a_n_temp, ph_n_temp) := temp in
    let model := sum_sines times f_n_temp a_n_temp ph_n_temp in
    let '(const, slope) :=
      linear_pars times (Np.sub signal model) i_sectors in
    let model := Np.add model (linear_curve times const slope i_sectors) in
    new <- replacement (Np.sub signal model) set_i ;;
    let n_param := n_param_of (zlen f_n_temp) (zlen (fst (fst new))) in
    let bic :=
      refit_bic times signal signal_err i_sectors (append_sines temp new)
                n_param in
    if Rltb 0 (Np.round2 (ms_bic_prev st - bic)) then
      Done {| ms_remove_sets := ms_remove_sets st ++ [i];
              ms_used_sets :=
                Np.unique_idx (ms_used_sets st ++ overlapping f_sets set_i);
              ms_new := append_sines (ms_new st) new;
              ms_bic_prev := bic |}
    else Done st.

Definition merge_pass (times signal signal_err : list R)
  (i_sectors : list sector) (s : sines) (f_sets : list (list nat))
  (replacement : list R -> list nat -> outcome sines)
  (n_param_of : Z -> Z -> Z) (bic_prev : R) : outcome merge_state :=
  sweeps (S (S (length f_sets)))
         (fun st =>
            foldM (try_merge times signal signal_err i_sectors s f_sets
                             replacement n_param_of)
                  (combine (Np.arange (length f_sets)) f_sets) st)
         (fun st => length (ms_remove_sets st)) (-1)
         {| ms_remove_sets := []; ms_used_sets := [];
            ms_new := ([], [], []); ms_bic_prev := bic_prev |}.

(** The sinusoid set a merge pass leaves. *)
Definition merged (s : sines) (f_sets : list (list nat)) (st : merge_state)
  : sines :=
  append_sines (delete_sines s (all_removed f_sets (ms_remove_sets st)))
               (ms_new st).

(** A set of close frequencies is replaced by one frequency, extracted
    between the smallest and the largest of the set. *)
Definition replace_by_extraction (times : list R) (freq_res : R)
  (f_n : list R) (resid : list R) (set_i : list nat) : outcome sines :=
  let edges_0 := Np.amin (Np.take f_n set_i) - freq_res in
  let edges_1 := Np.amax (Np.take f_n set_i) + freq_res in
  '(f_i, a_i, ph_i) <- extract_single times resid edges_0 edges_1 ;;
  Done ([f_i], [a_i], [ph_i]).

(** A set of close frequencies is replaced by the harmonics it holds. *)
Definition replace_by_harmonics (times : list R) (harmonics : list nat)
  (f_n : list R) (resid : list R) (set_i : list nat) : outcome sines :=
  let harm_i := filter (fun h => Np.mem h harmonics) set_i in
  let f_i := Np.take f_n harm_i in
  Done (f_i, scargle_ampl times resid f_i, scargle_phase times resid f_i).

(** *** [reduce_frequencies] *)

(** The BIC of the input model, with the trend the caller passes. *)
Definition input_bic (times signal signal_err const slope : list R)
  (s : sines) (i_sectors : list sector) (n_param : Z) : R :=
  let '(f_n, a_n, ph_n) := s in
  let model :=
    Np.add (linear_curve times const slope i_sectors)
           (sum_sines times f_n a_n ph_n) in
  calc_bic (Np.div (Np.sub signal model) signal_err) n_param.

(** The sets of close frequencies the second pass examines. *)
Definition close_sets (times : list R) (f_n : list R) : list (list nat) :=
  flat_map sub_ranges (chains_within_rayleigh f_n (1.5 / Np.ptp times)).

Definition reduce_frequencies (times signal signal_err const slope : list R)
  (s : sines) (i_sectors : list sector) : outcome model :=
  let freq_res := 1.5 / Np.ptp times in
  let n_freq := Np.arange (nsines s) in
  let n_sectors := zlen i_sectors in
  let n_param := (2 * n_sectors + 3 * Z.of_nat (nsines s))%Z in
  let bic_init :=
    input_bic times signal signal_err const slope s i_sectors n_param in
  '(remove_single, bic_prev) <-
     removal_pass times signal signal_err i_sectors s
                  (fun len => (2 * n_sectors + 3 * len)%Z) n_freq bic_init ;;
  let s := delete_sines s remove_single in
  let f_n := fst (fst s) in
  let f_sets := close_sets times f_n in
  st <- merge_pass times signal signal_err i_sectors s f_sets
                   (replace_by_extraction times freq_res f_n)
                   (fun len _ => (2 * n_sectors + 3 * len)%Z) bic_prev ;;
  let '(f_n, a_n, ph_n) := merged s f_sets st in
  let model := sum_sines times f_n a_n ph_n in
  let '(const, slope) := linear_pars times (Np.sub signal model) i_sectors in
  Done (const, slope, (f_n, a_n, ph_n)).

(** *** [reduce_frequencies_harmonics] *)

(** The first pass: single frequencies that are not harmonics are removed.
    It leaves the reduced set and the BIC reached. *)
Definition rfh_removal (times signal signal_err : list R) (p_orb : R)
  (const slope : list R) (s : sines) (i_sectors : list sector)
  : outcome (sines * R) :=
  let f_n := fst (fst s) in
  let '(harmonics, harmonic_n) := find_harmonics_from_pattern f_n p_orb in
  let non_harm := Np.delete (Np.arange (length f_n)) harmonics in
  let n_sectors := zlen i_sectors in
  let n_harm := zlen harmonics in
  let n_param :=
    (2 * n_sectors + 1 + 2 * n_harm + 3 * (zlen f_n - n_harm))%Z in
  let bic_init :=
    input_bic times signal signal_err const slope s i_sectors n_param in
  '(remove_single, bic_prev) <-
     removal_pass times signal signal_err i_sectors s
                  (fun len =>
                     (2 * n_sectors + 1 + 2 * n_harm + 3 * (len - n_harm))%Z)
                  non_harm bic_init ;;
  Done (delete_sines s remove_single, bic_prev).

(** The sets of close frequencies, none of them a harmonic, that the second
    pass examines. *)
Definition non_harmonic_sets (times : list R) (p_orb : R) (f_n : list R)
  : list (list nat) :=
  let '(harmonics, harmonic_n) := find_harmonics_from_pattern f_n p_orb in
  let non_harm := Np.delete (Np.arange (length f_n)) harmonics in
  let close_f_groups :=
    chains_within_rayleigh (Np.take f_n non_harm) (1.5 / Np.ptp times) in
  let close_f_groups :=
    map (fun group => map (fun k => nth k non_harm 0%nat) group)
        close_f_groups in
  flat_map sub_ranges close_f_groups.

(** The second pass: sets of close frequencies without a harmonic are
    replaced by one extracted frequency.  [n_harm] is the number of
    harmonics counted at the start of the function. *)
Definition rfh_merge (times signal signal_err : list R) (p_orb : R)
  (n_harm : Z) (s : sines) (bic_prev : R) (i_sectors : list sector)
  : outcome (sines * R) :=
  let freq_res := 1.5 / Np.ptp times in
  let n_sectors := zlen i_sectors in
  let f_n := fst (fst s) in
  let f_sets := non_harmonic_sets times p_orb f_n in
  st <- merge_pass times signal signal_err i_sectors s f_sets
                   (replace_by_extraction times freq_res f_n)
                   (fun len _ =>
                      (2 * n_sectors + 1 + 2 * n_harm
                       + 3 * (len - n_harm + 1))%Z)
                   bic_prev ;;
  Done (merged s f_sets st, ms_bic_prev st).

(** The sets of close frequencies with a harmonic among them. *)
Definition harmonic_sets (times : list R) (p_orb : R) (f_n : list R)
  : list (list nat) :=
  let '(harmonics, harmonic_n) := find_harmonics_from_pattern f_n p_orb in
  filter (fun set_i => existsb (fun g_f => Np.mem g_f harmonics) set_i)
         (flat_map sub_ranges
                   (chains_within_rayleigh f_n (1.5 / Np.ptp times))).

(** The third pass: sets of close frequencies that hold a harmonic are
    replaced by the harmonics they hold. *)
Definition rfh_absorb (times signal signal_err : list R) (p_orb : R)
  (n_harm : Z) (s : sines) (bic_prev : R) (i_sectors : list sector)
  : outcome sines :=
  let n_sectors := zlen i_sectors in
  let f_n := fst (fst s) in
  let harmonics := fst (find_harmonics_from_pattern f_n p_orb) in
  let f_sets := harmonic_sets times p_orb f_n in
  st <- merge_pass times signal signal_err i_sectors s f_sets
                   (replace_by_harmonics times harmonics f_n)
                   (fun len len_new =>
                      (2 * n_sectors + 1 + 2 * n_harm
                       + 3 * (len + len_new - n_harm))%Z)
                   bic_prev ;;
  Done (merged s f_sets st).

Definition reduce_frequencies_harmonics (times signal signal_err : list R)
  (p_orb : R) (const slope : list R) (s : sines) (i_sectors : list sector)
  : outcome model :=
  let n_harm := zlen (fst (find_harmonics_from_pattern (fst (fst s)) p_orb)) in
  '(s, bic_prev) <-
     rfh_removal times signal signal_err p_orb const slope s i_sectors ;;
  '(s, bic_prev) <-
     rfh_merge times signal signal_err p_orb n_harm s bic_prev i_sectors ;;
  s <- rfh_absorb times signal signal_err p_orb n_harm s bic_prev i_sectors ;;
  let '(f_n, a_n, ph_n) := s in
  let model := sum_sines times f_n a_n ph_n in
  let '(const, slope) := linear_pars times (Np.sub signal model) i_sectors in
  Done (const, slope, (f_n, a_n, ph_n)).

(** *** [extract_harmonics] and [extract_all_harmonics] *)

(** The candidate harmonic [h_c] measured on a residual: its frequency
    [h_c / p_orb], the amplitude and the wrapped phase of the periodogram
    at that frequency. *)
Definition harmonic_entry (times resid : list R) (p_orb : R) (h_c : Z)
  : R * R * R :=
  let f_c := IZR h_c / p_orb in
  let a_c := scargle_ampl_single times resid f_c in
  let ph_c := scargle_phase_single times resid f_c in
  (f_c, a_c, wrap_phase ph_c).

(** [signal - model - np.mean(signal - model)]. *)
Definition mean_subtracted (signal model : list R) : list R :=
  let d := Np.sub signal model in
  map (fun v => v - Np.mean d) d.

(** The first loop of [extract_all_harmonics]: every candidate is measured
    on the residual and appended.  The state is
    [(f_n_h, a_n_h, ph_n_h), resid, model]; the local [model] is unbound
    ([None]) until the body of a loop has run. *)
Definition append_harmonic (times signal : list R) (p_orb : R)
  (st : sines * list R * option (list R)) (h_c : Z)
  : sines * list R * option (list R) :=
  let '(s, resid, _) := st in
  let '(f_c, a_c, ph_c) := harmonic_entry times resid p_orb h_c in
  let '(f_n_h, a_n_h, ph_n_h) := append_sines s ([f_c], [a_c], [ph_c]) in
  let model := sum_sines times f_n_h a_n_h ph_n_h in
  ((f_n_h, a_n_h, ph_n_h), mean_subtracted signal model, Some model).

(** The second loop: harmonic [h_c], at index [h_c - 1], is taken out of
    the model and measured again. *)
Definition remeasure_harmonic (times signal : list R) (p_orb : R)
  (st : sines * option (list R)) (h_c : Z) : sines * option (list R) :=
  let '((f_n_h, a_n_h, ph_n_h), _) := st in
  let i := Z.to_nat (h_c - 1) in
  let model :=
    sum_sines times (Np.delete f_n_h [i]) (Np.delete a_n_h [i])
              (Np.delete ph_n_h [i]) in
  let resid := mean_subtracted signal model in
  let '(f_c, a_c, ph_c) := harmonic_entry times resid p_orb h_c in
  ((Np.set_nth i f_c f_n_h, Np.set_nth i a_c a_n_h, Np.set_nth i ph_c ph_n_h),
   Some model).

(** [h_candidate] of [extract_all_harmonics]:
    [np.arange(1, p_orb * f_max + 0.01, dtype=int)], with the Nyquist
    frequency for [f_max] when it is not given. *)
Definition h_candidates_all (times : list R) (p_orb : R) (f_max : option R)
  : list Z :=
  let f_max :=
    match f_max with
    | Some f => f
    | None => 1 / (2 * Np.amin (Np.diff times))
    end in
  Np.arange_from_1 (p_orb * f_max + 0.01).

(** [extract_all_harmonics]: the pair of [const_r] and the sinusoids.  The
    last line reads the local [model], which no statement has assigned when
    there is no candidate: the [UnboundLocalError] of that case is the
    result [None]. *)
Definition extract_all_harmonics (times signal signal_err : list R)
  (p_orb : R) (f_max : option R) : option (R * sines) :=
  let h_candidate := h_candidates_all times p_orb f_max in
  let resid := map (fun v => v - Np.mean signal) signal in
  let '(s, _, model) :=
    fold_left (append_harmonic times signal p_orb) h_candidate
              (([], [], []), resid, None) in
  let '(s, model) :=
    fold_left (remeasure_harmonic times signal p_orb) h_candidate
              (s, model) in
  match model with
  | Some model => Some (Np.mean (Np.sub signal model), s)
  | None => None
  end.

(** [h_candidate] of [extract_harmonics]:
    [np.arange(1, p_orb * f_max, dtype=int)] below the Nyquist frequency. *)
Definition h_candidates (times : list R) (p_orb : R) : list Z :=
  let f_max := 1 / (2 * Np.amin (Np.diff times)) in
  Np.arange_from_1 (p_orb * f_max).

(** The state of the loop of [extract_harmonics]. *)
Record extract_harmonics_state : Type := {
  eh_accepted : sines;           (* f_n_h, a_n_h, ph_n_h *)
  eh_resid : list R;
  eh_bic_prev : R;
  eh_n_accepted : Z;
  eh_model : option (list R)     (* unbound before the first pass *)
}.

(** The body of [for h_c in h_candidate] of [extract_harmonics]. *)
Definition try_candidate (times signal_err resid_orig : list R) (p_orb : R)
  (n_param_orig : Z) (st : extract_harmonics_state) (h_c : Z) : extract_harmonics_state :=
  let '(f_c, a_c, ph_c) := harmonic_entry times (eh_resid st) p_orb h_c in
  let '(f_n_temp, a_n_temp, ph_n_temp) :=
    append_sines (eh_accepted st) ([f_c], [a_c], [ph_c]) in
  let model := sum_sines times f_n_temp a_n_temp ph_n_temp in
  let resid := mean_subtracted resid_orig model in
  let n_param := (n_param_orig + 2 * (eh_n_accepted st + 1))%Z in
  let bic := calc_bic (Np.div resid signal_err) n_param in
  if Rltb 2 (Np.round2 (eh_bic_prev st - bic)) then
    {| eh_accepted := (f_n_temp, a_n_temp, ph_n_temp);
       eh_resid := resid;
       eh_bic_prev := bic;
       eh_n_accepted := (eh_n_accepted st + 1)%Z;
       eh_model := Some model |}
  else
    let '(f_n_h, a_n_h, ph_n_h) := eh_accepted st in
    let model := sum_sines times f_n_h a_n_h ph_n_h in
    {| eh_accepted := eh_accepted st;
       eh_resid := mean_subtracted resid_orig model;
       eh_bic_prev := eh_bic_prev st;
       eh_n_accepted := eh_n_accepted st;
       eh_model := Some model |}.

(** [extract_harmonics]: the pair of [const_r] and the sinusoids; [None]
    is the [UnboundLocalError] of the last line when there is no
    candidate. *)
Definition extract_harmonics (times signal signal_err : list R) (p_orb : R)
  : option (R * sines) :=
  let h_candidate := h_candidates times p_orb in
  let resid_orig_mean := Np.mean signal in
  let resid_orig := map (fun v => v - resid_orig_mean) signal in
  let n_param_orig := 2%Z in
  let bic_prev := calc_bic (Np.div resid_orig signal_err) n_param_orig in
  let st :=
    fold_left (try_candidate times signal_err resid_orig p_orb n_param_orig)
              h_candidate
              {| eh_accepted := ([], [], []);
                 eh_resid := resid_orig;
                 eh_bic_prev := bic_prev;
                 eh_n_accepted := 0;
                 eh_model := None |} in
  match eh_model st with
  | Some model =>
      Some (Np.mean (Np.sub resid_orig model) + resid_orig_mean,
            eh_accepted st)
  | None => None
  end.

(** *** Runs of the prewhitening loop *)

(** [run st0 hist st]: the state [st] is reached from [st0] by passes
    through the body of the loop of [extract_all], each entered on a test
    that held.  [hist] lists the sets these passes accepted, each with the
    BIC it was accepted with, the latest first. *)
Inductive run (times signal signal_err : list R) (i_sectors : list sector)
  (freq_res : R) (st0 : extract_state)
  : list (sines * R) -> extract_state -> Prop :=
| run_start : run times signal signal_err i_sectors freq_res st0 [] st0
| run_commit (hist : list (sines * R)) (st st' : extract_state) (fuel : nat) :
    run times signal signal_err i_sectors freq_res st0 hist st ->
    extract_all_test st = true ->
    extract_all_body fuel times signal signal_err i_sectors freq_res st
    = Done st' ->
    run times signal signal_err i_sectors freq_res st0
        ((es_temp st, es_bic st) :: hist) st'.

(** Every accepted set has a BIC more than 2 below that of the set
    accepted before it. *)
Fixpoint improving (hist : list (sines * R)) : Prop :=
  match hist with
  | (_, b') :: rest =>
      match rest with
      | (_, b) :: _ => b - b' > 2
      | [] => True
      end /\ improving rest
  | [] => True
  end.


(** The BIC of the model without sinusoids: the trend fitted to the raw
    signal. *)
Definition trend_only_bic (times signal signal_err : list R)
  (i_sectors : list sector) : R :=
  let '(const, slope) := linear_pars times signal i_sectors in
  let resid := Np.sub signal (linear_curve times const slope i_sectors) in
  calc_bic (Np.div resid signal_err) (2 * zlen i_sectors)%Z.

(** *** The vocabulary of the properties *)

(** The invariant of the loop, read off the list of accepted sets. *)
Definition run_invariant (times signal signal_err : list R)
  (i_sectors : list sector) (st0 : extract_state)
  (hist : list (sines * R)) (st : extract_state) : Prop :=
  improving hist /\
  es_i st = length hist /\
  match hist with
  | [] => st = st0
  | (s, b) :: rest =>
      es_accepted st = s /\
      es_bic_prev st = Finite b /\
      nsines s = length rest /\
      nsines (es_temp st) = S (nsines s) /\
      es_bic st = bic_of_sines times signal signal_err i_sectors (es_temp st) /\
      match rest with
      | [] => s = es_temp st0 /\ b = es_bic st0
      | _ :: _ => b = bic_of_sines times signal signal_err i_sectors s
      end
  end.

Definition all_zero (xs : list R) : Prop := Forall (fun x => x = 0) xs.

(** A signal of zeros leaves the sums [ss] and [sc] at zero. *)
Definition no_power (q : R * R * R * R) : Prop :=
  fst (fst (fst q)) = 0 /\ snd (fst (fst q)) = 0.


(** The interval the wrap maps into. *)
Definition wrapped (ph : R) : Prop := - PI <= ph < PI.

Definition phases_wrapped (s : sines) : Prop := Forall wrapped (snd s).











(** The sum of the squares of the mean-subtracted values of [xs]. *)
Definition spread (xs : list R) : R :=
  Np.sum (map (fun v => v ^ 2) (map (fun t => t - Np.mean xs) xs)).

(** The determinant [quadratic_pars] divides by. *)
Definition quadratic_det (times : list R) : R :=
  let x_m := Np.mean times in
  let x2_m := Np.mean (map (fun t => t ^ 2) times) in
  let x_ms := map (fun t => t - x_m) times in
  let x2_ms := map (fun t => t ^ 2 - x2_m) times in
  let s_xx := Np.sum (map (fun v => v ^ 2) x_ms) in
  let s_x2x := Np.sum (Np.map2 Rmult x2_ms x_ms) in
  let s_x2x2 := Np.sum (map (fun v => v ^ 2) x2_ms) in
  s_x2x2 * s_xx - s_x2x ^ 2.

(** The determinant [cubic_pars] divides by. *)
Definition cubic_det (times : list R) : R :=
  let x_m := Np.mean times in
  let x2_m := Np.mean (map (fun t => t ^ 2) times) in
  let x3_m := Np.mean (map (fun t => t ^ 3) times) in
  let x_ms := map (fun t => t - x_m) times in
  let x2_ms := map (fun t => t ^ 2 - x2_m) times in
  let x3_ms := map (fun t => t ^ 3 - x3_m) times in
  let s_xx := Np.sum (map (fun v => v ^ 2) x_ms) in
  let s_x2x := Np.sum (Np.map2 Rmult x2_ms x_ms) in
  let s_x2x2 := Np.sum (map (fun v => v ^ 2) x2_ms) in
  let s_x3x := Np.sum (Np.map2 Rmult x3_ms x_ms) in
  let s_x3x2 := Np.sum (Np.map2 Rmult x3_ms x2_ms) in
  let s_x3x3 := Np.sum (map (fun v => v ^ 2) x3_ms) in
  s_x3x3 * (s_x2x2 * s_xx - s_x2x ^ 2)
  - s_x3x2 * (s_x3x2 * s_xx - 2 * s_x3x * s_x2x)
  - s_x3x ^ 2 * s_x2x2.

(** The value at time [t] of the sinusoids [(f, (a, ph))] of [l], each
    with the term [term f a ph t]. *)
Definition sine_terms (term : R -> R -> R -> R -> R) (l : list (R * (R * R)))
  (t : R) : R :=
  fold_right (fun '(f, (a, ph)) acc => term f a ph t + acc) 0 l.




(** A phase [x] falls in the bin [b = (b1, b2)] of [phase_dispersion]. *)
Definition inside (b : R * R) (x : R) : bool :=
  Rleb (fst b) x && Rltb x (snd b).

(** The sums [(ss, sc, ss2, sc2)] of the periodogram of a signal
    multiplied by [c]. *)
Definition scale_sums (c : R) (q : R * R * R * R) : R * R * R * R :=
  let '(ss, sc, ss2, sc2) := q in (c * ss, c * sc, ss2, sc2).

(** * Properties *)

(** ** Decisions, outcomes and arrays *)

Arguments linear_pars : simpl never.
Arguments linear_curve : simpl never.
Arguments sum_sines : simpl never.
Arguments calc_bic : simpl never.
Arguments scargle : simpl never.
Arguments extract_single : simpl never.
Arguments scargle_ampl_single : simpl never.
Arguments scargle_phase_single : simpl never.
Arguments wrap_phase : simpl never.
Arguments nsines : simpl never.

Ltac split_pars :=
  match goal with
  | H : context [linear_pars ?a ?b ?c] |- _ =>
      destruct (linear_pars a b c) as [? ?]
  | |- context [linear_pars ?a ?b ?c] =>
      destruct (linear_pars a b c) as [? ?]
  end.

Lemma bind_Done_inv (A B : Type) (m : outcome A) (k : A -> outcome B) (b : B) :
  bind m k = Done b -> exists a, m = Done a /\ k a = Done b.
Proof. destruct m; simpl; intros H; try discriminate; eauto. Qed.

Lemma Rltb_true (a b : R) : Rltb a b = true <-> a < b.
Proof. unfold Rltb; destruct (Rlt_dec a b); split; intros; auto; discriminate. Qed.

Lemma Rltb_false (a b : R) : Rltb a b = false <-> b <= a.
Proof.
  unfold Rltb; destruct (Rlt_dec a b); split; intros; auto; try discriminate; lra.
Qed.

Lemma set_nth_length (A : Type) (j : nat) (v : A) (xs : list A) :
  length (Np.set_nth j v xs) = length xs.
Proof.
  revert j; induction xs as [|x xs IH]; intros [|j]; simpl; auto.
Qed.

Lemma map2_length (A B C : Type) (f : A -> B -> C) (xs : list A) (ys : list B) :
  length (Np.map2 f xs ys) = Nat.min (length xs) (length ys).
Proof.
  revert ys; induction xs as [|x xs IH]; intros [|y ys]; simpl; auto.
Qed.

(** ** The BIC formula *)

Lemma sum_r_2_acc (residuals : list R) (acc : R) :
  fold_left (fun acc r => acc + r ^ 2) residuals acc
  = acc + sum_of_squares residuals.
Proof.
  revert acc; induction residuals as [|r rs IH]; intros acc; simpl.
  - lra.
  - rewrite IH. lra.
Qed.

(** C10.  For a non-empty array of residuals of length [N] and a parameter
    count [k], [calc_bic] is [N * ln(2 * pi * S / N) + N + k * ln(N)], where
    [S] is the sum of the squares of the residuals it is given. *)
Theorem calc_bic_is_formula (residuals : list R) (k : Z) :
  residuals <> [] ->
  calc_bic residuals k
  = bic_formula (INR (length residuals)) (sum_of_squares residuals) (IZR k).
Proof.
  intros _. unfold calc_bic, bic_formula.
  rewrite sum_r_2_acc. rewrite Rplus_0_l. reflexivity.
Qed.

(** ** The prewhitening loop *)

Lemma refine_one_nsines times signal const slope i_sectors freq_res temp j temp' :
  refine_one times signal const slope i_sectors freq_res temp j = Done temp' ->
  nsines temp' = nsines temp.
Proof.
  unfold refine_one. destruct temp as [[f a] ph].
  intros H. apply bind_Done_inv in H. destruct H as [[[f_j a_j] ph_j] [_ H]].
  injection H as <-. unfold nsines; simpl. apply set_nth_length.
Qed.

Lemma refine_fold_nsines times signal const slope i_sectors freq_res close_f :
  forall temp temp',
    foldM (refine_one times signal const slope i_sectors freq_res) close_f temp
    = Done temp' ->
    nsines temp' = nsines temp.
Proof.
  induction close_f as [|j js IH]; simpl; intros temp temp' H.
  - injection H as <-. reflexivity.
  - apply bind_Done_inv in H. destruct H as [t1 [H1 H2]].
    rewrite (IH _ _ H2). eapply refine_one_nsines; eauto.
Qed.

Lemma refine_loop_nsines times signal signal_err close_f i_sectors freq_res
  n_param (L : nat) :
  forall fuel st st',
    refine_loop fuel times signal signal_err close_f i_sectors freq_res
                n_param st = Done st' ->
    nsines (rs_accepted st) = L -> nsines (rs_temp st) = L ->
    nsines (rs_accepted st') = L.
Proof.
  induction fuel as [|fuel IH]; cbn; intros st st' H Ha Ht; [discriminate|].
  destruct (exceeds _ 0).
  - apply bind_Done_inv in H. destruct H as [temp [H1 H2]].
    destruct temp as [[f a] ph]. cbn in H2. split_pars.
    apply IH in H2; auto; cbn.
    rewrite <- Ht. eapply refine_fold_nsines; eauto.
  - injection H as <-. exact Ha.
Qed.

Lemma refine_subset_nsines fuel times signal signal_err close_f const slope s
  i_sectors const' slope' s' :
  refine_subset fuel times signal signal_err close_f const slope s i_sectors
  = Done (const', slope', s') ->
  nsines s' = nsines s.
Proof.
  unfold refine_subset. destruct s as [[f a] ph].
  intros H. apply bind_Done_inv in H. destruct H as [st [H1 H2]].
  apply refine_loop_nsines with (L := nsines (f, a, ph)) in H1; auto.
  destruct (rs_accepted st) as [[f' a'] ph']. cbn in H2. split_pars.
  injection H2 as <- <- <-. exact H1.
Qed.

(** What one pass through the body leaves in the state. *)
Lemma extract_all_body_facts fuel times signal signal_err i_sectors freq_res
  st st' :
  extract_all_body fuel times signal signal_err i_sectors freq_res st
  = Done st' ->
  es_accepted st' = es_temp st /\
  es_bic_prev st' = Finite (es_bic st) /\
  nsines (es_temp st') = S (nsines (es_temp st)) /\
  es_bic st' = bic_of_sines times signal signal_err i_sectors (es_temp st') /\
  es_i st' = S (es_i st).
Proof.
  unfold extract_all_body. destruct (es_temp st) as [[f a] ph] eqn:Et.
  intros H. apply bind_Done_inv in H. destruct H as [[[f_i a_i] ph_i] [_ H]].
  apply bind_Done_inv in H. destruct H as [[[c sl] temp] [Hr H]].
  assert (Hn : nsines temp = S (nsines (f, a, ph))).
  { destruct (_ && _).
    - apply refine_subset_nsines in Hr. rewrite Hr. unfold nsines; simpl.
      rewrite length_app; simpl. lia.
    - injection Hr as _ _ <-. unfold nsines; simpl.
      rewrite length_app; simpl. lia. }
  destruct temp as [[ft att] pht].
  cbn beta iota in H.
  destruct (linear_pars times (Np.sub signal (sum_sines times ft att pht))
                        i_sectors) as [c' sl'] eqn:E.
  injection H as <-. cbn [es_accepted es_bic_prev es_temp es_bic es_i].
  unfold bic_of_sines. rewrite E. repeat split; auto.
Qed.

Lemma extract_all_loop_run times signal signal_err i_sectors freq_res st0 :
  forall fuel hist st st_end,
    run times signal signal_err i_sectors freq_res st0 hist st ->
    extract_all_loop fuel times signal signal_err i_sectors freq_res st
    = Done st_end ->
    exists hist',
      run times signal signal_err i_sectors freq_res st0 hist' st_end /\
      extract_all_test st_end = false.
Proof.
  induction fuel as [|fuel IH]; cbn; intros hist st st_end Hrun H;
    [discriminate|].
  destruct (extract_all_test st) eqn:Ht.
  - apply bind_Done_inv in H. destruct H as [st' [Hb Hl]].
    eapply IH; [|exact Hl]. eapply run_commit; eauto.
  - injection H as <-. eauto.
Qed.

Lemma run_has_invariant times signal signal_err i_sectors freq_res st0 hist st :
  nsines (es_temp st0) = 0%nat ->
  es_i st0 = 0%nat ->
  run times signal signal_err i_sectors freq_res st0 hist st ->
  run_invariant times signal signal_err i_sectors st0 hist st.
Proof.
  intros H0 Hi Hrun. induction Hrun as [|hist st st' fuel Hrun IH Ht Hb].
  - repeat split; simpl; auto.
  - destruct IH as [Himp [Hlen IH]].
    apply extract_all_body_facts in Hb.
    destruct Hb as [Ha [Hp [Hn [Hbic Hi']]]].
    unfold run_invariant. simpl. rewrite Hi', Hlen.
    destruct hist as [|[s b] rest].
    + subst st. repeat split; auto.
    + destruct IH as [Hacc [Hprev [Hns [Hnt [Hbt Hrest]]]]].
      destruct Himp as [Hgap Himp].
      repeat split; auto.
      * unfold extract_all_test in Ht. rewrite Hprev in Ht. simpl in Ht.
        apply Rltb_true in Ht. lra.
      * rewrite Hnt, Hns. reflexivity.
Qed.

Lemma run_nil_start times signal signal_err i_sectors freq_res st0 st :
  run times signal signal_err i_sectors freq_res st0 [] st -> st = st0.
Proof. intros H. inversion H. reflexivity. Qed.



Lemma extract_all_init_test times signal signal_err i_sectors :
  extract_all_test (extract_all_init times signal signal_err i_sectors) = true.
Proof.
  unfold extract_all_init. split_pars. reflexivity.
Qed.

Lemma extract_all_init_empty times signal signal_err i_sectors :
  es_temp (extract_all_init times signal signal_err i_sectors) = ([], [], [])
  /\ es_i (extract_all_init times signal signal_err i_sectors) = 0%nat
  /\ es_bic (extract_all_init times signal signal_err i_sectors)
     = trend_only_bic times signal signal_err i_sectors.
Proof.
  unfold extract_all_init, trend_only_bic. split_pars. auto.
Qed.

(** What a finished call of [extract_all] went through. *)
Lemma extract_all_run fuel times signal signal_err i_sectors r :
  extract_all fuel times signal signal_err i_sectors = Done r ->
  let times' := shift_times times in
  let st0 := extract_all_init times' signal signal_err i_sectors in
  exists s b rest st,
    run times' signal signal_err i_sectors (1.5 / Np.ptp times') st0
        ((s, b) :: rest) st /\
    run_invariant times' signal signal_err i_sectors st0 ((s, b) :: rest) st /\
    extract_all_test st = false /\
    r = extract_all_result times' signal i_sectors st.
Proof.
  intros H times' st0. unfold extract_all in H.
  apply bind_Done_inv in H. destruct H as [st [Hl Hr]].
  injection Hr as <-.
  destruct (extract_all_loop_run _ _ _ _ _ _ _ _ _ _
              (run_start _ _ _ _ _ st0) Hl) as [hist [Hrun Ht]].
  destruct (extract_all_init_empty times' signal signal_err i_sectors)
    as [He [Hi _]].
  pose proof (run_has_invariant times' signal signal_err i_sectors
                                (1.5 / Np.ptp times') st0 hist st) as Hinv.
  destruct hist as [|[s b] rest].
  - apply run_nil_start in Hrun. subst st.
    unfold st0 in Ht. rewrite extract_all_init_test in Ht. discriminate.
  - exists s, b, rest, st.
    split; [exact Hrun|]. split; [|split; auto].
    apply Hinv; auto.
Qed.









(** ** The extractors return *)

Lemma Int_part_nonneg (x : R) : 0 <= x -> (0 <= Int_part x)%Z.
Proof.
  intros Hx. destruct (base_Int_part x) as [_ H].
  assert (H1 : -1 < IZR (Int_part x)) by lra.
  apply lt_IZR in H1. lia.
Qed.

Lemma pyint_nonneg (x : R) : 0 <= x -> (0 <= Np.pyint x)%Z.
Proof.
  intros Hx. unfold Np.pyint. destruct (Rle_dec 0 x); [|contradiction].
  apply Int_part_nonneg; assumption.
Qed.

Lemma argmax_from_bound (xs : list R) :
  forall k best v,
    (best < k)%nat -> (Np.argmax_from k best v xs < k + length xs)%nat.
Proof.
  induction xs as [|x xs IH]; intros k best v Hb; simpl.
  - lia.
  - destruct (Rltb v x).
    + specialize (IH (S k) k x). lia.
    + specialize (IH (S k) best v). lia.
Qed.

Lemma argmax_done (xs : list R) :
  xs <> [] -> exists p, Np.argmax xs = Done p /\ (p < length xs)%nat.
Proof.
  destruct xs as [|x xs]; intros H; [contradiction|].
  simpl. eexists; split; [reflexivity|].
  pose proof (argmax_from_bound xs 1 0 x). lia.
Qed.

Lemma nth_all_zero (xs : list R) : all_zero xs -> forall p, nth p xs 0 = 0.
Proof.
  induction 1 as [|x xs Hx _ IH]; intros [|p]; simpl; auto.
Qed.

Lemma scargle_inner_length sfs cfs a b sd cd a2 b2 (acc : list (R * R * R * R)) :
  length (scargle_inner sfs cfs a b sd cd a2 b2 acc) = length acc.
Proof.
  revert sfs cfs a b.
  induction acc as [|[[[ss sc] ss2] sc2] acc IH]; intros; simpl; auto.
Qed.

Lemma scargle_fold_length f0 df (rows : list (R * R)) :
  forall acc, length (fold_left (scargle_row f0 df) rows acc) = length acc.
Proof.
  induction rows as [|[t s] rows IH]; intros acc; simpl; auto.
  rewrite IH. apply scargle_inner_length.
Qed.

Lemma scargle_inner_no_power sd cd a2 b2 (acc : list (R * R * R * R)) :
  Forall no_power acc ->
  forall a b, Forall no_power (scargle_inner 0 0 a b sd cd a2 b2 acc).
Proof.
  induction 1 as [|[[[ss sc] ss2] sc2] acc [Hs Hc] _ IH]; intros a' b';
    simpl; constructor.
  - simpl in *. split; simpl; lra.
  - replace (0 * cd + 0 * sd) with 0 by ring.
    replace (0 * cd - 0 * sd) with 0 by ring. apply IH.
Qed.

Lemma scargle_fold_no_power f0 df (rows : list (R * R)) :
  Forall (fun ts => snd ts = 0) rows ->
  forall acc,
    Forall no_power acc ->
    Forall no_power (fold_left (scargle_row f0 df) rows acc).
Proof.
  induction 1 as [|[t s] rows Hs _ IH]; intros acc Hacc; simpl; auto.
  apply IH. simpl in Hs. subst s.
  rewrite !Rmult_0_r. apply scargle_inner_no_power; assumption.
Qed.

Lemma combine_zero_signal (times signal : list R) :
  all_zero signal -> Forall (fun ts => snd ts = 0) (combine times signal).
Proof.
  intros H. revert times.
  induction H as [|s signal Hs _ IH]; intros [|t times]; simpl; constructor;
    auto.
Qed.

Lemma nth_map_seq (g : nat -> R) (n j : nat) :
  (j < n)%nat -> nth j (map g (seq 0 n)) 0 = g j.
Proof.
  intros Hj.
  rewrite nth_indep with (d' := g 0%nat)
    by (rewrite length_map, length_seq; exact Hj).
  rewrite map_nth, seq_nth by exact Hj. reflexivity.
Qed.

Lemma scargle_done times signal f0 fn df :
  forall f0' df' nf,
    scargle_grid times f0 fn df = (f0', df', nf) ->
    (0 <= nf)%Z ->
    exists f1 s1,
      scargle times signal f0 fn df = Done (f1, s1) /\
      length f1 = Z.to_nat nf /\
      length s1 = Z.to_nat nf /\
      (forall j, (j < Z.to_nat nf)%nat -> nth j f1 0 = f0' + INR j * df') /\
      (all_zero signal -> all_zero s1).
Proof.
  intros f0' df' nf Hg Hnf. unfold scargle. rewrite Hg.
  destruct (nf <? 0)%Z eqn:E; [apply Z.ltb_lt in E; lia|].
  eexists; eexists; split; [reflexivity|].
  split; [rewrite length_map; apply length_seq|].
  split; [rewrite length_map, scargle_fold_length; apply repeat_length|].
  split.
  - intros j Hj. unfold Np.arange.
    apply (nth_map_seq (fun j => f0' + INR j * df')). exact Hj.
  - intros Hz. unfold all_zero. rewrite Forall_map.
    eapply Forall_impl;
      [|apply scargle_fold_no_power;
        [apply combine_zero_signal; exact Hz|]].
    + intros [[[ss sc] ss2] sc2] [Hs Hc]. simpl in Hs, Hc. subst ss sc.
      unfold scargle_power.
      replace ((0 ^ 2 * (INR (length signal) - sc2)
                + 0 ^ 2 * (INR (length signal) + sc2) - 2 * 0 * 0 * ss2)
               / (INR (length signal) ^ 2 - sc2 ^ 2 - ss2 ^ 2)) with 0
        by (unfold Rdiv; ring).
      rewrite sqrt_0. ring.
    + apply Forall_forall. intros q Hq. apply repeat_spec in Hq. subst q.
      split; reflexivity.
Qed.

(** The grid of a refinement around a frequency [fp] of the grid before
    it is never empty. *)
Lemma refine_grid times (fp df : R) :
  0 < Np.ptp times -> 0 < df -> 0.01 / Np.ptp times <= fp ->
  exists nf,
    scargle_grid times (Rmax (fp - df) (0.01 / Np.ptp times)) (fp + df)
                 (df / 100)
    = (Rmax (fp - df) (0.01 / Np.ptp times), df / 100, nf)
    /\ (1 <= nf)%Z.
Proof.
  intros HT Hdf Hfp. unfold scargle_grid.
  set (lo := 0.01 / Np.ptp times) in *.
  assert (Hlo : 0 < lo).
  { unfold lo. apply Rdiv_lt_0_compat; lra. }
  rewrite (Rmax_left (Rmax (fp - df) lo) lo) by apply Rmax_r.
  destruct (Req_dec_T (df / 100) 0) as [E|_]; [lra|].
  destruct (Req_dec_T (fp + df) 0) as [E|_]; [lra|].
  eexists; split; [reflexivity|].
  assert (Hx : 0 <= (fp + df - Rmax (fp - df) lo) / (df / 100) + 0.001).
  { assert (Rmax (fp - df) lo <= fp + df).
    { apply Rmax_lub; lra. }
    assert (0 <= (fp + df - Rmax (fp - df) lo) / (df / 100)).
    { apply Rle_mult_inv_pos; lra. }
    lra. }
  pose proof (pyint_nonneg _ Hx). lia.
Qed.

Lemma scargle_grid_start times f0 fn df :
  df <> 0 ->
  exists fn',
    scargle_grid times f0 fn df
    = (Rmax f0 (0.01 / Np.ptp times), df,
       (Np.pyint ((fn' - Rmax f0 (0.01 / Np.ptp times)) / df + 0.001) + 1)%Z).
Proof.
  intros Hdf. unfold scargle_grid.
  destruct (Req_dec_T df 0); [contradiction|]. eexists. reflexivity.
Qed.

Lemma all_zero_nonempty_length (xs : list R) (n : Z) :
  length xs = Z.to_nat n -> (1 <= n)%Z -> xs <> [].
Proof. intros Hl Hn ->. simpl in Hl. lia. Qed.

(** [extract_single] returns whenever its first grid is not empty: its
    frequency is not below the floor [0.01 / T], its phase is wrapped, and
    a signal of zeros gives amplitude zero. *)
Lemma extract_single_done times signal f0 fn :
  0 < Np.ptp times ->
  (1 <= grid_size times f0 fn (0.1 / Np.ptp times))%Z ->
  exists f a ph,
    extract_single times signal f0 fn = Done (f, a, wrap_phase ph) /\
    0.01 / Np.ptp times <= f /\
    (all_zero signal -> a = 0).
Proof.
  intros HT Hnf. unfold extract_single, grid_size in *.
  set (T := Np.ptp times) in *.
  assert (Hdf : 0 < 0.1 / T) by (apply Rdiv_lt_0_compat; lra).
  assert (Hlo : 0 < 0.01 / T) by (apply Rdiv_lt_0_compat; lra).
  destruct (scargle_grid_start times f0 fn (0.1 / T)) as [fn' Hg]; [lra|].
  fold T in Hg. rewrite Hg in Hnf. cbn [snd] in Hnf.
  destruct (scargle_done times signal f0 fn (0.1 / T) _ _ _ Hg)
    as [f1 [s1 [Hs [Hl1 [Hl2 [Hf Hz]]]]]]; [lia|].
  rewrite Hs. cbn [bind].
  destruct (argmax_done s1) as [p1 [Hp1 Hb1]];
    [eapply all_zero_nonempty_length; eauto|].
  rewrite Hp1. cbn [bind].
  assert (Hfp : 0.01 / T <= nth p1 f1 0).
  { rewrite Hf by lia.
    assert (0.01 / T <= Rmax f0 (0.01 / T)) by apply Rmax_r.
    assert (0 <= INR p1 * (0.1 / T)).
    { apply Rmult_le_pos; [apply pos_INR|lra]. }
    lra. }
  destruct (refine_grid times (nth p1 f1 0) (0.1 / T) HT Hdf Hfp)
    as [nf2 [Hg2 Hnf2]].
  fold T in Hg2.
  destruct (scargle_done times signal _ _ _ _ _ _ Hg2)
    as [f2 [s2 [Hs2 [Hl3 [Hl4 [Hf2 Hz2]]]]]]; [lia|].
  rewrite Hs2. cbn [bind].
  destruct (argmax_done s2) as [p2 [Hp2 Hb2]];
    [eapply all_zero_nonempty_length; eauto|].
  rewrite Hp2. cbn [bind].
  eexists; eexists; eexists; split; [reflexivity|]. split.
  - rewrite Hf2 by lia.
    assert (0.01 / T <= Rmax (nth p1 f1 0 - 0.1 / T) (0.01 / T))
      by apply Rmax_r.
    assert (0 <= INR p2 * (0.1 / T / 100)).
    { apply Rmult_le_pos; [apply pos_INR|lra]. }
    lra.
  - intros Hzero. apply nth_all_zero. apply Hz2. exact Hzero.
Qed.

(** ** A signal of zeros *)



















Lemma sum_sines_length times f_n a_n ph_n :
  length (sum_sines times f_n a_n ph_n) = length times.
Proof.
  unfold sum_sines.
  assert (H : forall l model,
             length model = length times ->
             length (fold_left
                       (fun model_sines '(f, (a, ph)) =>
                          Np.map2
                            (fun m t => m + a * sin (2 * PI * f * t + ph))
                            model_sines times) l model) = length times).
  { induction l as [|[f [a ph]] l IH]; intros model Hm; simpl; auto.
    apply IH. rewrite map2_length, Hm. apply Nat.min_id. }
  apply H. unfold Np.zeros. apply repeat_length.
Qed.





(** ** The harmonic-avoiding extractor *)




(** ** Wrapped phases *)

Lemma pymod_range (x m : R) : 0 < m -> 0 <= Np.pymod x m < m.
Proof.
  intros Hm. unfold Np.pymod.
  destruct (base_Int_part (x / m)) as [H1 H2].
  assert (Hx : x = m * (x / m)) by (field; lra).
  set (q := IZR (Int_part (x / m))) in *.
  split; [nra|]. rewrite Hx at 1. nra.
Qed.

Lemma wrap_phase_range (ph : R) : wrapped (wrap_phase ph).
Proof.
  unfold wrapped, wrap_phase.
  pose proof PI_RGT_0 as Hpi.
  destruct (pymod_range (ph + PI) (2 * PI)) as [H1 H2]; lra.
Qed.

Lemma wrapped_zero : wrapped 0.
Proof. unfold wrapped. pose proof PI_RGT_0. lra. Qed.

Tactic Notation "bind_inv" hyp(H) "as" simple_intropattern(p) ident(E) :=
  apply bind_Done_inv in H; destruct H as [p [E H]].

Lemma extract_single_wrapped times signal f0 fn f a ph :
  extract_single times signal f0 fn = Done (f, a, ph) -> wrapped ph.
Proof.
  unfold extract_single. intros H.
  bind_inv H as [freqs ampls] E1. bind_inv H as p1 E2.
  bind_inv H as [f1 a1] E3. bind_inv H as p2 E4.
  injection H as _ _ <-. apply wrap_phase_range.
Qed.

Lemma extract_single_harmonics_wrapped times signal p_orb f0 fn f a ph :
  extract_single_harmonics times signal p_orb f0 fn = Done (f, a, ph) ->
  wrapped ph.
Proof.
  unfold extract_single_harmonics. intros H.
  bind_inv H as [freqs ampls] E1.
  destruct (_ =? 0)%nat.
  - injection H as _ _ <-. apply wrapped_zero.
  - bind_inv H as p1 E2. bind_inv H as [f1 a1] E3. bind_inv H as p2 E4.
    bind_inv H as [f2 a2] E5. bind_inv H as p3 E6.
    injection H as _ _ <-. apply wrap_phase_range.
Qed.

Lemma Forall_set_nth (A : Type) (P : A -> Prop) (j : nat) (v : A) (xs : list A) :
  P v -> Forall P xs -> Forall P (Np.set_nth j v xs).
Proof.
  intros Hv H. revert j. induction H as [|x xs Hx Hxs IH]; intros [|j]; simpl;
    try constructor; auto.
Qed.

Lemma Forall_delete_from (A : Type) (P : A -> Prop) (idx : list nat) (xs : list A) :
  Forall P xs -> forall k, Forall P (Np.delete_from k xs idx).
Proof.
  induction 1 as [|x xs Hx _ IH]; intros k; simpl; [constructor|].
  destruct (Np.mem k idx); [apply IH|constructor; auto].
Qed.

Lemma refine_one_wrapped times signal const slope i_sectors freq_res temp j
  temp' :
  refine_one times signal const slope i_sectors freq_res temp j = Done temp' ->
  phases_wrapped temp -> phases_wrapped temp'.
Proof.
  unfold refine_one. destruct temp as [[f a] ph]. intros H Hw.
  bind_inv H as [[f_j a_j] ph_j] E. injection H as <-.
  unfold phases_wrapped in *. cbn [snd] in *.
  apply Forall_set_nth; [|exact Hw].
  eapply extract_single_wrapped; eauto.
Qed.

Lemma refine_fold_wrapped times signal const slope i_sectors freq_res close_f :
  forall temp temp',
    foldM (refine_one times signal const slope i_sectors freq_res) close_f temp
    = Done temp' ->
    phases_wrapped temp -> phases_wrapped temp'.
Proof.
  induction close_f as [|j js IH]; cbn [foldM]; intros temp temp' H Hw.
  - injection H as <-. exact Hw.
  - bind_inv H as t1 E. eapply IH; [exact H|].
    eapply refine_one_wrapped; eauto.
Qed.

Lemma refine_loop_wrapped times signal signal_err close_f i_sectors freq_res
  n_param :
  forall fuel st st',
    refine_loop fuel times signal signal_err close_f i_sectors freq_res
                n_param st = Done st' ->
    phases_wrapped (rs_accepted st) -> phases_wrapped (rs_temp st) ->
    phases_wrapped (rs_accepted st').
Proof.
  induction fuel as [|fuel IH]; cbn [refine_loop]; intros st st' H Ha Ht;
    [discriminate|].
  destruct (exceeds _ 0).
  - bind_inv H as [[f a] ph] E. cbn beta iota in H. split_pars.
    apply IH in H; auto. cbn [rs_temp].
    eapply refine_fold_wrapped; eauto.
  - injection H as <-. exact Ha.
Qed.

Lemma refine_subset_wrapped fuel times signal signal_err close_f const slope s
  i_sectors const' slope' s' :
  refine_subset fuel times signal signal_err close_f const slope s i_sectors
  = Done (const', slope', s') ->
  phases_wrapped s -> phases_wrapped s'.
Proof.
  unfold refine_subset. destruct s as [[f a] ph]. intros H Hw.
  bind_inv H as st E. apply refine_loop_wrapped in E; auto.
  destruct (rs_accepted st) as [[f' a'] ph']. cbn beta iota in H. split_pars.
  injection H as <- <- <-. exact E.
Qed.

Lemma extract_all_body_wrapped fuel times signal signal_err i_sectors freq_res
  st st' :
  extract_all_body fuel times signal signal_err i_sectors freq_res st
  = Done st' ->
  phases_wrapped (es_temp st) -> phases_wrapped (es_temp st').
Proof.
  unfold extract_all_body. destruct (es_temp st) as [[f a] ph].
  intros H Hw. bind_inv H as [[f_i a_i] ph_i] E.
  bind_inv H as [[c sl] temp] E0.
  assert (Ht : phases_wrapped temp).
  { assert (Hw' : phases_wrapped (f ++ [f_i], a ++ [a_i], ph ++ [ph_i])).
    { unfold phases_wrapped in *. cbn [snd] in *.
      apply Forall_app. split; [exact Hw|].
      constructor; [|constructor]. eapply extract_single_wrapped; eauto. }
    destruct (_ && _).
    - eapply refine_subset_wrapped; eauto.
    - injection E0 as _ _ <-. exact Hw'. }
  destruct temp as [[ft att] pht]. cbn beta iota in H. split_pars.
  injection H as <-. exact Ht.
Qed.

Lemma run_wrapped times signal signal_err i_sectors freq_res st0 hist st :
  run times signal signal_err i_sectors freq_res st0 hist st ->
  phases_wrapped (es_accepted st0) -> phases_wrapped (es_temp st0) ->
  phases_wrapped (es_accepted st) /\ phases_wrapped (es_temp st).
Proof.
  induction 1 as [|hist st st' fuel Hrun IH Ht Hb]; intros Ha Hw; auto.
  destruct (IH Ha Hw) as [_ Hw'].
  destruct (extract_all_body_facts _ _ _ _ _ _ _ _ Hb) as [Hacc _].
  rewrite Hacc. split; [exact Hw'|].
  eapply extract_all_body_wrapped; eauto.
Qed.

Lemma extract_all_wrapped fuel times signal signal_err i_sectors r :
  extract_all fuel times signal signal_err i_sectors = Done r ->
  phases_wrapped (snd r).
Proof.
  intros H.
  destruct (extract_all_run _ _ _ _ _ _ H)
    as [s [b [rest [st [Hrun [_ [_ Hr]]]]]]].
  apply run_wrapped in Hrun.
  - destruct Hrun as [Ha _]. rewrite Hr. unfold extract_all_result.
    destruct (es_accepted st) as [[f a] ph]. split_pars. exact Ha.
  - unfold extract_all_init. split_pars. constructor.
  - unfold extract_all_init. split_pars. constructor.
Qed.

Lemma foldM_invariant {A S : Type} (P : S -> Prop) (step : S -> A -> outcome S)
  (xs : list A) :
  (forall s x s', In x xs -> P s -> step s x = Done s' -> P s') ->
  forall s s', P s -> foldM step xs s = Done s' -> P s'.
Proof.
  induction xs as [|x xs IH]; intros Hstep s s' Hs H; cbn [foldM] in H.
  - injection H as <-. exact Hs.
  - bind_inv H as s1 E. apply (IH (fun s x s' Hin => Hstep s x s' (or_intror Hin)) s1 s'); auto.
    eapply Hstep; eauto. left; reflexivity.
Qed.

Lemma sweeps_invariant {S : Type} (P : S -> Prop) (sweep : S -> outcome S)
  (size : S -> nat) :
  (forall st st', P st -> sweep st = Done st' -> P st') ->
  forall fuel n st st',
    P st -> sweeps fuel sweep size n st = Done st' -> P st'.
Proof.
  intros Hsweep. induction fuel as [|fuel IH]; intros n st st' Hst H;
    cbn [sweeps] in H; [discriminate|].
  destruct (_ <? _)%Z.
  - bind_inv H as st1 E. eapply IH; [|exact H]. eapply Hsweep; eauto.
  - injection H as <-. exact Hst.
Qed.

Lemma fold_left_invariant {A S : Type} (P : S -> Prop) (step : S -> A -> S)
  (xs : list A) :
  (forall s x, In x xs -> P s -> P (step s x)) ->
  forall s, P s -> P (fold_left step xs s).
Proof.
  induction xs as [|x xs IH]; intros Hstep s Hs; simpl; auto.
  apply IH; [intros; apply Hstep; simpl; auto|].
  apply Hstep; simpl; auto.
Qed.

Lemma delete_sines_wrapped s remove :
  phases_wrapped s -> phases_wrapped (delete_sines s remove).
Proof.
  destruct s as [[f a] ph]. unfold phases_wrapped, delete_sines. cbn [snd].
  intros H. apply Forall_delete_from. exact H.
Qed.

Lemma append_sines_wrapped s new :
  phases_wrapped s -> phases_wrapped new -> phases_wrapped (append_sines s new).
Proof.
  destruct s as [[f a] ph], new as [[f' a'] ph'].
  unfold phases_wrapped, append_sines. cbn [snd]. intros H H'.
  apply Forall_app; auto.
Qed.

Lemma lock_harmonic_wrapped times signal p_orb f_tolerance i_sectors m n :
  phases_wrapped (snd m) ->
  phases_wrapped
    (snd (lock_harmonic times signal p_orb f_tolerance i_sectors m n)).
Proof.
  destruct m as [[c sl] s]. cbn [snd]. intros Hw. unfold lock_harmonic.
  assert (Hd : phases_wrapped (lock_removed p_orb f_tolerance s n)).
  { unfold lock_removed. destruct s as [[f a] ph].
    destruct (find_harmonics_tolerance f p_orb f_tolerance) as [h hn].
    apply (delete_sines_wrapped (f, a, ph)). exact Hw. }
  destruct (lock_removed p_orb f_tolerance s n) as [[f a] ph].
  unfold locked_entry. split_pars. cbn [snd].
  unfold phases_wrapped in *. cbn [snd] in *.
  apply Forall_app. split; [exact Hd|].
  constructor; [apply wrap_phase_range|constructor].
Qed.

Lemma reextract_wrapped times signal freq_res i_sectors m i m' :
  reextract times signal freq_res i_sectors m i = Done m' ->
  phases_wrapped (snd m) -> phases_wrapped (snd m').
Proof.
  unfold reextract. destruct m as [[c sl] [[f a] ph]]. intros H Hw.
  bind_inv H as [[f_i a_i] ph_i] E. cbn beta iota in H. split_pars.
  injection H as <-. unfold phases_wrapped in *. cbn [snd] in *.
  apply Forall_set_nth; [apply wrap_phase_range|exact Hw].
Qed.

Lemma fix_harmonic_frequency_wrapped times signal p_orb const slope s
  i_sectors r :
  fix_harmonic_frequency times signal p_orb const slope s i_sectors = Done r ->
  phases_wrapped s -> phases_wrapped (snd r).
Proof.
  unfold fix_harmonic_frequency. intros H Hw.
  destruct (find_harmonics_tolerance _ _ _) as [h hn].
  destruct (_ =? 0)%nat; [discriminate|].
  destruct (find_harmonics_from_pattern _ _) as [h' hn'].
  revert H.
  apply (foldM_invariant (fun m => phases_wrapped (snd m))).
  - intros m i m' _ Hm Hs. eapply reextract_wrapped; eauto.
  - unfold locked_model.
    destruct (find_harmonics_tolerance _ _ _) as [h2 hn2].
    apply (fold_left_invariant (fun m => phases_wrapped (snd m))).
    + intros m n _ Hm. apply lock_harmonic_wrapped. exact Hm.
    + exact Hw.
Qed.

Lemma try_merge_wrapped times signal signal_err i_sectors s f_sets replacement
  n_param_of st iset st' :
  (forall resid set_i new,
      replacement resid set_i = Done new -> phases_wrapped new) ->
  try_merge times signal signal_err i_sectors s f_sets replacement n_param_of
            st iset = Done st' ->
  phases_wrapped (ms_new st) -> phases_wrapped (ms_new st').
Proof.
  intros Hrep H Hw. unfold try_merge in H. destruct iset as [i set_i].
  destruct (Np.mem i _); [injection H as <-; exact Hw|].
  destruct (append_sines _ _) as [[ft att] pht]. cbn beta iota in H.
  split_pars. bind_inv H as new E.
  destruct (Rltb 0 _); injection H as <-; [|exact Hw].
  cbn [ms_new]. apply append_sines_wrapped; eauto.
Qed.

Lemma merge_pass_wrapped times signal signal_err i_sectors s f_sets replacement
  n_param_of bic_prev st :
  (forall resid set_i new,
      replacement resid set_i = Done new -> phases_wrapped new) ->
  merge_pass times signal signal_err i_sectors s f_sets replacement n_param_of
             bic_prev = Done st ->
  phases_wrapped s -> phases_wrapped (merged s f_sets st).
Proof.
  intros Hrep H Hw. unfold merge_pass in H.
  apply (sweeps_invariant (fun st => phases_wrapped (ms_new st))) in H.
  - unfold merged. apply append_sines_wrapped; [|exact H].
    apply delete_sines_wrapped. exact Hw.
  - intros st1 st2 H1.
    apply (foldM_invariant (fun st => phases_wrapped (ms_new st)));
      [|exact H1].
    intros st3 iset st4 _ H3 H4. eapply try_merge_wrapped; eauto.
  - constructor.
Qed.

Lemma reduce_frequencies_wrapped times signal signal_err const slope s
  i_sectors r :
  reduce_frequencies times signal signal_err const slope s i_sectors = Done r ->
  phases_wrapped s -> phases_wrapped (snd r).
Proof.
  unfold reduce_frequencies. intros H Hw.
  bind_inv H as [remove_single bic_prev] E1.
  bind_inv H as st E2.
  apply merge_pass_wrapped in E2.
  - destruct (merged _ _ st) as [[f' a'] ph']. cbn beta iota in H.
    split_pars. injection H as <-. exact E2.
  - intros resid set_i new Hn. unfold replace_by_extraction in Hn.
    bind_inv Hn as [[f_i a_i] ph_i] E. injection Hn as <-.
    constructor; [|constructor]. eapply extract_single_wrapped; eauto.
  - apply delete_sines_wrapped. exact Hw.
Qed.

Lemma try_harmonic_wrapped times signal signal_err p_orb i_sectors n_param_orig
  st h_c :
  phases_wrapped (hs_sines st) ->
  phases_wrapped
    (hs_sines (try_harmonic times signal signal_err p_orb i_sectors
                            n_param_orig st h_c)).
Proof.
  intros Hw. unfold try_harmonic. destruct (hs_sines st) as [[f a] ph].
  repeat split_pars. destruct (Rltb 2 _); cbn [hs_sines]; [|exact Hw].
  unfold phases_wrapped in *. cbn [snd] in *.
  apply Forall_app. split; [exact Hw|].
  constructor; [apply wrap_phase_range|constructor].
Qed.

Lemma extract_additional_harmonics_wrapped times signal signal_err p_orb const
  slope s i_sectors r :
  extract_additional_harmonics times signal signal_err p_orb const slope s
                               i_sectors = Done r ->
  phases_wrapped s -> phases_wrapped (snd r).
Proof.
  unfold extract_additional_harmonics. destruct s as [[f a] ph].
  intros H Hw. destruct (find_harmonics_from_pattern f p_orb) as [h hn].
  destruct (_ =? 0)%nat; [discriminate|].
  bind_inv H as cand E. injection H as <-. cbn [snd].
  apply (fold_left_invariant (fun st => phases_wrapped (hs_sines st))).
  - intros st h_c _ Hst. apply try_harmonic_wrapped. exact Hst.
  - exact Hw.
Qed.

(** C5, as the code has it.  Every phase that [extract_single],
    [extract_single_harmonics], [refine_subset], [extract_all],
    [fix_harmonic_frequency], [extract_additional_harmonics] and
    [reduce_frequencies] return lies in the half-open interval
    [[-pi, pi)], the stages that are given a sinusoid set being given one
    whose phases lie in that interval. *)
Theorem emitted_phases_wrapped :
  (forall times signal f0 fn f a ph,
      extract_single times signal f0 fn = Done (f, a, ph) -> wrapped ph) /\
  (forall times signal p_orb f0 fn f a ph,
      extract_single_harmonics times signal p_orb f0 fn = Done (f, a, ph) ->
      wrapped ph) /\
  (forall fuel times signal signal_err close_f const slope s i_sectors r,
      refine_subset fuel times signal signal_err close_f const slope s
                    i_sectors = Done r ->
      phases_wrapped s -> phases_wrapped (snd r)) /\
  (forall fuel times signal signal_err i_sectors r,
      extract_all fuel times signal signal_err i_sectors = Done r ->
      phases_wrapped (snd r)) /\
  (forall times signal p_orb const slope s i_sectors r,
      fix_harmonic_frequency times signal p_orb const slope s i_sectors
      = Done r ->
      phases_wrapped s -> phases_wrapped (snd r)) /\
  (forall times signal signal_err p_orb const slope s i_sectors r,
      extract_additional_harmonics times signal signal_err p_orb const slope s
                                   i_sectors = Done r ->
      phases_wrapped s -> phases_wrapped (snd r)) /\
  (forall times signal signal_err const slope s i_sectors r,
      reduce_frequencies times signal signal_err const slope s i_sectors
      = Done r ->
      phases_wrapped s -> phases_wrapped (snd r)).
Proof.
  split; [exact extract_single_wrapped|].
  split; [exact extract_single_harmonics_wrapped|].
  split.
  { intros fuel times signal signal_err close_f const slope s i_sectors
           [[c sl] s'] H. eapply refine_subset_wrapped; eauto. }
  split; [exact extract_all_wrapped|].
  split; [exact fix_harmonic_frequency_wrapped|].
  split; [exact extract_additional_harmonics_wrapped|].
  exact reduce_frequencies_wrapped.
Qed.

(** ** The reduction passes and the BIC *)









(** ** Harmonics survive the reduction *)

Lemma mem_In (i : nat) (idx : list nat) : Np.mem i idx = true <-> In i idx.
Proof.
  unfold Np.mem. rewrite existsb_exists. split.
  - intros [x [Hx He]]. apply Nat.eqb_eq in He. subst. exact Hx.
  - intros H. exists i. split; [exact H|apply Nat.eqb_refl].
Qed.

Lemma mem_not_In (i : nat) (idx : list nat) :
  Np.mem i idx = false <-> ~ In i idx.
Proof.
  rewrite <- mem_In. destruct (Np.mem i idx); split; intros H; auto;
    try discriminate. exfalso. apply H. reflexivity.
Qed.


















(** ** The locked harmonics *)
























(** ** The reduction passes need no more fuel *)

(** The outer loop of a pass goes on while the list of removals grows, and
    the list holds each candidate once at most: [len(candidates) + 1] sweeps
    are the most it makes. *)
Lemma bind_no_fuel (A B : Type) (m : outcome A) (k : A -> outcome B) :
  m <> OutOfFuel -> (forall a, m = Done a -> k a <> OutOfFuel) ->
  bind m k <> OutOfFuel.
Proof.
  destruct m as [a|e|]; cbn [bind]; intros Hm Hk.
  - apply Hk. reflexivity.
  - discriminate.
  - contradiction.
Qed.

Lemma foldM_no_fuel (A S : Type) (step : S -> A -> outcome S) (xs : list A) :
  (forall s x, In x xs -> step s x <> OutOfFuel) ->
  forall s, foldM step xs s <> OutOfFuel.
Proof.
  induction xs as [|x xs IH]; intros Hstep s; cbn [foldM]; [discriminate|].
  apply bind_no_fuel.
  - apply Hstep. left. reflexivity.
  - intros s' _. apply IH. intros s0 x0 Hin. apply Hstep. right. exact Hin.
Qed.

Lemma sweeps_no_fuel (S : Type) (P : S -> Prop) (sweep : S -> outcome S)
  (size : S -> nat) (bound : nat) :
  (forall st, P st -> sweep st <> OutOfFuel) ->
  (forall st st', P st -> sweep st = Done st' -> P st') ->
  (forall st, P st -> (size st <= bound)%nat) ->
  forall fuel n st,
    P st -> (0 < fuel)%nat -> (Z.of_nat bound - n < Z.of_nat fuel)%Z ->
    sweeps fuel sweep size n st <> OutOfFuel.
Proof.
  intros Hfuel Hkeep Hbound.
  induction fuel as [|fuel IH]; intros n st Hst Hpos Hn; [lia|].
  cbn [sweeps]. destruct (n <? Z.of_nat (size st))%Z eqn:E; [|discriminate].
  apply Z.ltb_lt in E. pose proof (Hbound st Hst) as Hb.
  apply bind_no_fuel; [apply Hfuel; exact Hst|].
  intros st' Hs. apply IH; [exact (Hkeep st st' Hst Hs)|lia|lia].
Qed.

Lemma NoDup_snoc (A : Type) (l : list A) (x : A) :
  NoDup l -> ~ In x l -> NoDup (l ++ [x]).
Proof.
  induction 1 as [|y l Hy Hl IH]; intros Hx; simpl.
  - constructor; [intros []|constructor].
  - constructor.
    + intros Hin. apply in_app_or in Hin. destruct Hin as [Hin|[<-|[]]].
      * exact (Hy Hin).
      * apply Hx. left. reflexivity.
    + apply IH. intros Hin. apply Hx. right. exact Hin.
Qed.

(** The single-removal pass returns. *)
Lemma removal_pass_returns times signal signal_err i_sectors s n_param_of
  candidates bic_init :
  exists st,
    removal_pass times signal signal_err i_sectors s n_param_of candidates
                 bic_init = Done st.
Proof.
  set (P := fun st : list nat * R => NoDup (fst st) /\ incl (fst st) candidates).
  assert (Hsweep : forall st, P st ->
            P (fold_left (try_remove times signal signal_err i_sectors s
                                     n_param_of) candidates st)).
  { intros st Hst. apply (fold_left_invariant P); [|exact Hst].
    intros [rs b] c Hc [Hnd Hin]. unfold try_remove.
    destruct (Np.mem c rs) eqn:Em; [split; assumption|].
    destruct (Rltb 0 _); [|split; assumption].
    cbn [fst] in *. apply mem_not_In in Em. split.
    - apply NoDup_snoc; assumption.
    - intros x Hx. apply in_app_or in Hx. destruct Hx as [Hx|[<-|[]]]; auto. }
  assert (H0 : P ([], bic_init)).
  { split; [constructor|intros x []]. }
  assert (Hnf : removal_pass times signal signal_err i_sectors s n_param_of
                             candidates bic_init <> OutOfFuel).
  { unfold removal_pass.
    apply (sweeps_no_fuel _ P _ _ (length candidates)); try assumption.
    - intros st _. discriminate.
    - intros st st' Hst E. injection E as <-. apply Hsweep. exact Hst.
    - intros st [Hnd Hin]. apply NoDup_incl_length; assumption.
    - lia.
    - lia. }
  destruct (removal_pass times signal signal_err i_sectors s n_param_of
                         candidates bic_init) as [st|e|] eqn:E.
  - exists st. reflexivity.
  - exfalso. unfold removal_pass in E. revert E.
    generalize (S (S (length candidates))) as fuel.
    generalize (@nil nat, bic_init) as st. generalize (-1)%Z as n.
    intros n st fuel. revert n st.
    induction fuel as [|fuel IH]; intros n st E; cbn [sweeps] in E;
      [discriminate|].
    destruct (_ <? _)%Z; [|discriminate]. cbn [bind] in E. exact (IH _ _ E).
  - contradiction.
Qed.

Lemma scargle_no_fuel times signal f0 fn df :
  scargle times signal f0 fn df <> OutOfFuel.
Proof.
  unfold scargle. destruct (scargle_grid times f0 fn df) as [[f0' df'] nf].
  destruct (nf <? 0)%Z; discriminate.
Qed.

Lemma argmax_no_fuel (xs : list R) : Np.argmax xs <> OutOfFuel.
Proof. destruct xs; discriminate. Qed.

Lemma extract_single_no_fuel times signal f0 fn :
  extract_single times signal f0 fn <> OutOfFuel.
Proof.
  unfold extract_single.
  apply bind_no_fuel; [apply scargle_no_fuel|]. intros [freqs ampls] _.
  apply bind_no_fuel; [apply argmax_no_fuel|]. intros p1 _.
  apply bind_no_fuel; [apply scargle_no_fuel|]. intros [f1 a1] _.
  apply bind_no_fuel; [apply argmax_no_fuel|]. intros p2 _. discriminate.
Qed.

Lemma insert_unique_head (n : Z) (xs : list Z) : In n (Np.insert_unique n xs).
Proof.
  induction xs as [|x xs IH]; simpl; [left; reflexivity|].
  destruct (n <? x)%Z; [left; reflexivity|].
  destruct (n =? x)%Z eqn:E; [apply Z.eqb_eq in E; left; congruence|].
  right. exact IH.
Qed.

Lemma insert_unique_keeps (n y : Z) (xs : list Z) :
  In y xs -> In y (Np.insert_unique n xs).
Proof.
  induction xs as [|x xs IH]; simpl; [contradiction|].
  intros Hy. destruct (n <? x)%Z; [right; exact Hy|].
  destruct (n =? x)%Z; [exact Hy|].
  destruct Hy as [<-|Hy]; [left; reflexivity|right; exact (IH Hy)].
Qed.

Lemma unique_idx_In (x : nat) (l : list nat) : In x l -> In x (Np.unique_idx l).
Proof.
  intros H. unfold Np.unique_idx.
  rewrite <- (Nat2Z.id x). apply in_map.
  assert (Hz : In (Z.of_nat x) (map Z.of_nat l)) by (apply in_map; exact H).
  revert Hz. generalize (map Z.of_nat l) as zs. generalize (Z.of_nat x) as z.
  intros z zs. unfold Np.unique.
  induction zs as [|a zs IH]; simpl; [contradiction|].
  intros [<-|Hz]; [apply insert_unique_head|].
  apply insert_unique_keeps. exact (IH Hz).
Qed.

(** A cluster-merge pass does not run out of fuel: it returns, or the
    extraction of a replacement raises. *)
Lemma merge_pass_no_fuel times signal signal_err i_sectors s f_sets
  replacement n_param_of bic_prev :
  (forall set_i, In set_i f_sets -> set_i <> []) ->
  (forall resid set_i, replacement resid set_i <> OutOfFuel) ->
  merge_pass times signal signal_err i_sectors s f_sets replacement n_param_of
             bic_prev <> OutOfFuel.
Proof.
  intros Hne Hrep. unfold merge_pass.
  set (P := fun st : merge_state =>
              NoDup (ms_remove_sets st) /\
              incl (ms_remove_sets st) (Np.arange (length f_sets)) /\
              incl (ms_remove_sets st) (ms_used_sets st)).
  assert (Hstep : forall st iset st',
             In iset (combine (Np.arange (length f_sets)) f_sets) ->
             P st ->
             try_merge times signal signal_err i_sectors s f_sets replacement
                       n_param_of st iset = Done st' ->
             P st').
  { intros st [i set_i] st' Hin [Hnd [Hr Hu]] H. unfold try_merge in H.
    destruct (Np.mem i (ms_used_sets st)) eqn:Em;
      [injection H as <-; repeat split; assumption|].
    destruct (append_sines _ _) as [[ft att] pht]. cbn beta iota in H.
    split_pars. bind_inv H as new E.
    destruct (Rltb 0 _); injection H as <-;
      [|repeat split; assumption].
    apply mem_not_In in Em. cbn [ms_remove_sets ms_used_sets].
    split; [|split].
    - apply NoDup_snoc; [exact Hnd|]. intros Hi. apply Em, Hu, Hi.
    - intros x Hx. apply in_app_or in Hx. destruct Hx as [Hx|[<-|[]]].
      + apply Hr, Hx.
      + apply in_combine_l in Hin. exact Hin.
    - intros x Hx. apply unique_idx_In, in_or_app.
      apply in_app_or in Hx. destruct Hx as [Hx|[<-|[]]].
      + left. apply Hu, Hx.
      + right. unfold overlapping. apply in_map_iff.
        exists (i, set_i). split; [reflexivity|].
        apply filter_In. split; [exact Hin|]. cbn [snd].
        pose proof (Hne set_i (in_combine_r _ _ _ _ Hin)) as Hs.
        destruct set_i as [|j0 rest]; [contradiction|].
        cbn [existsb]. assert (Hm : Np.mem j0 (j0 :: rest) = true)
          by (apply mem_In; left; reflexivity).
        rewrite Hm. reflexivity. }
  apply (sweeps_no_fuel _ P _ _ (length f_sets)).
  - intros st _. apply foldM_no_fuel. intros st0 [i set_i] _.
    unfold try_merge. destruct (Np.mem i (ms_used_sets st0)); [discriminate|].
    destruct (append_sines _ _) as [[ft att] pht]. cbn beta iota.
    split_pars. apply bind_no_fuel; [apply Hrep|].
    intros new _. destruct (Rltb 0 _); discriminate.
  - intros st st' Hst H.
    apply (foldM_invariant P _ _ (fun s0 x s1 Hin Hs0 Hs1 =>
                                    Hstep s0 x s1 Hin Hs0 Hs1) st st' Hst H).
  - intros st [Hnd [Hr _]].
    replace (length f_sets) with (length (Np.arange (length f_sets)))
      by (unfold Np.arange; apply length_seq).
    apply NoDup_incl_length; assumption.
  - split; [constructor|]. split; intros x [].
  - lia.
  - lia.
Qed.

Lemma sub_ranges_nonempty (g set_i : list nat) :
  In set_i (sub_ranges g) -> set_i <> [].
Proof.
  unfold sub_ranges. intros H. apply in_flat_map in H.
  destruct H as [p1 [Hp1 H]]. apply in_map_iff in H.
  destruct H as [p2 [<- Hp2]]. apply in_seq in Hp1. apply in_seq in Hp2.
  intros Hnil. apply (f_equal (@length nat)) in Hnil.
  unfold Np.slice in Hnil. rewrite length_firstn, length_skipn in Hnil.
  cbn [length] in Hnil. lia.
Qed.

(** [reduce_frequencies] returns or raises: its loops end. *)
Lemma reduce_frequencies_no_fuel times signal signal_err const slope s
  i_sectors :
  reduce_frequencies times signal signal_err const slope s i_sectors
  <> OutOfFuel.
Proof.
  unfold reduce_frequencies.
  destruct (removal_pass_returns times signal signal_err i_sectors s
              (fun len => (2 * zlen i_sectors + 3 * len)%Z)
              (Np.arange (nsines s))
              (input_bic times signal signal_err const slope s i_sectors
                         (2 * zlen i_sectors + 3 * Z.of_nat (nsines s))%Z))
    as [[remove_single bic_prev] E].
  rewrite E. cbn [bind].
  apply bind_no_fuel.
  - apply merge_pass_no_fuel.
    + intros set_i H. unfold close_sets in H. apply in_flat_map in H.
      destruct H as [g [_ H]]. exact (sub_ranges_nonempty g set_i H).
    + intros resid set_i. unfold replace_by_extraction.
      apply bind_no_fuel; [apply extract_single_no_fuel|].
      intros [[f_i a_i] ph_i] _. discriminate.
  - intros st _. destruct (merged _ _ st) as [[f_n a_n] ph_n].
    cbn beta iota. split_pars. discriminate.
Qed.

(** So does [reduce_frequencies_harmonics]. *)
Lemma reduce_frequencies_harmonics_no_fuel times signal signal_err p_orb const
  slope s i_sectors :
  reduce_frequencies_harmonics times signal signal_err p_orb const slope s
                               i_sectors <> OutOfFuel.
Proof.
  unfold reduce_frequencies_harmonics.
  apply bind_no_fuel.
  - unfold rfh_removal.
    destruct (find_harmonics_from_pattern (fst (fst s)) p_orb)
      as [harmonics harmonic_n].
    match goal with
    | |- bind (removal_pass ?t ?sg ?e ?i ?s0 ?f ?c ?b) _ <> _ =>
        destruct (removal_pass_returns t sg e i s0 f c b) as [[rs b1] E];
        rewrite E
    end.
    discriminate.
  - intros [s1 b1] _. apply bind_no_fuel.
    + unfold rfh_merge. apply bind_no_fuel; [|discriminate].
      apply merge_pass_no_fuel.
      * intros set_i H. unfold non_harmonic_sets in H.
        destruct (find_harmonics_from_pattern (fst (fst s1)) p_orb)
          as [harmonics harmonic_n].
        apply in_flat_map in H. destruct H as [g [_ H]].
        exact (sub_ranges_nonempty g set_i H).
      * intros resid set_i. unfold replace_by_extraction.
        apply bind_no_fuel; [apply extract_single_no_fuel|].
        intros [[f_i a_i] ph_i] _. discriminate.
    + intros [s2 b2] _. apply bind_no_fuel.
      * unfold rfh_absorb. apply bind_no_fuel; [|discriminate].
        apply merge_pass_no_fuel.
        -- intros set_i H. unfold harmonic_sets in H.
           destruct (find_harmonics_from_pattern (fst (fst s2)) p_orb)
             as [harmonics harmonic_n].
           apply filter_In in H. destruct H as [H _].
           apply in_flat_map in H. destruct H as [g [_ H]].
           exact (sub_ranges_nonempty g set_i H).
        -- intros resid set_i. discriminate.
      * intros [[f3 a3] ph3] _. cbn beta iota. split_pars. discriminate.
Qed.

(** ** The errors of the harmonic stages *)

Lemma norm_indices_out_of_bounds (len : nat) (idx : list Z) (k : Z) :
  In k idx -> Np.norm_index len k = None -> Np.norm_indices len idx = None.
Proof.
  induction idx as [|k' idx IH]; intros Hin Hk; [contradiction|].
  cbn [Np.norm_indices]. destruct Hin as [->|Hin].
  - rewrite Hk. reflexivity.
  - rewrite (IH Hin Hk). destruct (Np.norm_index len k'); reflexivity.
Qed.

Lemma norm_index_beyond (len : nat) (k : Z) :
  (Z.of_nat len <= k)%Z -> Np.norm_index len k = None.
Proof.
  intros H. unfold Np.norm_index.
  destruct (0 <=? k)%Z eqn:E1; destruct (k <? Z.of_nat len)%Z eqn:E2;
    destruct (- Z.of_nat len <=? k)%Z eqn:E3; destruct (k <? 0)%Z eqn:E4;
    cbn [andb]; try reflexivity; lia.
Qed.

(** C7. [extract_additional_harmonics] raises although harmonics are
    matched: when the matcher reports a harmonic number [n] that is not
    below [p_orb * f_max], with [f_max] the Nyquist frequency, position
    [n - 1] is outside the array of candidates [1 .. ceil(p_orb * f_max) - 1]
    and deleting it raises [IndexError].  So an error does not mean that no
    harmonic was matched. *)
Theorem extract_additional_harmonics_raises_on_match times signal signal_err
  p_orb const slope (s : sines) i_sectors harmonics harmonic_n n :
  find_harmonics_from_pattern (fst (fst s)) p_orb = (harmonics, harmonic_n) ->
  harmonics <> [] ->
  In n harmonic_n ->
  (zlen (Np.arange_from_1
           (p_orb * (1 / (2 * Np.amin (Np.diff times))))) <= n - 1)%Z ->
  extract_additional_harmonics times signal signal_err p_orb const slope s
                               i_sectors = Raised IndexError.
Proof.
  intros Hm Hne Hn Hout. unfold extract_additional_harmonics.
  destruct s as [[f_n a_n] ph_n]. cbn [fst] in Hm. rewrite Hm.
  destruct harmonics as [|h hs]; [contradiction|]. cbn [length Nat.eqb].
  unfold Np.delete_checked.
  rewrite (norm_indices_out_of_bounds _ _ (n - 1)%Z).
  - reflexivity.
  - apply in_map_iff. exists n. split; [reflexivity|exact Hn].
  - apply norm_index_beyond. exact Hout.
Qed.

(** * Further properties of the numerical routines and of the stages *)

(** ** Folding over a period *)

(** X1.  For a period that is not zero, every phase [fold_time_series]
    returns lies in the half-open interval [[-0.5, 0.5)], whatever the
    reference time. *)
Theorem fold_time_series_range times p_orb zero :
  p_orb <> 0 ->
  Forall (fun ph => - 0.5 <= ph < 0.5) (fold_time_series times p_orb zero).
Proof.
  intros _. unfold fold_time_series. apply Forall_forall. intros ph H.
  apply in_map_iff in H. destruct H as [t [<- _]].
  match goal with |- context [Np.pymod ?x 1] =>
    pose proof (pymod_range x 1 ltac:(lra)) as Hr end.
  lra.
Qed.

Lemma Int_part_plus_IZR (x : R) (k : Z) :
  Int_part (x + IZR k) = (Int_part x + k)%Z.
Proof.
  symmetry. apply Int_part_spec. rewrite plus_IZR.
  destruct (base_Int_part x) as [H1 H2]. lra.
Qed.

Lemma pymod_plus_IZR (x : R) (k : Z) : Np.pymod (x + IZR k) 1 = Np.pymod x 1.
Proof.
  unfold Np.pymod. replace ((x + IZR k) / 1) with (x / 1 + IZR k) by field.
  rewrite Int_part_plus_IZR, plus_IZR. lra.
Qed.

(** X2.  Folding is periodic: with the reference time given, shifting
    every time stamp by a whole number of periods leaves every phase as it
    is. *)
Theorem fold_time_series_periodic times p_orb zero (k : Z) :
  p_orb <> 0 ->
  fold_time_series (map (fun t => t + IZR k * p_orb) times) p_orb (Some zero)
  = fold_time_series times p_orb (Some zero).
Proof.
  intros Hp. unfold fold_time_series. rewrite map_map.
  apply map_ext. intros t.
  replace ((t + IZR k * p_orb - zero) / p_orb + 0.5)
    with ((t - zero) / p_orb + 0.5 + IZR k) by (field; exact Hp).
  rewrite pymod_plus_IZR. reflexivity.
Qed.

(** The reference time has phase zero; it is the first time stamp when no
    reference is given. *)
Lemma fold_time_series_first t times p_orb :
  fold_time_series (t :: times) p_orb None
  = 0 :: tl (fold_time_series (t :: times) p_orb (Some t)).
Proof.
  unfold fold_time_series. cbn [hd map tl]. f_equal.
  unfold Np.pymod.
  replace ((t - t) / p_orb + 0.5) with 0.5 by (unfold Rdiv; ring).
  replace (0.5 / 1) with 0.5 by field.
  replace (Int_part 0.5) with 0%Z by (apply Int_part_spec; lra).
  lra.
Qed.

(** ** Likelihood and BIC *)

(** X3.  On residuals that are not empty, [calc_bic] is
    [-2 * calc_likelihood + n_param * ln n]: the two functions agree on the
    likelihood. *)
Theorem calc_bic_likelihood (residuals : list R) (n_param : Z) :
  residuals <> [] ->
  calc_bic residuals n_param
  = - 2 * calc_likelihood residuals
    + IZR n_param * ln (INR (length residuals)).
Proof.
  intros _. unfold calc_bic, calc_likelihood. field.
Qed.

(** ** Curves through given points *)


(** X4.  The line of [linear_pars_two_points] passes through both
    points, their abscissae being different. *)
Theorem linear_pars_two_points_through (x1 y1 x2 y2 : R) :
  x1 <> x2 ->
  linear_curve [x1; x2]
               [fst (linear_pars_two_points x1 y1 x2 y2)]
               [snd (linear_pars_two_points x1 y1 x2 y2)] [(0, 2)%nat]
  = [y1; y2].
Proof.
  intros H. unfold linear_pars_two_points, linear_curve.
  cbn [fst snd combine fold_left length Np.zeros repeat assign_slice
       Nat.leb Nat.ltb andb].
  f_equal; [|f_equal]; field; lra.
Qed.

(** X5.  The parabola of [quadratic_pars_two_points] takes the value
    [y1] at [x1], where its slope is zero, and the value zero at [x2]: the
    ordinate [y2] of the second point plays no part. *)
Theorem quadratic_pars_two_points_top (x1 y1 x2 y2 : R) :
  x1 <> x2 ->
  let '(a, b, c) := quadratic_pars_two_points x1 y1 x2 y2 in
  quadratic_curve [x1; x2] a b c = [y1; 0] /\ 2 * a * x1 + b = 0.
Proof.
  intros H. unfold quadratic_pars_two_points, quadratic_curve. cbn [map].
  assert (Hd : x1 - x2 <> 0) by lra.
  split; [f_equal; [|f_equal]|]; field; exact Hd.
Qed.

(** X6.  The cubic of [cubic_pars_from_quadratic] is zero at [x1] and
    its derivative at every point is the quadratic it was made from. *)
Theorem cubic_pars_from_quadratic_integral (x1 a_q b_q c_q : R) :
  let '(a, b, c, d) := cubic_pars_from_quadratic x1 a_q b_q c_q in
  cubic_curve [x1] a b c d = [0] /\
  forall x,
    derivable_pt_lim (fun t => hd 0 (cubic_curve [t] a b c d)) x
                     (hd 0 (quadratic_curve [x] a_q b_q c_q)).
Proof.
  unfold cubic_pars_from_quadratic, cubic_curve, quadratic_curve.
  cbn [map hd]. split; [f_equal; field|].
  intros x.
  apply (derivable_pt_lim_ext
           (fun t => (a_q / 3 * t ^ 3 + b_q / 2 * t ^ 2 + c_q * id t
                      + fct_cte (- (a_q / 3 * x1 ^ 3 + b_q / 2 * x1 ^ 2
                                    + c_q * x1)) t)%R)).
  { intros t. reflexivity. }
  replace (a_q * x ^ 2 + b_q * x + c_q)
    with (a_q / 3 * (INR 3 * x ^ pred 3) + b_q / 2 * (INR 2 * x ^ pred 2)
          + c_q * 1 + 0) by (simpl; field).
  apply (derivable_pt_lim_plus
           (fun t => (a_q / 3 * t ^ 3 + b_q / 2 * t ^ 2 + c_q * id t)%R)).
  - apply (derivable_pt_lim_plus
             (fun t => (a_q / 3 * t ^ 3 + b_q / 2 * t ^ 2)%R)
             (fun t => (c_q * id t)%R)).
    + apply (derivable_pt_lim_plus (fun t => (a_q / 3 * t ^ 3)%R)
                                   (fun t => (b_q / 2 * t ^ 2)%R)).
      * apply (derivable_pt_lim_scal (fun t => t ^ 3)%R).
        apply derivable_pt_lim_pow.
      * apply (derivable_pt_lim_scal (fun t => t ^ 2)%R).
        apply derivable_pt_lim_pow.
    + apply (derivable_pt_lim_scal id). apply derivable_pt_lim_id.
  - apply derivable_pt_lim_const.
Qed.

(** ** Sums *)

Lemma sum_acc (l : list R) (a : R) : fold_left Rplus l a = a + Np.sum l.
Proof.
  unfold Np.sum. revert a. induction l as [|x l IH]; intros a; simpl.
  - lra.
  - rewrite (IH (a + x)), (IH (0 + x)). lra.
Qed.

Lemma sum_cons (x : R) (l : list R) : Np.sum (x :: l) = x + Np.sum l.
Proof. unfold Np.sum at 1. simpl. rewrite sum_acc. lra. Qed.

Lemma sum_nil : Np.sum [] = 0.
Proof. reflexivity. Qed.

Lemma sum_map_lin (A : Type) (f g : A -> R) (a b : R) (l : list A) :
  Np.sum (map (fun x => a * f x + b * g x) l)
  = a * Np.sum (map f l) + b * Np.sum (map g l).
Proof.
  induction l as [|x l IH]; cbn [map].
  - rewrite sum_nil. lra.
  - rewrite !sum_cons, IH. lra.
Qed.

Lemma sum_map_const (A : Type) (c : R) (l : list A) :
  Np.sum (map (fun _ => c) l) = c * INR (length l).
Proof.
  induction l as [|x l IH]; cbn [map length].
  - rewrite sum_nil. simpl. lra.
  - rewrite sum_cons, IH, S_INR. lra.
Qed.

Lemma sum_map_ext (A : Type) (f g : A -> R) (l : list A) :
  (forall x, f x = g x) -> Np.sum (map f l) = Np.sum (map g l).
Proof. intros H. rewrite (map_ext f g H). reflexivity. Qed.

Lemma sum_map_id (l : list R) : Np.sum (map (fun t => t) l) = Np.sum l.
Proof. rewrite map_id. reflexivity. Qed.

Lemma map2_maps (A B C D : Type) (h : B -> C -> D) (f : A -> B) (g : A -> C)
  (l : list A) :
  Np.map2 h (map f l) (map g l) = map (fun x => h (f x) (g x)) l.
Proof. induction l as [|x l IH]; simpl; [reflexivity|]. rewrite IH. reflexivity. Qed.

Lemma map2_combine (A B C : Type) (h : A -> B -> C) (xs : list A) (ys : list B) :
  Np.map2 h xs ys = map (fun p => h (fst p) (snd p)) (combine xs ys).
Proof.
  revert ys. induction xs as [|x xs IH]; intros [|y ys]; simpl; auto.
  rewrite IH. reflexivity.
Qed.

Lemma sum_squares_nonneg (A : Type) (f : A -> R) (l : list A) :
  0 <= Np.sum (map (fun x => f x ^ 2) l).
Proof.
  induction l as [|x l IH]; cbn [map].
  - rewrite sum_nil. lra.
  - rewrite sum_cons. pose proof (pow2_ge_0 (f x)). lra.
Qed.

Lemma slice_all (A : Type) (l : list A) : Np.slice 0 (length l) l = l.
Proof. unfold Np.slice. rewrite Nat.sub_0_r. cbn [skipn]. apply firstn_all. Qed.

Lemma assign_slice_all (co sl : R) (a b : nat) :
  forall times curve k,
    length curve = length times -> (a <= k)%nat ->
    (k + length times <= b)%nat ->
    assign_slice k (a, b) co sl times curve = map (fun t => co + sl * t) times.
Proof.
  induction times as [|t times IH]; intros [|c curve] k Hl Ha Hb;
    simpl in Hl; try discriminate; [reflexivity|].
  cbn [assign_slice map fst snd length] in *.
  assert (H1 : (a <=? k)%nat = true) by (apply Nat.leb_le; lia).
  assert (H2 : (k <? b)%nat = true) by (apply Nat.ltb_lt; lia).
  rewrite H1, H2. cbn [andb]. f_equal. apply IH; lia.
Qed.

Lemma linear_curve_one (times : list R) (co sl : R) :
  linear_curve times [co] [sl] [(0, length times)%nat]
  = map (fun t => co + sl * t) times.
Proof.
  unfold linear_curve. cbn [combine fold_left].
  apply assign_slice_all; [apply repeat_length|lia|lia].
Qed.

Lemma spread_nonempty (xs : list R) : spread xs <> 0 -> INR (length xs) <> 0.
Proof.
  intros H Hn. apply H. destruct xs as [|x xs]; [reflexivity|].
  change (length (x :: xs)) with (S (length xs)) in Hn.
  rewrite S_INR in Hn. pose proof (pos_INR (length xs)). lra.
Qed.

(** ** The linear trend *)

(** X7.  [linear_pars] recovers a straight line: fitted over one segment
    that spans the series to the curve [linear_curve] draws with the
    intercept [co] and the slope [sl], it returns [co] and [sl], the time
    stamps not being all equal. *)
Theorem linear_pars_of_linear_curve (times : list R) (co sl : R) :
  spread times <> 0 ->
  linear_pars times (linear_curve times [co] [sl] [(0, length times)%nat])
              [(0, length times)%nat]
  = ([co], [sl]).
Proof.
  intros Hs. pose proof (spread_nonempty times Hs) as Hn.
  rewrite linear_curve_one. unfold linear_pars, sector_pars.
  cbn [map fst snd].
  pose proof (slice_all _ (map (fun t => co + sl * t) times)) as Hsl.
  rewrite length_map in Hsl. rewrite Hsl.
  rewrite slice_all.
  assert (Hm : Np.mean (map (fun t => co + sl * t) times)
               = co + sl * Np.mean times).
  { unfold Np.mean. rewrite length_map.
    rewrite (sum_map_ext _ _ (fun t => co * 1 + sl * t))
      by (intros; ring).
    rewrite (sum_map_lin _ (fun _ => 1) (fun t => t)).
    rewrite sum_map_const, sum_map_id. field. exact Hn. }
  rewrite Hm, map_map.
  set (xm := Np.mean times) in *.
  assert (Hxy : Np.sum (Np.map2 Rmult (map (fun v => v - xm) times)
                          (map (fun x => co + sl * x - (co + sl * xm)) times))
                = sl * spread times).
  { rewrite map2_maps. unfold spread. fold xm. rewrite map_map.
    rewrite (sum_map_ext _ _ (fun t => sl * (t - xm) ^ 2 + 0 * 0))
      by (intros; ring).
    rewrite (sum_map_lin _ (fun t => (t - xm) ^ 2) (fun _ => 0)). lra. }
  rewrite Hxy.
  change (Np.sum (map (fun v => v ^ 2) (map (fun v => v - xm) times)))
    with (spread times).
  f_equal; f_equal; field; exact Hs.
Qed.

Lemma sum_of_squares_sum (l : list R) :
  sum_of_squares l = Np.sum (map (fun r => r ^ 2) l).
Proof.
  induction l as [|x l IH]; cbn [sum_of_squares fold_right map].
  - reflexivity.
  - rewrite sum_cons. unfold sum_of_squares in IH. rewrite IH. ring.
Qed.

Lemma combine_fst (A B : Type) (xs : list A) (ys : list B) :
  length ys = length xs -> map fst (combine xs ys) = xs.
Proof.
  revert ys. induction xs as [|x xs IH]; intros [|y ys] H; simpl in *;
    try discriminate; [reflexivity|]. rewrite IH by lia. reflexivity.
Qed.

Lemma combine_snd (A B : Type) (xs : list A) (ys : list B) :
  length ys = length xs -> map snd (combine xs ys) = ys.
Proof.
  revert ys. induction xs as [|x xs IH]; intros [|y ys] H; simpl in *;
    try discriminate; [reflexivity|]. rewrite IH by lia. reflexivity.
Qed.

(** The residuals of a straight line over the whole array. *)
Lemma line_residuals (l : list (R * R)) (co sl : R) :
  Np.sub (map snd l)
         (linear_curve (map fst l) [co] [sl] [(0, length (map fst l))%nat])
  = map (fun p => snd p - (co + sl * fst p)) l.
Proof.
  rewrite linear_curve_one, map_map. unfold Np.sub.
  rewrite map2_maps. reflexivity.
Qed.

(** The least-squares property on a list of points. *)
Lemma least_squares_pairs (l : list (R * R)) (xm ym sxx sxy co sl co' sl' : R) :
  INR (length l) <> 0 ->
  xm = Np.sum (map fst l) / INR (length l) ->
  ym = Np.sum (map snd l) / INR (length l) ->
  sxx = Np.sum (map (fun p => (fst p - xm) ^ 2) l) ->
  sxy = Np.sum (map (fun p => (fst p - xm) * (snd p - ym)) l) ->
  sxx <> 0 ->
  sl = sxy / sxx ->
  co = ym - sl * xm ->
  Np.sum (map (fun p => (snd p - (co + sl * fst p)) ^ 2) l)
  <= Np.sum (map (fun p => (snd p - (co' + sl' * fst p)) ^ 2) l).
Proof.
  intros Hn Hxm Hym Hsxx Hsxy Hnz Hsl Hco.
  set (n := INR (length l)) in *.
  set (r := fun p : R * R => snd p - (co + sl * fst p)).
  assert (Sx : Np.sum (map fst l) = n * xm) by (rewrite Hxm; field; exact Hn).
  assert (Sy : Np.sum (map snd l) = n * ym) by (rewrite Hym; field; exact Hn).
  assert (S1 : Np.sum (map (fun _ : R * R => 1) l) = n)
    by (rewrite sum_map_const; unfold n; ring).
  (* the residuals sum to zero *)
  assert (N1 : Np.sum (map r l) = 0).
  { unfold r.
    rewrite (sum_map_ext _ _
               (fun p => 1 * snd p + (-1) * (co * 1 + sl * fst p)))
      by (intros; ring).
    rewrite (sum_map_lin _ snd (fun p => co * 1 + sl * fst p)).
    rewrite (sum_map_lin _ (fun _ => 1) fst).
    rewrite S1, Sx, Sy, Hco. ring. }
  (* and are orthogonal to the mean-subtracted times *)
  assert (N2 : Np.sum (map (fun p => r p * (fst p - xm)) l) = 0).
  { unfold r.
    rewrite (sum_map_ext _ _
               (fun p => 1 * ((fst p - xm) * (snd p - ym))
                         + (- sl) * (fst p - xm) ^ 2))
      by (intros; rewrite Hco; ring).
    rewrite (sum_map_lin _ (fun p => (fst p - xm) * (snd p - ym))
                           (fun p => (fst p - xm) ^ 2)).
    rewrite <- Hsxx, <- Hsxy, Hsl. field. exact Hnz. }
  set (dc := co - co' + (sl - sl') * xm).
  set (ds := sl - sl').
  rewrite (sum_map_ext (R * R)
             (fun p => (snd p - (co' + sl' * fst p)) ^ 2)
             (fun p => 1 * r p ^ 2
                       + 1 * (1 * (dc + ds * (fst p - xm)) ^ 2
                              + 2 * (dc * r p + ds * (r p * (fst p - xm))))))
    by (intros; unfold r, dc, ds; ring).
  rewrite (sum_map_lin _ (fun p => r p ^ 2)).
  rewrite (sum_map_lin _ (fun p => (dc + ds * (fst p - xm)) ^ 2)).
  rewrite (sum_map_lin _ r (fun p => r p * (fst p - xm))).
  rewrite N1, N2.
  pose proof (sum_squares_nonneg _ (fun p => dc + ds * (fst p - xm)) l) as Hq.
  change (Np.sum (map (fun p => (snd p - (co + sl * fst p)) ^ 2) l))
    with (Np.sum (map (fun p => r p ^ 2) l)).
  lra.
Qed.

(** X8.  The trend of [linear_pars] is the least-squares line: over one
    segment that spans the series, no other intercept and slope leave a
    smaller sum of squared residuals. *)
Theorem linear_pars_least_squares (times signal : list R) (co sl co' sl' : R) :
  length signal = length times ->
  spread times <> 0 ->
  linear_pars times signal [(0, length times)%nat] = ([co], [sl]) ->
  sum_of_squares
    (Np.sub signal (linear_curve times [co] [sl] [(0, length times)%nat]))
  <= sum_of_squares
       (Np.sub signal (linear_curve times [co'] [sl'] [(0, length times)%nat])).
Proof.
  intros Hlen Hs Hp. pose proof (spread_nonempty times Hs) as Hn.
  unfold spread in Hs.
  set (l := combine times signal).
  assert (Ht : map fst l = times) by (apply combine_fst; exact Hlen).
  assert (Hy : map snd l = signal) by (apply combine_snd; exact Hlen).
  assert (Hll : length l = length times)
    by (rewrite <- Ht; rewrite length_map; reflexivity).
  clearbody l.
  unfold linear_pars, sector_pars in Hp. cbn [map fst snd] in Hp.
  rewrite slice_all in Hp. rewrite <- Hlen, slice_all in Hp.
  rewrite <- Hll in Hn |- *. clear Hll Hlen.
  subst times signal.
  pose proof (line_residuals l co sl) as R1.
  pose proof (line_residuals l co' sl') as R2.
  rewrite length_map in R1, R2. rewrite R1, R2. clear R1 R2.
  rewrite !sum_of_squares_sum, !map_map.
  rewrite !map_map in Hp, Hs. rewrite map2_maps in Hp.
  pose proof (f_equal (fun p => hd 0 (fst p)) Hp) as Hco.
  pose proof (f_equal (fun p => hd 0 (snd p)) Hp) as Hsl.
  cbv beta in Hco, Hsl. cbn [fst snd hd] in Hco, Hsl. clear Hp.
  rewrite map_map in Hco, Hsl. cbv beta in Hco, Hsl.
  eapply least_squares_pairs; [exact Hn|reflexivity|reflexivity|reflexivity|
                               reflexivity| | | ].
  - unfold Np.mean in Hs. rewrite length_map in Hs. exact Hs.
  - rewrite <- Hsl. unfold Np.mean. rewrite !length_map. reflexivity.
  - rewrite <- Hco, Hsl. unfold Np.mean. rewrite !length_map. reflexivity.
Qed.

(** ** The quadratic and the cubic fits *)

Lemma mean_map_lin (A : Type) (f g : A -> R) (a b : R) (l : list A) :
  INR (length l) <> 0 ->
  Np.mean (map (fun x => a * f x + b * g x) l)
  = a * Np.mean (map f l) + b * Np.mean (map g l).
Proof.
  intros Hn. unfold Np.mean. rewrite !length_map, sum_map_lin. field. exact Hn.
Qed.

Lemma mean_map_const (A : Type) (c : R) (l : list A) :
  INR (length l) <> 0 -> Np.mean (map (fun _ => c) l) = c.
Proof.
  intros Hn. unfold Np.mean. rewrite length_map, sum_map_const. field. exact Hn.
Qed.

(** X9.  [quadratic_pars] recovers a parabola: fitted to
    [quadratic_curve times a b c] it returns [(a, b, c)], when the sums it
    divides by are not zero. *)
Theorem quadratic_pars_of_quadratic_curve (times : list R) (a b c : R) :
  spread times <> 0 ->
  quadratic_det times <> 0 ->
  quadratic_pars times (quadratic_curve times a b c) = (a, b, c).
Proof.
  intros Hs Hd. pose proof (spread_nonempty times Hs) as Hn.
  unfold quadratic_pars, quadratic_curve. unfold spread in Hs.
  unfold quadratic_det in Hd. cbv zeta in Hd.
  set (xm := Np.mean times) in *.
  set (x2m := Np.mean (map (fun t => t ^ 2) times)) in *.
  assert (Hym : Np.mean (map (fun t => a * t ^ 2 + b * t + c) times)
                = a * x2m + b * xm + c).
  { rewrite (map_ext _ (fun t => 1 * (a * t ^ 2 + b * t) + c * 1))
      by (intros; ring).
    rewrite (mean_map_lin _ (fun t => a * t ^ 2 + b * t) (fun _ => 1)) by exact Hn.
    rewrite (mean_map_lin _ (fun t => t ^ 2) (fun t => t)) by exact Hn.
    rewrite mean_map_const by exact Hn. rewrite map_id. fold xm x2m. ring. }
  rewrite Hym. rewrite !map_map in *. rewrite !map2_maps in *.
  set (sxx := Np.sum (map (fun x => (x - xm) ^ 2) times)) in *.
  set (s21 := Np.sum (map (fun x => (x ^ 2 - x2m) * (x - xm)) times)) in *.
  set (s22 := Np.sum (map (fun x => (x ^ 2 - x2m) ^ 2) times)) in *.
  assert (H1 : Np.sum (map (fun x => (x - xm)
                 * (a * x ^ 2 + b * x + c - (a * x2m + b * xm + c))) times)
               = a * s21 + b * sxx).
  { rewrite (sum_map_ext _ _ (fun x => a * ((x ^ 2 - x2m) * (x - xm))
                                       + b * (x - xm) ^ 2))
      by (intros; ring).
    apply sum_map_lin. }
  assert (H2 : Np.sum (map (fun x => (x ^ 2 - x2m)
                 * (a * x ^ 2 + b * x + c - (a * x2m + b * xm + c))) times)
               = a * s22 + b * s21).
  { rewrite (sum_map_ext _ _ (fun x => a * (x ^ 2 - x2m) ^ 2
                                       + b * ((x ^ 2 - x2m) * (x - xm))))
      by (intros; ring).
    apply sum_map_lin. }
  rewrite H1, H2.
  f_equal; [f_equal|]; field; auto.
Qed.

Lemma sum_map_lin3 (A : Type) (f g h : A -> R) (a b c : R) (l : list A) :
  Np.sum (map (fun x => a * f x + b * g x + c * h x) l)
  = a * Np.sum (map f l) + b * Np.sum (map g l) + c * Np.sum (map h l).
Proof.
  rewrite (sum_map_ext _ _ (fun x => 1 * (a * f x + b * g x) + c * h x))
    by (intros; ring).
  rewrite (sum_map_lin _ (fun x => a * f x + b * g x) h).
  rewrite (sum_map_lin _ f g). ring.
Qed.

(** X10.  [cubic_pars] recovers a cubic: fitted to
    [cubic_curve times a b c d] it returns [(a, b, c, d)], when the sums it
    divides by are not zero. *)
Theorem cubic_pars_of_cubic_curve (times : list R) (a b c d : R) :
  spread times <> 0 ->
  quadratic_det times <> 0 ->
  cubic_det times <> 0 ->
  cubic_pars times (cubic_curve times a b c d) = (a, b, c, d).
Proof.
  intros Hs Hd Hd3. pose proof (spread_nonempty times Hs) as Hn.
  unfold cubic_pars, cubic_curve. unfold spread in Hs.
  unfold quadratic_det in Hd. unfold cubic_det in Hd3. cbv zeta in Hd, Hd3.
  set (xm := Np.mean times) in *.
  set (x2m := Np.mean (map (fun t => t ^ 2) times)) in *.
  set (x3m := Np.mean (map (fun t => t ^ 3) times)) in *.
  assert (Hym : Np.mean (map (fun t => a * t ^ 3 + b * t ^ 2 + c * t + d) times)
                = a * x3m + b * x2m + c * xm + d).
  { unfold Np.mean. rewrite length_map.
    rewrite (sum_map_ext _ _ (fun t => 1 * (a * t ^ 3 + b * t ^ 2 + c * t)
                                       + d * 1))
      by (intros; ring).
    rewrite (sum_map_lin _ (fun t => a * t ^ 3 + b * t ^ 2 + c * t)
                           (fun _ => 1)).
    rewrite (sum_map_lin3 _ (fun t => t ^ 3) (fun t => t ^ 2) (fun t => t)).
    rewrite sum_map_const, map_id.
    unfold xm, x2m, x3m, Np.mean. rewrite !length_map. field. exact Hn. }
  rewrite Hym. rewrite !map_map in *. rewrite !map2_maps in *.
  set (s11 := Np.sum (map (fun x => (x - xm) ^ 2) times)) in *.
  set (s21 := Np.sum (map (fun x => (x ^ 2 - x2m) * (x - xm)) times)) in *.
  set (s22 := Np.sum (map (fun x => (x ^ 2 - x2m) ^ 2) times)) in *.
  set (s31 := Np.sum (map (fun x => (x ^ 3 - x3m) * (x - xm)) times)) in *.
  set (s32 := Np.sum (map (fun x => (x ^ 3 - x3m) * (x ^ 2 - x2m)) times)) in *.
  set (s33 := Np.sum (map (fun x => (x ^ 3 - x3m) ^ 2) times)) in *.
  set (Y := fun x => a * x ^ 3 + b * x ^ 2 + c * x + d
                     - (a * x3m + b * x2m + c * xm + d)).
  assert (H1 : Np.sum (map (fun x => (x - xm) * Y x) times)
               = a * s31 + b * s21 + c * s11).
  { rewrite (sum_map_ext _ _ (fun x => a * ((x ^ 3 - x3m) * (x - xm))
                                       + b * ((x ^ 2 - x2m) * (x - xm))
                                       + c * (x - xm) ^ 2))
      by (intros; unfold Y; ring).
    apply sum_map_lin3. }
  assert (H2 : Np.sum (map (fun x => (x ^ 2 - x2m) * Y x) times)
               = a * s32 + b * s22 + c * s21).
  { rewrite (sum_map_ext _ _ (fun x => a * ((x ^ 3 - x3m) * (x ^ 2 - x2m))
                                       + b * (x ^ 2 - x2m) ^ 2
                                       + c * ((x ^ 2 - x2m) * (x - xm))))
      by (intros; unfold Y; ring).
    apply sum_map_lin3. }
  assert (H3 : Np.sum (map (fun x => (x ^ 3 - x3m) * Y x) times)
               = a * s33 + b * s32 + c * s31).
  { rewrite (sum_map_ext _ _ (fun x => a * (x ^ 3 - x3m) ^ 2
                                       + b * ((x ^ 3 - x3m) * (x ^ 2 - x2m))
                                       + c * ((x ^ 3 - x3m) * (x - xm))))
      by (intros; unfold Y; ring).
    apply sum_map_lin3. }
  unfold Y in H1, H2, H3. rewrite H1, H2, H3.
  f_equal; [f_equal; [f_equal|]|]; field; auto.
Qed.

(** ** The sinusoid model *)

Lemma map2_map2_l (A B : Type) (g h : A -> B -> A) (xs : list A)
  (ys : list B) :
  Np.map2 g (Np.map2 h xs ys) ys = Np.map2 (fun m t => g (h m t) t) xs ys.
Proof.
  revert ys. induction xs as [|x xs IH]; intros [|y ys]; simpl; auto.
  rewrite IH. reflexivity.
Qed.

Lemma map2_ext (A B C : Type) (g h : A -> B -> C) (xs : list A) (ys : list B) :
  (forall a b, g a b = h a b) -> Np.map2 g xs ys = Np.map2 h xs ys.
Proof.
  intros H. revert ys. induction xs as [|x xs IH]; intros [|y ys]; simpl; auto.
  rewrite IH, H. reflexivity.
Qed.

Lemma map2_zeros (g : R -> R -> R) (ts : list R) :
  Np.map2 g (Np.zeros (length ts)) ts = map (g 0) ts.
Proof.
  induction ts as [|t ts IH]; simpl; [reflexivity|].
  unfold Np.zeros in IH. rewrite IH. reflexivity.
Qed.

(** The accumulation loop shared by [sum_sines] and [sum_sines_deriv]. *)
Lemma accumulate_terms (term : R -> R -> R -> R -> R) (times : list R) :
  forall (l : list (R * (R * R))) (acc : list R),
    length acc = length times ->
    fold_left
      (fun model_sines '(f, (a, ph)) =>
         Np.map2 (fun m t => m + term f a ph t) model_sines times)
      l acc
    = Np.map2 (fun m t => m + sine_terms term l t) acc times.
Proof.
  induction l as [|[f [a ph]] l IH]; intros acc Hl;
    cbn [fold_left sine_terms fold_right].
  - clear - Hl. revert acc Hl.
    induction times as [|t ts IHt]; intros [|m acc] Hl; simpl in *;
      try discriminate; [reflexivity|].
    rewrite <- IHt by lia. f_equal. ring.
  - rewrite IH by (rewrite map2_length, Hl; apply Nat.min_id).
    rewrite map2_map2_l. apply map2_ext. intros m t.
    fold (sine_terms term l t). ring.
Qed.

Lemma sum_sines_closed (times f_n a_n ph_n : list R) :
  sum_sines times f_n a_n ph_n
  = map (sine_terms (fun f a ph t => a * sin (2 * PI * f * t + ph))
                    (combine f_n (combine a_n ph_n)))
        times.
Proof.
  unfold sum_sines.
  rewrite (accumulate_terms (fun f a ph t => a * sin (2 * PI * f * t + ph)))
    by apply repeat_length.
  rewrite map2_zeros. apply map_ext. intros t. ring.
Qed.

Lemma sine_terms_app term l1 l2 t :
  sine_terms term (l1 ++ l2) t = sine_terms term l1 t + sine_terms term l2 t.
Proof.
  unfold sine_terms.
  induction l1 as [|[f [a ph]] l1 IH]; simpl.
  - lra.
  - rewrite IH. lra.
Qed.

Lemma combine_app (A B : Type) (x1 x2 : list A) (y1 y2 : list B) :
  length y1 = length x1 ->
  combine (x1 ++ x2) (y1 ++ y2) = combine x1 y1 ++ combine x2 y2.
Proof.
  revert y1. induction x1 as [|x x1 IH]; intros [|y y1] H; simpl in *;
    try discriminate; [reflexivity|]. rewrite IH by lia. reflexivity.
Qed.

(** X11.  The model is a superposition: the sum of the sinusoids of two
    sets, the arrays of the first being of one length, is the sum of the
    two models. *)
Theorem sum_sines_app (times f1 a1 ph1 f2 a2 ph2 : list R) :
  length a1 = length f1 -> length ph1 = length f1 ->
  sum_sines times (f1 ++ f2) (a1 ++ a2) (ph1 ++ ph2)
  = Np.add (sum_sines times f1 a1 ph1) (sum_sines times f2 a2 ph2).
Proof.
  intros Ha Hph. rewrite !sum_sines_closed.
  rewrite (combine_app _ _ a1 a2 ph1 ph2) by lia.
  rewrite combine_app by (rewrite length_combine; lia).
  unfold Np.add. rewrite map2_maps. apply map_ext. intros t.
  apply sine_terms_app.
Qed.

(** ** The derivatives of the sinusoid model *)

Lemma sin_shift_period (x : R) (q : nat) :
  sin (x + 2 * INR q * PI) = sin x.
Proof. apply sin_period. Qed.

Lemma sin_quarter_turns (x : R) (d : nat) :
  (-1) ^ ((d mod 4 - d mod 2) / 2) * sin (x + PI / 2 * INR (d mod 2)%nat)
  = sin (x + INR d * (PI / 2)).
Proof.
  pose proof (Nat.div_mod_eq d 4) as Hd.
  set (q := (d / 4)%nat) in *.
  assert (Hr : (d mod 4 < 4)%nat) by (apply Nat.mod_upper_bound; lia).
  assert (H2 : (d mod 2 = (d mod 4) mod 2)%nat).
  { rewrite Hd at 1. replace (4 * q + d mod 4)%nat
      with (d mod 4 + (2 * q) * 2)%nat by lia.
    apply Nat.Div0.mod_add. }
  set (r := (d mod 4)%nat) in *.
  rewrite H2.
  assert (Hi : INR d = 4 * INR q + INR r).
  { rewrite Hd at 1. rewrite plus_INR, mult_INR. simpl. ring. }
  rewrite Hi. clearbody r q. clear Hd H2 Hi.
  replace (x + (4 * INR q + INR r) * (PI / 2))
    with (x + INR r * (PI / 2) + 2 * INR q * PI) by field.
  rewrite sin_period.
  destruct r as [|[|[|[|r]]]]; try lia; simpl.
  - rewrite Rmult_1_l. f_equal. ring.
  - rewrite Rmult_1_l. f_equal. ring.
  - replace (x + PI / 2 * 0) with x by ring.
    replace (x + (1 + 1) * (PI / 2)) with (x + PI) by field.
    rewrite neg_sin. ring.
  - replace (x + PI / 2 * 1) with (x + PI / 2) by ring.
    replace (x + (1 + 1 + 1) * (PI / 2)) with (x + PI / 2 + PI) by field.
    rewrite neg_sin. ring.
Qed.

Lemma sum_sines_deriv_closed (times f_n a_n ph_n : list R) (d : nat) :
  sum_sines_deriv times f_n a_n ph_n d
  = map (sine_terms
           (fun f a ph t =>
              (2 * PI * f) ^ d * a * sin (2 * PI * f * t + ph + INR d * (PI / 2)))
           (combine f_n (combine a_n ph_n)))
        times.
Proof.
  unfold sum_sines_deriv. cbv zeta.
  rewrite (accumulate_terms
             (fun f a ph t =>
                (-1) ^ ((d mod 4 - d mod 2) / 2) * (2 * PI * f) ^ d * a
                * sin (2 * PI * f * t + ph + PI / 2 * INR (d mod 2))))
    by apply repeat_length.
  rewrite map2_zeros. apply map_ext. intros t. rewrite Rplus_0_l.
  unfold sine_terms.
  induction (combine f_n (combine a_n ph_n)) as [|[f [a ph]] l IH];
    cbn [fold_right]; [reflexivity|].
  rewrite IH. f_equal.
  rewrite <- (sin_quarter_turns (2 * PI * f * t + ph) d). ring.
Qed.

(** X12.  With [deriv = 0], [sum_sines_deriv] is [sum_sines]. *)
Theorem sum_sines_deriv_0 (times f_n a_n ph_n : list R) :
  sum_sines_deriv times f_n a_n ph_n 0 = sum_sines times f_n a_n ph_n.
Proof.
  rewrite sum_sines_deriv_closed, sum_sines_closed.
  apply map_ext. intros t. unfold sine_terms.
  induction (combine f_n (combine a_n ph_n)) as [|[f [a ph]] l IH];
    cbn [fold_right]; [reflexivity|].
  rewrite IH. f_equal. simpl. rewrite Rmult_1_l. f_equal. f_equal. ring.
Qed.

Lemma sin_linear_deriv (k w c t : R) :
  derivable_pt_lim (fun u => k * sin (w * u + c)) t (k * (cos (w * t + c) * w)).
Proof.
  apply (derivable_pt_lim_scal (fun u => sin (w * u + c))).
  apply (derivable_pt_lim_comp (fun u => w * u + c) sin).
  - pose proof (derivable_pt_lim_plus
                  (fun u => w * u) (fun _ => c) t (w * 1) 0
                  (derivable_pt_lim_scal (fun u => u) w t 1
                     (derivable_pt_lim_id t))
                  (derivable_pt_lim_const c t)) as H.
    replace (w * 1 + 0) with w in H by ring. exact H.
  - apply derivable_pt_lim_sin.
Qed.

Lemma sine_term_deriv (f a ph : R) (d : nat) (t : R) :
  derivable_pt_lim
    (fun t => (2 * PI * f) ^ d * a
              * sin (2 * PI * f * t + ph + INR d * (PI / 2)))
    t
    ((2 * PI * f) ^ S d * a
     * sin (2 * PI * f * t + ph + INR (S d) * (PI / 2))).
Proof.
  pose proof (sin_linear_deriv ((2 * PI * f) ^ d * a) (2 * PI * f)
                               (ph + INR d * (PI / 2)) t) as H.
  rewrite S_INR.
  replace (2 * PI * f * t + ph + (INR d + 1) * (PI / 2))
    with (PI / 2 + (2 * PI * f * t + (ph + INR d * (PI / 2)))) by field.
  rewrite <- cos_sin.
  replace ((2 * PI * f) ^ S d * a
           * cos (2 * PI * f * t + (ph + INR d * (PI / 2))))
    with ((2 * PI * f) ^ d * a
          * (cos (2 * PI * f * t + (ph + INR d * (PI / 2))) * (2 * PI * f)))
    by (simpl; ring).
  eapply derivable_pt_lim_ext; [|exact H].
  intros u. cbv beta. f_equal. f_equal. ring.
Qed.

(** X13.  At every time and for every order [d], the value of
    [sum_sines_deriv] with [deriv = d + 1] is the derivative with respect
    to time of its value with [deriv = d]: with X12, the sign and the
    quarter-turn of the code give the derivatives of the sinusoid model. *)
Theorem sum_sines_deriv_step (f_n a_n ph_n : list R) (d : nat) (t : R) :
  derivable_pt_lim
    (fun t => hd 0 (sum_sines_deriv [t] f_n a_n ph_n d)) t
    (hd 0 (sum_sines_deriv [t] f_n a_n ph_n (S d))).
Proof.
  rewrite sum_sines_deriv_closed. cbn [map hd].
  eapply derivable_pt_lim_ext.
  { intros u. rewrite sum_sines_deriv_closed. cbn [map hd]. reflexivity. }
  unfold sine_terms.
  induction (combine f_n (combine a_n ph_n)) as [|[f [a ph]] l IH];
    cbn [fold_right].
  - apply derivable_pt_lim_const.
  - apply (derivable_pt_lim_plus
             (fun t => (2 * PI * f) ^ d * a
                       * sin (2 * PI * f * t + ph + INR d * (PI / 2)))).
    + apply sine_term_deriv.
    + exact IH.
Qed.

(** ** The spectral window *)

Lemma cos_sin_sums_bound (xs : list R) :
  Np.sum (map cos xs) ^ 2 + Np.sum (map sin xs) ^ 2 <= INR (length xs) ^ 2.
Proof.
  induction xs as [|x xs IH].
  - cbn [map length INR]. rewrite sum_nil. lra.
  - cbn [map]. rewrite !sum_cons.
    change (length (x :: xs)) with (S (length xs)). rewrite S_INR.
    set (C := Np.sum (map cos xs)) in *.
    set (S := Np.sum (map sin xs)) in *.
    pose proof (pos_INR (length xs)) as Hn.
    set (n := INR (length xs)) in *.
    pose proof (sin2_cos2 x) as Hx. unfold Rsqr in Hx.
    set (c := cos x) in *. set (s := sin x) in *.
    assert (Hcs : c * C + s * S <= n).
    { destruct (Rle_dec (c * C + s * S) 0) as [Hneg|Hpos]; [lra|].
      assert (Hsq : (c * C + s * S) ^ 2 <= n ^ 2).
      { assert (Hcs : (c * C + s * S) ^ 2
                      = (s * s + c * c) * (C ^ 2 + S ^ 2) - (c * S - s * C) ^ 2)
          by ring.
        rewrite Hcs, Hx. pose proof (pow2_ge_0 (c * S - s * C)). lra. }
      nra. }
    nra.
Qed.

(** X14.  On a series that is not empty, every value of
    [spectral_window] lies between 0 and 1, and the value at the frequency
    zero is 1. *)
Theorem spectral_window_normalised (times freqs : list R) :
  times <> [] ->
  Forall (fun w => 0 <= w <= 1) (spectral_window times freqs)
  /\ spectral_window times [0] = [1].
Proof.
  intros Ht.
  assert (Hn : 0 < INR (length times)).
  { destruct times as [|t ts]; [congruence|].
    change (length (t :: ts)) with (S (length ts)). rewrite S_INR.
    pose proof (pos_INR (length ts)). lra. }
  split.
  - unfold spectral_window. apply Forall_forall. intros w Hw.
    apply in_map_iff in Hw. destruct Hw as [f [<- _]]. cbv zeta.
    pose proof (cos_sin_sums_bound (map (fun t => 2 * PI * f * t) times)) as Hb.
    rewrite !map_map, length_map in Hb.
    set (C := Np.sum (map (fun t => cos (2 * PI * f * t)) times)) in *.
    set (S := Np.sum (map (fun t => sin (2 * PI * f * t)) times)) in *.
    set (n := INR (length times)) in *.
    assert (Hn2 : 0 < n ^ 2) by nra.
    split.
    + apply Rmult_le_pos; [nra|]. apply Rlt_le, Rinv_0_lt_compat. exact Hn2.
    + apply (Rmult_le_reg_r (n ^ 2)); [exact Hn2|].
      unfold Rdiv. rewrite Rmult_assoc, Rinv_l by lra. lra.
  - unfold spectral_window. cbn [map]. f_equal.
    rewrite (sum_map_ext _ (fun t => cos (2 * PI * 0 * t)) (fun _ => 1)).
    2:{ intros t. replace (2 * PI * 0 * t) with 0 by ring. apply cos_0. }
    rewrite (sum_map_ext _ (fun t => sin (2 * PI * 0 * t)) (fun _ => 0)).
    2:{ intros t. replace (2 * PI * 0 * t) with 0 by ring. apply sin_0. }
    rewrite !sum_map_const. field. lra.
Qed.

(** ** The recurrence of the periodogram *)







(** ** The single-frequency periodogram under a rescaled signal *)

Lemma scargle_sums_scale (times signal : list R) (f tau c : R) :
  scargle_sums times (map (Rmult c) signal) f tau
  = let '(s_cos, cos_2, s_sin, sin_2) := scargle_sums times signal f tau in
    (c * s_cos, cos_2, c * s_sin, sin_2).
Proof.
  unfold scargle_sums. cbv zeta.
  assert (G : forall ts sg a b d e,
             fold_left
               (fun '(s_cos, cos_2, s_sin, sin_2) '(t, s) =>
                  (s_cos + s * cos (2 * PI * f * (t - tau)),
                   cos_2 + cos (2 * PI * f * (t - tau)) ^ 2,
                   s_sin + s * sin (2 * PI * f * (t - tau)),
                   sin_2 + sin (2 * PI * f * (t - tau)) ^ 2))
               (combine ts (map (Rmult c) sg)) (c * a, b, c * d, e)
             = let '(s_cos, cos_2, s_sin, sin_2) :=
                 fold_left
                   (fun '(s_cos, cos_2, s_sin, sin_2) '(t, s) =>
                      (s_cos + s * cos (2 * PI * f * (t - tau)),
                       cos_2 + cos (2 * PI * f * (t - tau)) ^ 2,
                       s_sin + s * sin (2 * PI * f * (t - tau)),
                       sin_2 + sin (2 * PI * f * (t - tau)) ^ 2))
                   (combine ts sg) (a, b, d, e) in
               (c * s_cos, cos_2, c * s_sin, sin_2)).
  { induction ts as [|t ts IH]; intros [|s sg] a b d e;
      cbn [map combine fold_left]; try reflexivity.
    rewrite <- IH. f_equal.
    repeat match goal with |- (_, _) = (_, _) => f_equal end; ring. }
  specialize (G times signal 0 0 0 0).
  rewrite !Rmult_0_r in G. exact G.
Qed.

(** X16.  The amplitude of [scargle_ampl_single] scales with the signal:
    multiplying the signal by [c] multiplies the amplitude by [|c|]. *)
Theorem scargle_ampl_single_scale (times signal : list R) (f c : R) :
  (length times <= length signal)%nat ->
  scargle_ampl_single times (map (Rmult c) signal) f
  = Rabs c * scargle_ampl_single times signal f.
Proof.
  intros _. unfold scargle_ampl_single. cbv zeta. rewrite scargle_sums_scale.
  destruct (scargle_sums times signal f (scargle_tau times f))
    as [[[s_cos cos_2] s_sin] sin_2].
  replace (((c * s_cos) ^ 2 / cos_2 + (c * s_sin) ^ 2 / sin_2) / 2)
    with (c ^ 2 * ((s_cos ^ 2 / cos_2 + s_sin ^ 2 / sin_2) / 2))
    by (unfold Rdiv; ring).
  rewrite sqrt_mult_alt by apply pow2_ge_0.
  replace (c ^ 2) with (Rsqr c) by (unfold Rsqr; ring).
  rewrite sqrt_Rsqr_abs. ring.
Qed.

Lemma arctan2_scale (c y x : R) :
  0 < c -> Np.arctan2 (c * y) (c * x) = Np.arctan2 y x.
Proof.
  intros Hc. unfold Np.arctan2.
  assert (Hq : x <> 0 -> c * y / (c * x) = y / x) by (intros; field; lra).
  destruct (Rlt_dec 0 x) as [Hx|Hx].
  - destruct (Rlt_dec 0 (c * x)) as [_|H]; [|exfalso; apply H; nra].
    rewrite Hq by lra. reflexivity.
  - destruct (Rlt_dec 0 (c * x)) as [H|_]; [exfalso; nra|].
    destruct (Rlt_dec x 0) as [Hx'|Hx'].
    + destruct (Rlt_dec (c * x) 0) as [_|H]; [|exfalso; apply H; nra].
      rewrite Hq by lra.
      destruct (Rle_dec 0 y) as [Hy|Hy];
        destruct (Rle_dec 0 (c * y)) as [Hy2|Hy2]; try reflexivity;
        exfalso; [apply Hy2|apply Hy]; nra.
    + destruct (Rlt_dec (c * x) 0) as [H|_]; [exfalso; nra|].
      destruct (Rlt_dec 0 y) as [Hy|Hy].
      * destruct (Rlt_dec 0 (c * y)) as [_|H]; [reflexivity|].
        exfalso; apply H; nra.
      * destruct (Rlt_dec 0 (c * y)) as [H|_]; [exfalso; nra|].
        destruct (Rlt_dec y 0) as [Hy'|Hy'].
        -- destruct (Rlt_dec (c * y) 0) as [_|H]; [reflexivity|].
           exfalso; apply H; nra.
        -- destruct (Rlt_dec (c * y) 0) as [H|_]; [exfalso; nra|].
           reflexivity.
Qed.

(** X17.  The phase of [scargle_phase_single] does not depend on the
    scale of the signal: multiplying the signal by a positive factor leaves
    the phase as it is. *)
Theorem scargle_phase_single_scale (times signal : list R) (f c : R) :
  (length times <= length signal)%nat ->
  0 < c ->
  scargle_phase_single times (map (Rmult c) signal) f
  = scargle_phase_single times signal f.
Proof.
  intros _ Hc. unfold scargle_phase_single. cbv zeta.
  rewrite scargle_sums_scale.
  destruct (scargle_sums times signal f (scargle_tau times f))
    as [[[s_cos cos_2] s_sin] sin_2].
  replace (c * s_sin / sqrt sin_2) with (c * (s_sin / sqrt sin_2))
    by (unfold Rdiv; ring).
  replace (c * s_cos / sqrt cos_2) with (c * (s_cos / sqrt cos_2))
    by (unfold Rdiv; ring).
  rewrite arctan2_scale by exact Hc. reflexivity.
Qed.

(** ** The harmonic extractors *)

Lemma append_harmonic_step times signal p_orb (f a ph : list R) resid m h :
  exists a_c ph_c r',
    append_harmonic times signal p_orb ((f, a, ph), resid, m) h
    = ((f ++ [IZR h / p_orb], a ++ [a_c], ph ++ [wrap_phase ph_c]), r',
       Some (sum_sines times (f ++ [IZR h / p_orb]) (a ++ [a_c])
                       (ph ++ [wrap_phase ph_c]))).
Proof.
  unfold append_harmonic, harmonic_entry, append_sines. cbv zeta.
  eexists; eexists; eexists. reflexivity.
Qed.

(** What the first loop of [extract_all_harmonics] returns. *)
Lemma append_loop times signal p_orb :
  forall hs (f a ph : list R) resid m,
    exists a' ph' r' m',
      fold_left (append_harmonic times signal p_orb) hs ((f, a, ph), resid, m)
      = ((f ++ map (fun h => IZR h / p_orb) hs, a ++ a', ph ++ ph'), r', m')
      /\ length a' = length hs /\ length ph' = length hs
      /\ Forall wrapped ph'
      /\ (m' = None -> hs = [] /\ m = None).
Proof.
  induction hs as [|h hs IH]; intros f a ph resid m; cbn [fold_left map].
  - exists [], [], resid, m. rewrite !app_nil_r.
    repeat split; auto.
  - destruct (append_harmonic_step times signal p_orb f a ph resid m h)
      as [a_c [ph_c [r1 E]]].
    rewrite E.
    destruct (IH (f ++ [IZR h / p_orb]) (a ++ [a_c])
                 (ph ++ [wrap_phase ph_c]) r1
                 (Some (sum_sines times (f ++ [IZR h / p_orb]) (a ++ [a_c])
                                  (ph ++ [wrap_phase ph_c]))))
      as [a' [ph' [r' [m' [E' [La [Lph [W N]]]]]]]].
    exists (a_c :: a'), (wrap_phase ph_c :: ph'), r', m'.
    rewrite E', <- !app_assoc. cbn [app length].
    split; [reflexivity|]. split; [lia|]. split; [lia|].
    split; [constructor; [apply wrap_phase_range|exact W]|].
    intros Hm. destruct (N Hm) as [_ Hn]. discriminate.
Qed.

Lemma remeasure_harmonic_step times signal p_orb (f a ph : list R) m h :
  exists a_c ph_c,
    remeasure_harmonic times signal p_orb ((f, a, ph), m) h
    = ((Np.set_nth (Z.to_nat (h - 1)) (IZR h / p_orb) f,
        Np.set_nth (Z.to_nat (h - 1)) a_c a,
        Np.set_nth (Z.to_nat (h - 1)) (wrap_phase ph_c) ph),
       Some (sum_sines times (Np.delete f [Z.to_nat (h - 1)])
                       (Np.delete a [Z.to_nat (h - 1)])
                       (Np.delete ph [Z.to_nat (h - 1)]))).
Proof.
  unfold remeasure_harmonic, harmonic_entry. cbv zeta.
  eexists; eexists. reflexivity.
Qed.

Lemma set_nth_same (A : Type) (d : A) :
  forall (xs : list A) (j : nat), Np.set_nth j (nth j xs d) xs = xs.
Proof.
  induction xs as [|x xs IH]; intros [|j]; cbn [Np.set_nth nth]; auto.
  rewrite IH. reflexivity.
Qed.

Lemma nth_multiples (p_orb : R) (n k : nat) :
  (k < n)%nat ->
  nth k (map (fun h => IZR h / p_orb)
             (map (fun k => Z.of_nat (S k)) (seq 0 n))) 0
  = IZR (Z.of_nat (S k)) / p_orb.
Proof.
  intros Hk. rewrite map_map.
  apply (nth_map_seq (fun k => IZR (Z.of_nat (S k)) / p_orb)). exact Hk.
Qed.

(** What the second loop keeps: the frequencies, the lengths, and the
    wrapped phases. *)
Lemma remeasure_loop times signal p_orb (n : nat) :
  let F := map (fun h => IZR h / p_orb)
               (map (fun k => Z.of_nat (S k)) (seq 0 n)) in
  forall (ks : list nat) (a ph : list R) m,
    Forall (fun k => (k < n)%nat) ks ->
    Forall wrapped ph ->
    exists a' ph' m',
      fold_left (remeasure_harmonic times signal p_orb)
                (map (fun k => Z.of_nat (S k)) ks) ((F, a, ph), m)
      = ((F, a', ph'), m')
      /\ length a' = length a /\ length ph' = length ph
      /\ Forall wrapped ph'
      /\ (m' = None -> m = None).
Proof.
  intros F. induction ks as [|k ks IH]; intros a ph m Hks W;
    cbn [map fold_left].
  - exists a, ph, m. repeat split; auto.
  - inversion Hks as [|k' ks' Hk Hks']; subst.
    destruct (remeasure_harmonic_step times signal p_orb F a ph m
                                      (Z.of_nat (S k)))
      as [a_c [ph_c E]].
    rewrite E.
    replace (Z.to_nat (Z.of_nat (S k) - 1)) with k by lia.
    assert (HF : Np.set_nth k (IZR (Z.of_nat (S k)) / p_orb) F = F).
    { rewrite <- (nth_multiples p_orb n k Hk). apply set_nth_same. }
    rewrite HF.
    destruct (IH (Np.set_nth k a_c a) (Np.set_nth k (wrap_phase ph_c) ph)
                 (Some (sum_sines times (Np.delete F [k]) (Np.delete a [k])
                                  (Np.delete ph [k])))
                 Hks')
      as [a' [ph' [m' [E' [La [Lph [W' N]]]]]]].
    { apply Forall_set_nth; [apply wrap_phase_range|exact W]. }
    exists a', ph', m'. rewrite E'.
    rewrite set_nth_length in La, Lph.
    repeat split; auto.
    intros Hm. specialize (N Hm). discriminate.
Qed.

Lemma delete_from_last (A : Type) :
  forall (l : list A) (k : nat),
    l <> [] -> Np.delete_from k l [(k + (length l - 1))%nat] = removelast l.
Proof.
  induction l as [|x l IH]; intros k Hl; [congruence|].
  destruct l as [|y l].
  - replace (k + (length [x] - 1))%nat with k by (cbn [length]; lia).
    cbn [Np.delete_from Np.mem existsb]. rewrite Nat.eqb_refl. reflexivity.
  - assert (Hne : (k =? k + (length (x :: y :: l) - 1))%nat = false)
      by (apply Nat.eqb_neq; cbn [length]; lia).
    change (Np.delete_from k (x :: y :: l) [(k + (length (x :: y :: l) - 1))%nat])
      with (if (k =? k + (length (x :: y :: l) - 1))%nat || false
            then Np.delete_from (S k) (y :: l)
                                [(k + (length (x :: y :: l) - 1))%nat]
            else x :: Np.delete_from (S k) (y :: l)
                                     [(k + (length (x :: y :: l) - 1))%nat]).
    rewrite Hne. cbn [orb].
    change (removelast (x :: y :: l)) with (x :: removelast (y :: l)).
    f_equal. rewrite <- (IH (S k)) by discriminate.
    f_equal. f_equal. cbn [length]. lia.
Qed.

Lemma delete_last (A : Type) (l : list A) :
  l <> [] -> Np.delete l [(length l - 1)%nat] = removelast l.
Proof. intros Hl. apply (delete_from_last A l 0 Hl). Qed.

Lemma removelast_set_nth (A : Type) (v : A) :
  forall l : list A,
    removelast (Np.set_nth (length l - 1) v l) = removelast l.
Proof.
  induction l as [|x l IH]; [reflexivity|].
  destruct l as [|y l]; [reflexivity|].
  replace (length (x :: y :: l) - 1)%nat with (S (length (y :: l) - 1))
    by (cbn [length]; lia).
  cbn [Np.set_nth].
  change (removelast (x :: y :: l)) with (x :: removelast (y :: l)).
  rewrite <- IH.
  destruct (Np.set_nth (length (y :: l) - 1) v (y :: l)) eqn:E.
  - apply (f_equal (@length A)) in E. rewrite set_nth_length in E.
    discriminate.
  - reflexivity.
Qed.

(** The run of [extract_all_harmonics] on [n] candidates, [n] positive. *)
Lemma extract_all_harmonics_run times signal signal_err p_orb f_max (n : nat) :
  h_candidates_all times p_orb f_max
  = map (fun k => Z.of_nat (S k)) (seq 0 (S n)) ->
  exists a ph,
    extract_all_harmonics times signal signal_err p_orb f_max
    = Some (Np.mean
              (Np.sub signal
                      (sum_sines times
                         (removelast
                            (map (fun h => IZR h / p_orb)
                                 (h_candidates_all times p_orb f_max)))
                         (removelast a) (removelast ph))),
            (map (fun h => IZR h / p_orb) (h_candidates_all times p_orb f_max),
             a, ph))
    /\ length a = S n /\ length ph = S n /\ Forall wrapped ph.
Proof.
  intros Hc. unfold extract_all_harmonics. cbv zeta. rewrite Hc.
  set (hs := map (fun k => Z.of_nat (S k)) (seq 0 (S n))).
  destruct (append_loop times signal p_orb hs [] [] []
              (map (fun v => v - Np.mean signal) signal) None)
    as [a1 [ph1 [r1 [m1 [E1 [La1 [Lph1 [W1 _]]]]]]]].
  rewrite E1. cbn [app].
  unfold hs at 1. rewrite seq_S, map_app, fold_left_app. cbn [map fold_left].
  change (0 + n)%nat with n.
  unfold hs in La1, Lph1. rewrite length_map, length_seq in La1, Lph1.
  destruct (remeasure_loop times signal p_orb (S n) (seq 0 n) a1 ph1 m1)
    as [a2 [ph2 [m2 [E2 [La2 [Lph2 [W2 _]]]]]]].
  { apply Forall_forall. intros k Hk. apply in_seq in Hk. lia. }
  { exact W1. }
  cbv zeta in E2. fold hs in E2.
  match goal with
  | |- context [remeasure_harmonic _ _ _ ?st (Z.of_nat _)] =>
      replace st with (map (fun h => IZR h / p_orb) hs, a2, ph2, m2)
        by (symmetry; exact E2)
  end.
  destruct (remeasure_harmonic_step times signal p_orb
              (map (fun h => IZR h / p_orb) hs) a2 ph2 m2
              (Z.of_nat (S n)))
    as [a_c [ph_c E3]].
  rewrite E3. clear E1 E2 E3.
  replace (Z.to_nat (Z.of_nat (S n) - 1)) with n by lia.
  assert (HF : Np.set_nth n (IZR (Z.of_nat (S n)) / p_orb)
                          (map (fun h => IZR h / p_orb) hs)
               = map (fun h => IZR h / p_orb) hs).
  { unfold hs. rewrite <- (nth_multiples p_orb (S n) n) by lia.
    apply set_nth_same. }
  rewrite HF.
  exists (Np.set_nth n a_c a2), (Np.set_nth n (wrap_phase ph_c) ph2).
  rewrite !set_nth_length.
  split; [|split; [lia|split; [lia|]]].
  - f_equal. f_equal. f_equal. f_equal.
    assert (Ln : n = Nat.sub (length (map (fun h => IZR h / p_orb) hs)) 1)
      by (unfold hs; rewrite !length_map, length_seq; lia).
    assert (Lna : n = (length a2 - 1)%nat) by lia.
    assert (Lnp : n = (length ph2 - 1)%nat) by lia.
    f_equal.
    + rewrite Ln at 1. apply delete_last.
      unfold hs. rewrite seq_S, !map_app. intros H.
      apply app_eq_nil in H. destruct H as [_ H]. discriminate.
    + rewrite Lna. rewrite removelast_set_nth. apply delete_last.
      intros ->. cbn in La2. lia.
    + rewrite Lnp. rewrite removelast_set_nth. apply delete_last.
      intros ->. cbn in Lph2. lia.
  - apply Forall_set_nth; [apply wrap_phase_range|exact W2].
Qed.

Lemma arange_from_1_seq (stop : R) :
  Np.arange_from_1 stop
  = map (fun k => Z.of_nat (S k)) (seq 0 (Z.to_nat (Np.ceil (stop - 1)))).
Proof. reflexivity. Qed.

Lemma extract_all_harmonics_none times signal signal_err p_orb f_max :
  h_candidates_all times p_orb f_max = [] ->
  extract_all_harmonics times signal signal_err p_orb f_max = None.
Proof.
  intros Hc. unfold extract_all_harmonics. cbv zeta. rewrite Hc.
  reflexivity.
Qed.

Lemma h_candidates_all_cases times p_orb f_max :
  h_candidates_all times p_orb f_max = []
  \/ exists n, h_candidates_all times p_orb f_max
               = map (fun k => Z.of_nat (S k)) (seq 0 (S n)).
Proof.
  unfold h_candidates_all. cbv zeta. rewrite arange_from_1_seq.
  destruct (Z.to_nat _) as [|n]; [left; reflexivity|right].
  exists n. reflexivity.
Qed.

(** X18.  [extract_all_harmonics] fails exactly when there is no
    candidate harmonic, on the unbound [model] of its last line.  Otherwise
    its frequencies are the multiples [h / p_orb] of the candidates
    [h = 1, 2, ...], in this order, the three arrays are of one length, and
    every phase lies in [[-pi, pi)]. *)
Theorem extract_all_harmonics_multiples times signal signal_err p_orb f_max :
  (f_max = None -> (2 <= length times)%nat) ->
  match extract_all_harmonics times signal signal_err p_orb f_max with
  | Some (_, (f_n_h, a_n_h, ph_n_h)) =>
      h_candidates_all times p_orb f_max <> [] /\
      f_n_h = map (fun h => IZR h / p_orb) (h_candidates_all times p_orb f_max)
      /\ length a_n_h = length f_n_h /\ length ph_n_h = length f_n_h
      /\ Forall wrapped ph_n_h
  | None => h_candidates_all times p_orb f_max = []
  end.
Proof.
  intros _.
  destruct (h_candidates_all_cases times p_orb f_max) as [Hc|[n Hc]].
  - rewrite (extract_all_harmonics_none _ _ _ _ _ Hc). exact Hc.
  - destruct (extract_all_harmonics_run times signal signal_err p_orb f_max n
                                         Hc)
      as [a [ph [E [La [Lph W]]]]].
    rewrite E.
    split; [rewrite Hc; discriminate|].
    split; [reflexivity|].
    rewrite Hc, !length_map, length_seq. auto.
Qed.

(** X19.  The constant [extract_all_harmonics] returns is the mean of
    the signal minus the model of the harmonics returned without the last
    of them: the model read by the last line is the one from which the
    second loop took the highest harmonic out. *)
Theorem extract_all_harmonics_constant times signal signal_err p_orb f_max
  const_r f_n_h a_n_h ph_n_h :
  (f_max = None -> (2 <= length times)%nat) ->
  extract_all_harmonics times signal signal_err p_orb f_max
  = Some (const_r, (f_n_h, a_n_h, ph_n_h)) ->
  const_r
  = Np.mean (Np.sub signal
                    (sum_sines times (removelast f_n_h) (removelast a_n_h)
                               (removelast ph_n_h))).
Proof.
  intros _ H.
  destruct (h_candidates_all_cases times p_orb f_max) as [Hc|[n Hc]].
  - rewrite (extract_all_harmonics_none _ _ _ _ _ Hc) in H. discriminate.
  - destruct (extract_all_harmonics_run times signal signal_err p_orb f_max n
                                         Hc)
      as [a [ph [E _]]].
    rewrite E in H. injection H as <- <- <- <-. reflexivity.
Qed.

(** *** [extract_harmonics] *)

Lemma try_candidate_step times signal_err resid_orig p_orb n_param_orig st h
  (f a ph : list R) :
  eh_accepted st = (f, a, ph) ->
  exists a_c ph_c,
    (eh_accepted
       (try_candidate times signal_err resid_orig p_orb n_param_orig st h)
     = (f ++ [IZR h / p_orb], a ++ [a_c], ph ++ [wrap_phase ph_c])
     /\ eh_model
          (try_candidate times signal_err resid_orig p_orb n_param_orig st h)
        = Some (sum_sines times (f ++ [IZR h / p_orb]) (a ++ [a_c])
                          (ph ++ [wrap_phase ph_c])))
    \/ (eh_accepted
          (try_candidate times signal_err resid_orig p_orb n_param_orig st h)
        = (f, a, ph)
        /\ eh_model
             (try_candidate times signal_err resid_orig p_orb n_param_orig st
                            h)
           = Some (sum_sines times f a ph)).
Proof.
  intros Hs. unfold try_candidate, harmonic_entry. cbv zeta.
  rewrite Hs. unfold append_sines.
  exists (scargle_ampl_single times (eh_resid st) (IZR h / p_orb)),
         (scargle_phase_single times (eh_resid st) (IZR h / p_orb)).
  destruct (Rltb 2 _); cbn [eh_accepted eh_model].
  - left. split; reflexivity.
  - right. split; reflexivity.
Qed.

(** The invariant of the loop of [extract_harmonics], over the candidates
    [k + 1 .. k + m]. *)
Lemma try_candidate_loop times signal_err resid_orig p_orb n_param_orig :
  forall (m k : nat) st (sel : list Z) (a ph : list R) (started : Prop),
    eh_accepted st = (map (fun h => IZR h / p_orb) sel, a, ph) ->
    StronglySorted Z.lt sel ->
    Forall (fun h => (1 <= h <= Z.of_nat k)%Z) sel ->
    length a = length sel -> length ph = length sel ->
    Forall wrapped ph ->
    (started ->
     eh_model st
     = Some (sum_sines times (map (fun h => IZR h / p_orb) sel) a ph)) ->
    exists (sel' : list Z) (a' ph' : list R),
      let st' :=
        fold_left
          (try_candidate times signal_err resid_orig p_orb n_param_orig)
          (map (fun k => Z.of_nat (S k)) (seq k m)) st in
      eh_accepted st' = (map (fun h => IZR h / p_orb) sel', a', ph')
      /\ StronglySorted Z.lt sel'
      /\ Forall (fun h => (1 <= h <= Z.of_nat (k + m))%Z) sel'
      /\ length a' = length sel' /\ length ph' = length sel'
      /\ Forall wrapped ph'
      /\ (started \/ m <> 0%nat ->
          eh_model st'
          = Some (sum_sines times (map (fun h => IZR h / p_orb) sel') a' ph')).
Proof.
  induction m as [|m IH]; intros k st sel a ph started Hs Hsort Hb La Lph W Hm;
    cbn [seq map fold_left].
  - exists sel, a, ph. cbv zeta. rewrite Nat.add_0_r.
    repeat split; auto. intros [H|H]; [auto|congruence].
  - set (h := Z.of_nat (S k)).
    set (st1 := try_candidate times signal_err resid_orig p_orb n_param_orig
                              st h).
    assert (Hstep :
              exists sel1 a1 ph1,
                eh_accepted st1 = (map (fun h => IZR h / p_orb) sel1, a1, ph1)
                /\ StronglySorted Z.lt sel1
                /\ Forall (fun h => (1 <= h <= Z.of_nat (S k))%Z) sel1
                /\ length a1 = length sel1 /\ length ph1 = length sel1
                /\ Forall wrapped ph1
                /\ eh_model st1
                   = Some (sum_sines times
                             (map (fun h => IZR h / p_orb) sel1) a1 ph1)).
    { destruct (try_candidate_step times signal_err resid_orig p_orb
                  n_param_orig st h _ _ _ Hs)
        as [a_c [ph_c [[Hacc Hmod]|[Hacc Hmod]]]]; fold st1 in Hacc, Hmod.
      - exists (sel ++ [h]), (a ++ [a_c]), (ph ++ [wrap_phase ph_c]).
        rewrite map_app. cbn [map].
        split; [exact Hacc|]. split.
        { clear - Hsort Hb. induction Hsort as [|x l Hl IHl Hx].
          - repeat constructor.
          - inversion Hb; subst. cbn [app].
            constructor; [apply IHl; auto|].
            apply Forall_app. split; [exact Hx|].
            constructor; [|constructor]. unfold h. lia. }
        split.
        { apply Forall_app. split.
          - eapply Forall_impl; [|exact Hb]. intros x Hx. cbv beta in *. lia.
          - constructor; [unfold h; lia|constructor]. }
        split; [rewrite !length_app; cbn [length]; lia|].
        split; [rewrite !length_app; cbn [length]; lia|].
        split; [|exact Hmod].
        apply Forall_app. split; [exact W|].
        constructor; [apply wrap_phase_range|constructor].
      - exists sel, a, ph.
        split; [exact Hacc|]. split; [exact Hsort|]. split.
        { eapply Forall_impl; [|exact Hb]. intros x Hx. cbv beta in *. lia. }
        repeat split; auto. }
    destruct Hstep as [sel1 [a1 [ph1 [H1 [H2 [H3 [H4 [H5 [H6 H7]]]]]]]]].
    destruct (IH (S k) st1 sel1 a1 ph1 True H1 H2 H3 H4 H5 H6 (fun _ => H7))
      as [sel' [a' [ph' H]]].
    cbv zeta in H. destruct H as [G1 [G2 [G3 [G4 [G5 [G6 G7]]]]]].
    exists sel', a', ph'. cbv zeta.
    replace (k + S m)%nat with (S k + m)%nat by lia.
    repeat split; auto.
Qed.

(** The run of [extract_harmonics]. *)
Lemma extract_harmonics_run times signal signal_err p_orb :
  h_candidates times p_orb <> [] ->
  exists (sel : list Z) (a ph : list R),
    extract_harmonics times signal signal_err p_orb
    = Some (Np.mean
              (Np.sub (map (fun v => v - Np.mean signal) signal)
                      (sum_sines times (map (fun h => IZR h / p_orb) sel)
                                 a ph))
            + Np.mean signal,
            (map (fun h => IZR h / p_orb) sel, a, ph))
    /\ StronglySorted Z.lt sel
    /\ incl sel (h_candidates times p_orb)
    /\ length a = length sel /\ length ph = length sel
    /\ Forall wrapped ph.
Proof.
  intros Hc. unfold extract_harmonics. cbv zeta.
  unfold h_candidates in *. cbv zeta in *.
  rewrite arange_from_1_seq in *.
  set (N := Z.to_nat _) in *.
  set (st0 := {| eh_accepted := ([], [], []);
                 eh_resid := map (fun v => v - Np.mean signal) signal;
                 eh_bic_prev :=
                   calc_bic (Np.div (map (fun v => v - Np.mean signal) signal)
                                    signal_err) 2;
                 eh_n_accepted := 0;
                 eh_model := None |}).
  destruct (try_candidate_loop times signal_err
              (map (fun v => v - Np.mean signal) signal) p_orb 2%Z
              N 0%nat st0 [] [] [] False)
    as [sel [a [ph H]]]; try reflexivity; try constructor; try contradiction.
  cbv zeta in H. destruct H as [G1 [G2 [G3 [G4 [G5 [G6 G7]]]]]].
  exists sel, a, ph.
  rewrite G7, G1.
  2:{ right. intros HN. apply Hc. rewrite HN. reflexivity. }
  split; [reflexivity|]. split; [exact G2|].
  split; [|auto].
  intros h Hh. rewrite Forall_forall in G3. specialize (G3 h Hh).
  cbv beta in G3. apply in_map_iff.
  exists (Z.to_nat (h - 1)). split; [lia|]. apply in_seq. lia.
Qed.

Lemma extract_harmonics_none times signal signal_err p_orb :
  h_candidates times p_orb = [] ->
  extract_harmonics times signal signal_err p_orb = None.
Proof.
  intros Hc. unfold extract_harmonics. cbv zeta. rewrite Hc. reflexivity.
Qed.

(** X20.  [extract_harmonics] fails exactly when there is no candidate
    harmonic, on the unbound [model] of its last line.  Otherwise its
    frequencies are multiples [h / p_orb] of candidates [h] taken in
    strictly increasing order, the three arrays are of one length, and
    every phase lies in [[-pi, pi)]. *)
Theorem extract_harmonics_multiples times signal signal_err p_orb :
  (2 <= length times)%nat ->
  match extract_harmonics times signal signal_err p_orb with
  | Some (_, (f_n_h, a_n_h, ph_n_h)) =>
      h_candidates times p_orb <> [] /\
      (exists hs,
          f_n_h = map (fun h => IZR h / p_orb) hs
          /\ StronglySorted Z.lt hs /\ incl hs (h_candidates times p_orb))
      /\ length a_n_h = length f_n_h /\ length ph_n_h = length f_n_h
      /\ Forall wrapped ph_n_h
  | None => h_candidates times p_orb = []
  end.
Proof.
  intros _.
  destruct (h_candidates times p_orb) as [|h0 hs0] eqn:Hc.
  - rewrite (extract_harmonics_none _ _ _ _ Hc). reflexivity.
  - destruct (extract_harmonics_run times signal signal_err p_orb)
      as [sel [a [ph [E [Hs [Hi [La [Lph W]]]]]]]];
      [rewrite Hc; discriminate|].
    rewrite E. split; [discriminate|].
    split; [exists sel; rewrite <- Hc; auto|].
    rewrite length_map. auto.
Qed.

Lemma sub_shifted (mu : R) (xs ys : list R) :
  Np.sub (map (fun v => v - mu) xs) ys
  = map (fun v => v - mu) (Np.sub xs ys).
Proof.
  unfold Np.sub. revert ys.
  induction xs as [|x xs IH]; intros [|y ys]; cbn [map Np.map2]; auto.
  rewrite IH. f_equal. ring.
Qed.

Lemma mean_shifted (mu : R) (xs : list R) :
  xs <> [] -> Np.mean (map (fun v => v - mu) xs) + mu = Np.mean xs.
Proof.
  intros Hx. unfold Np.mean. rewrite length_map.
  assert (Hn : INR (length xs) <> 0).
  { destruct xs as [|x xs]; [congruence|].
    change (length (x :: xs)) with (S (length xs)). rewrite S_INR.
    pose proof (pos_INR (length xs)). lra. }
  assert (Hs : Np.sum (map (fun v => v - mu) xs)
               = Np.sum xs - mu * INR (length xs)).
  { clear. unfold Np.sum.
    assert (G : forall l a b, fold_left Rplus (map (fun v => v - mu) l) a
                              = fold_left Rplus l b + (a - b)
                                - mu * INR (length l)).
    { induction l as [|x l IH]; intros a b.
      - simpl. ring.
      - cbn [map fold_left]. rewrite (IH (a + (x - mu)) (b + x)).
        change (length (x :: l)) with (S (length l)). rewrite S_INR. ring. }
    rewrite (G xs 0 0). ring. }
  rewrite Hs. field. exact Hn.
Qed.

(** X21.  The constant [extract_harmonics] returns is the mean of the
    signal minus the model of the harmonics returned. *)
Theorem extract_harmonics_constant times signal signal_err p_orb
  const_r f_n_h a_n_h ph_n_h :
  (2 <= length times)%nat ->
  length signal = length times ->
  extract_harmonics times signal signal_err p_orb
  = Some (const_r, (f_n_h, a_n_h, ph_n_h)) ->
  const_r = Np.mean (Np.sub signal (sum_sines times f_n_h a_n_h ph_n_h)).
Proof.
  intros Ht Hl H.
  destruct (h_candidates times p_orb) as [|h0 hs0] eqn:Hc.
  - rewrite (extract_harmonics_none _ _ _ _ Hc) in H. discriminate.
  - destruct (extract_harmonics_run times signal signal_err p_orb)
      as [sel [a [ph [E _]]]]; [rewrite Hc; discriminate|].
    rewrite E in H. injection H as <- <- <- <-.
    rewrite sub_shifted. apply mean_shifted.
    intros Hnil. apply (f_equal (@length R)) in Hnil.
    unfold Np.sub in Hnil.
    rewrite map2_length, sum_sines_length, Hl, Nat.min_id in Hnil.
    cbn [length] in Hnil. lia.
Qed.

(** ** [refine_subset] touches the listed frequencies only *)





(** ** [refine_subset_harmonics] keeps the harmonics *)





(** ** [extract_additional_harmonics] only appends *)






(** ** The reduction stages terminate *)

(** X25.  [reduce_frequencies] terminates: each of its [while] loops ends
    within as many sweeps as it has candidates, plus two, so that a call
    returns a result or raises. *)
Theorem reduce_frequencies_terminates times signal signal_err const slope
  (s : sines) i_sectors :
  (exists r,
      reduce_frequencies times signal signal_err const slope s i_sectors
      = Done r)
  \/ (exists e,
         reduce_frequencies times signal signal_err const slope s i_sectors
         = Raised e).
Proof.
  destruct (reduce_frequencies times signal signal_err const slope s
                               i_sectors) as [r|e|] eqn:E.
  - left. exists r. reflexivity.
  - right. exists e. reflexivity.
  - exfalso.
    exact (reduce_frequencies_no_fuel times signal signal_err const slope s
                                      i_sectors E).
Qed.

(** X26.  [reduce_frequencies_harmonics] terminates: the [while] loops
    of its three passes end within as many sweeps as the pass has
    candidates, plus two, so that a call returns a result or raises. *)
Theorem reduce_frequencies_harmonics_terminates times signal signal_err p_orb
  const slope (s : sines) i_sectors :
  (exists r,
      reduce_frequencies_harmonics times signal signal_err p_orb const slope
                                   s i_sectors
      = Done r)
  \/ (exists e,
         reduce_frequencies_harmonics times signal signal_err p_orb const
                                      slope s i_sectors
         = Raised e).
Proof.
  destruct (reduce_frequencies_harmonics times signal signal_err p_orb const
                                         slope s i_sectors) as [r|e|] eqn:E.
  - left. exists r. reflexivity.
  - right. exists e. reflexivity.
  - exfalso.
    exact (reduce_frequencies_harmonics_no_fuel times signal signal_err p_orb
                                                const slope s i_sectors E).
Qed.

(** ** The period uncertainty *)

Lemma sum_pos (l : list R) :
  l <> [] -> Forall (fun x => 0 < x) l -> 0 < Np.sum l.
Proof.
  intros Hl H. induction H as [|x l Hx Hf IH]; [congruence|].
  rewrite sum_cons. destruct l as [|y l].
  - rewrite sum_nil. lra.
  - assert (0 < Np.sum (y :: l)) by (apply IH; discriminate). lra.
Qed.

(** X27.  The period error of [formal_period_uncertainty] is that of a
    weighted mean: with the errors [e] of the harmonics, each divided by
    its harmonic number and none of them zero, it is [p_orb ^ 2] over the
    square root of the sum of [1 / e ^ 2]; the number of harmonics cancels. *)
Theorem formal_period_uncertainty_weighted (p_orb : R) (f_n_err : list R)
  (harmonics : list nat) (harmonic_n : list Z) :
  harmonics <> [] ->
  length harmonic_n = length harmonics ->
  Forall (fun i => (i < length f_n_err)%nat) harmonics ->
  Forall (fun e => e <> 0) (harmonic_errors f_n_err harmonics harmonic_n) ->
  formal_period_uncertainty p_orb f_n_err harmonics harmonic_n
  = p_orb ^ 2
    / sqrt (Np.sum (map (fun e => 1 / e ^ 2)
                        (harmonic_errors f_n_err harmonics harmonic_n))).
Proof.
  intros Hne Hlen _ Hnz. unfold formal_period_uncertainty. cbv zeta.
  set (l := harmonic_errors f_n_err harmonics harmonic_n) in *.
  assert (Hl : l <> []).
  { unfold l, harmonic_errors, Np.take. intros Hnil.
    apply (f_equal (@length R)) in Hnil.
    rewrite map2_length, length_map, Hlen, Nat.min_id in Hnil.
    destruct harmonics; [congruence|discriminate]. }
  assert (Hn : 0 < INR (length l)).
  { destruct l as [|x l']; [congruence|].
    change (length (x :: l')) with (S (length l')). rewrite S_INR.
    pose proof (pos_INR (length l')). lra. }
  set (n := INR (length l)) in *.
  set (W := Np.sum (map (fun e => 1 / e ^ 2) l)).
  assert (HW : 0 < W).
  { apply sum_pos.
    - intros Hnil. apply map_eq_nil in Hnil. congruence.
    - apply Forall_map. eapply Forall_impl; [|exact Hnz].
      intros e He. cbv beta. apply Rdiv_lt_0_compat; [lra|].
      assert (0 < e * e) by nra. simpl. nra. }
  assert (E1 : Np.sum (map (fun e => 1 / e ^ 2 / n ^ 2) l) = W / n ^ 2).
  { rewrite (sum_map_ext _ _ (fun e => / n ^ 2 * (1 / e ^ 2) + 0 * 0))
      by (intros; unfold Rdiv; ring).
    rewrite (sum_map_lin _ (fun e => 1 / e ^ 2) (fun _ => 0)).
    fold W. unfold Rdiv. ring. }
  assert (E2 : Np.sum (map (fun e => 1 / e ^ 2 / n) l) = W / n).
  { rewrite (sum_map_ext _ _ (fun e => / n * (1 / e ^ 2) + 0 * 0))
      by (intros; unfold Rdiv; ring).
    rewrite (sum_map_lin _ (fun e => 1 / e ^ 2) (fun _ => 0)).
    fold W. unfold Rdiv. ring. }
  rewrite E1, E2.
  assert (Hs : sqrt (W / n ^ 2) = sqrt W / n).
  { rewrite sqrt_div_alt by nra. f_equal.
    replace (n ^ 2) with (Rsqr n) by (unfold Rsqr; ring).
    apply sqrt_Rsqr. lra. }
  rewrite Hs.
  assert (Hq : 0 < sqrt W) by (apply sqrt_lt_R0; exact HW).
  assert (Hsq : sqrt W * sqrt W = W) by (apply sqrt_sqrt; lra).
  apply (Rmult_eq_reg_r (sqrt W)); [|lra].
  replace (p_orb ^ 2 / sqrt W * sqrt W) with (p_orb ^ 2) by (field; lra).
  replace (sqrt W / n / (W / n) * p_orb ^ 2 * sqrt W)
    with (sqrt W * sqrt W / W * p_orb ^ 2) by (field; lra).
  rewrite Hsq. field. lra.
Qed.

(** ** Phase dispersion *)

Lemma sq_abs_sum (g : R -> R) (l : list R) :
  Np.sum (map (fun v => Rabs (g v) ^ 2) l) = Np.sum (map (fun v => g v ^ 2) l).
Proof. apply sum_map_ext. intros v. apply pow2_abs. Qed.

(** The mean is where the sum of squared deviations is least. *)
Lemma mean_minimises (l : list R) (m : R) :
  var_no_avg l <= Np.sum (map (fun v => (v - m) ^ 2) l).
Proof.
  unfold var_no_avg. rewrite (sq_abs_sum (fun v => v - Np.mean l)).
  destruct l as [|x l'] eqn:El; [cbn [map]; rewrite sum_nil; lra|].
  rewrite <- El. assert (Hn : INR (length l) <> 0).
  { rewrite El. change (length (x :: l')) with (S (length l')).
    rewrite S_INR. pose proof (pos_INR (length l')). lra. }
  clear El. set (mu := Np.mean l).
  assert (Hsum : Np.sum l = INR (length l) * mu)
    by (unfold mu, Np.mean; field; exact Hn).
  assert (H0 : Np.sum (map (fun v => v - mu) l) = 0).
  { rewrite (sum_map_ext _ _ (fun v => 1 * v + (- mu) * 1))
      by (intros; ring).
    rewrite (sum_map_lin _ (fun v => v) (fun _ => 1)).
    rewrite map_id, sum_map_const, Hsum. ring. }
  rewrite (sum_map_ext _ (fun v => (v - m) ^ 2)
             (fun v => 1 * (v - mu) ^ 2
                       + 1 * (2 * (mu - m) * (v - mu) + (mu - m) ^ 2 * 1)))
    by (intros; ring).
  rewrite (sum_map_lin _ (fun v => (v - mu) ^ 2)
                       (fun v => 2 * (mu - m) * (v - mu) + (mu - m) ^ 2 * 1)).
  rewrite (sum_map_lin _ (fun v => v - mu) (fun _ => 1)).
  rewrite H0, sum_map_const.
  pose proof (pow2_ge_0 (mu - m)). pose proof (pos_INR (length l)).
  assert (0 <= (mu - m) ^ 2 * (1 * INR (length l))) by nra.
  lra.
Qed.

Lemma var_no_avg_nonneg (l : list R) : 0 <= var_no_avg l.
Proof.
  unfold var_no_avg. rewrite (sq_abs_sum (fun v => v - Np.mean l)).
  apply (sum_squares_nonneg _ (fun v => v - Np.mean l)).
Qed.

Lemma sum_nonneg (l : list R) : Forall (fun x => 0 <= x) l -> 0 <= Np.sum l.
Proof.
  induction 1 as [|x l Hx _ IH]; [rewrite sum_nil; lra|].
  rewrite sum_cons. lra.
Qed.

Lemma sum_le (A : Type) (f g : A -> R) (l : list A) :
  (forall x, f x <= g x) -> Np.sum (map f l) <= Np.sum (map g l).
Proof.
  intros H. induction l as [|x l IH]; cbn [map]; [lra|].
  rewrite !sum_cons. specialize (H x). lra.
Qed.

Lemma sum_map_plus (A : Type) (f g : A -> R) (l : list A) :
  Np.sum (map (fun x => f x + g x) l) = Np.sum (map f l) + Np.sum (map g l).
Proof.
  rewrite (sum_map_ext _ _ (fun x => 1 * f x + 1 * g x)) by (intros; ring).
  rewrite sum_map_lin. ring.
Qed.

(** The bins: consecutive edges. *)
Lemma consecutive_edges (e : nat -> R) :
  forall n a,
    combine (removelast (map e (seq a (S n)))) (tl (map e (seq a (S n))))
    = map (fun k => (e k, e (S k))) (seq a n).
Proof.
  induction n as [|n IH]; intros a; [reflexivity|].
  specialize (IH (S a)).
  cbn [seq map tl] in IH.
  cbn [seq map tl removelast combine].
  cbn [removelast] in IH.
  f_equal. exact IH.
Qed.

(** A point is in one bin at most. *)
Lemma one_bin (e : nat -> R) (x c : R) :
  (forall j k, (j <= k)%nat -> e j <= e k) -> 0 <= c ->
  forall n a,
    Np.sum (map (fun k => if inside (e k, e (S k)) x then c else 0) (seq a n))
    <= c.
Proof.
  intros He Hc. induction n as [|n IH]; intros a; cbn [seq map].
  - rewrite sum_nil. exact Hc.
  - rewrite sum_cons. destruct (inside (e a, e (S a)) x) eqn:E.
    + assert (Hz : Np.sum (map (fun k => if inside (e k, e (S k)) x
                                         then c else 0) (seq (S a) n)) = 0).
      { rewrite (map_ext_in _ (fun _ => 0)).
        - rewrite sum_map_const. ring.
        - intros k Hk. apply in_seq in Hk.
          unfold inside in *. cbn [fst snd] in *.
          apply andb_true_iff in E. destruct E as [_ E].
          apply Rltb_true in E.
          assert (e (S a) <= e k) by (apply He; lia).
          assert (Hf : Rleb (e k) x = false).
          { unfold Rleb. destruct (Rle_dec (e k) x); [lra|reflexivity]. }
          rewrite Hf. reflexivity. }
      rewrite Hz. lra.
    + specialize (IH (S a)). lra.
Qed.


Lemma sum_map_zero (A : Type) (f : A -> R) (l : list A) :
  (forall x, f x = 0) -> Np.sum (map f l) = 0.
Proof.
  intros H. induction l as [|x l IH]; cbn [map]; [apply sum_nil|].
  rewrite sum_cons, IH, H. ring.
Qed.

(** Summed over the bins, a non-negative quantity of the points in a bin
    does not exceed its sum over all points. *)
Lemma bins_disjoint (e : nat -> R) (g : R -> R) (n : nat) :
  (forall j k, (j <= k)%nat -> e j <= e k) ->
  (forall v, 0 <= g v) ->
  forall pts : list (R * R),
    Np.sum (map (fun k =>
                   Np.sum (map g (map snd
                                      (filter (fun ps => inside (e k, e (S k))
                                                                (fst ps))
                                              pts))))
                (seq 0 n))
    <= Np.sum (map g (map snd pts)).
Proof.
  intros He Hg. induction pts as [|[x y] pts IH].
  - rewrite sum_map_zero by (intros; reflexivity).
    cbn [map]. rewrite sum_nil. lra.
  - cbn [map snd]. rewrite sum_cons.
    rewrite (map_ext _
               (fun k =>
                  (if inside (e k, e (S k)) x then g y else 0)
                  + Np.sum (map g (map snd
                                       (filter (fun ps => inside (e k, e (S k))
                                                                 (fst ps))
                                               pts))))).
    + rewrite sum_map_plus.
      pose proof (one_bin e x (g y) He (Hg y) n 0%nat). lra.
    + intros k. cbn [filter fst].
      destruct (inside (e k, e (S k)) x); cbn [map snd].
      * rewrite sum_cons. reflexivity.
      * ring.
Qed.

Lemma linspace_monotone (start stop : R) (n : nat) :
  start <= stop ->
  forall j k, (j <= k)%nat ->
    start + INR j * ((stop - start) / INR (S n))
    <= start + INR k * ((stop - start) / INR (S n)).
Proof.
  intros Hs j k Hjk.
  assert (0 < INR (S n)) by (rewrite S_INR; pose proof (pos_INR n); lra).
  assert (0 <= (stop - start) / INR (S n)).
  { apply Rmult_le_pos; [lra|]. apply Rlt_le, Rinv_0_lt_compat. lra. }
  apply le_INR in Hjk. nra.
Qed.

(** X28.  The phase dispersion of a signal that varies lies between 0
    and 1: the bins are disjoint, and within a bin the squared deviations
    from the mean of the bin sum to no more than those from the mean of the
    signal. *)
Theorem phase_dispersion_bounds (phases signal : list R) (n_bins : nat) :
  length phases = length signal ->
  0 < var signal ->
  0 <= phase_dispersion phases signal n_bins <= 1.
Proof.
  intros Hlen Hvar. unfold phase_dispersion. cbv zeta.
  set (m := Np.mean signal).
  set (T := Np.sum (map (fun v => (v - m) ^ 2) signal)).
  assert (HvT : var signal = T / INR (length signal)).
  { unfold var, Np.mean at 1. rewrite length_map. f_equal.
    apply (sq_abs_sum (fun v => v - Np.mean signal)). }
  assert (Hn : 0 < INR (length signal)).
  { destruct signal as [|x l].
    - exfalso. rewrite HvT in Hvar. cbn [length INR] in Hvar.
      unfold Rdiv in Hvar. rewrite Rinv_0 in Hvar. lra.
    - change (length (x :: l)) with (S (length l)). rewrite S_INR.
      pose proof (pos_INR (length l)). lra. }
  assert (HT : 0 < T).
  { rewrite HvT in Hvar.
    apply (Rmult_lt_compat_r (INR (length signal))) in Hvar; [|exact Hn].
    unfold Rdiv in Hvar. rewrite Rmult_assoc, Rinv_l in Hvar by lra. lra. }
  set (binned :=
         map (fun '(b1, b2) =>
                if (0 <? length (in_bin phases signal b1 b2))%nat
                then var_no_avg (in_bin phases signal b1 b2) else 0)
             (combine (removelast (linspace (- 0.5) 0.5 n_bins))
                      (tl (linspace (- 0.5) 0.5 n_bins)))).
  assert (Hb : 0 <= Np.sum binned <= T).
  { unfold binned, linspace.
    rewrite (consecutive_edges
               (fun k => - 0.5 + INR k * ((0.5 - - 0.5) / INR n_bins))).
    rewrite map_map. split.
    - apply sum_nonneg. apply Forall_map, Forall_forall. intros k _.
      destruct (0 <? _)%nat; [apply var_no_avg_nonneg|lra].
    - destruct n_bins as [|n]; [cbn [seq map]; rewrite sum_nil; lra|].
      set (e := fun k => - 0.5 + INR k * ((0.5 - - 0.5) / INR (S n))).
      eapply Rle_trans.
      + apply (sum_le _ _
                 (fun k =>
                    Np.sum (map (fun v => (v - m) ^ 2)
                                (map snd
                                     (filter (fun ps => inside (e k, e (S k))
                                                               (fst ps))
                                             (combine phases signal)))))).
        intros k. fold (e k) (e (S k)).
        change (in_bin phases signal (e k) (e (S k)))
          with (map snd (filter (fun ps => inside (e k, e (S k)) (fst ps))
                                (combine phases signal))).
        destruct (0 <? _)%nat.
        * apply mean_minimises.
        * apply (sum_squares_nonneg _ (fun v => v - m)).
      + eapply Rle_trans.
        * apply (bins_disjoint e (fun v => (v - m) ^ 2) (S n)).
          -- intros j k Hjk. apply linspace_monotone; [lra|exact Hjk].
          -- intros v. apply pow2_ge_0.
        * rewrite combine_snd by (symmetry; exact Hlen). unfold T. lra. }
  fold binned. rewrite HvT.
  replace (Np.sum binned / INR (length signal) / (T / INR (length signal)))
    with (Np.sum binned / T) by (field; lra).
  destruct Hb as [Hb1 Hb2]. split.
  - apply Rmult_le_pos; [exact Hb1|]. apply Rlt_le, Rinv_0_lt_compat. exact HT.
  - apply (Rmult_le_reg_r T); [exact HT|].
    unfold Rdiv. rewrite Rmult_assoc, Rinv_l by lra. lra.
Qed.

(** ** The window of [extract_single] *)

Lemma pyint_le (x : R) : 0 <= x -> IZR (Np.pyint x) <= x.
Proof.
  intros Hx. unfold Np.pyint. destruct (Rle_dec 0 x); [|contradiction].
  destruct (base_Int_part x) as [H _]. exact H.
Qed.

Lemma pyint_neg (x : R) : x < 0 -> (Np.pyint x <= 0)%Z.
Proof.
  intros Hx. unfold Np.pyint. destruct (Rle_dec 0 x); [lra|].
  assert (H : (0 <= Int_part (- x))%Z) by (apply Int_part_nonneg; lra).
  lia.
Qed.

(** A frequency of a grid of [nf = int(x) + 1] points with the step [df]
    is not beyond the larger of the start and [start + x * df]. *)
Lemma grid_point_bound (lo df x : R) (p : nat) :
  0 < df ->
  (Z.of_nat p < Np.pyint x + 1)%Z ->
  lo <= lo + INR p * df <= Rmax lo (lo + x * df).
Proof.
  intros Hdf Hp. split.
  - assert (0 <= INR p * df) by (apply Rmult_le_pos; [apply pos_INR|lra]).
    lra.
  - destruct (Rle_dec 0 x) as [Hx|Hx].
    + pose proof (pyint_le x Hx) as Hle.
      assert (Hpi : INR p <= IZR (Np.pyint x)).
      { rewrite INR_IZR_INZ. apply IZR_le. lia. }
      assert (INR p * df <= x * df) by (apply Rmult_le_compat_r; lra).
      eapply Rle_trans; [|apply Rmax_r]. lra.
    + assert (Hn : (Np.pyint x <= 0)%Z) by (apply pyint_neg; lra).
      assert (p = 0%nat) by lia. subst p. cbn [INR].
      eapply Rle_trans; [|apply Rmax_l]. lra.
Qed.

(** X29.  With an upper limit [fn] given and a first grid that is not
    empty, [extract_single] returns, and its frequency lies in the window
    it scanned: not below the floor [0.01 / T], nor more than one step
    [df = 0.1 / T] below the start of the grid, and not more than
    [1.00001] steps above the larger of the start and [fn + 0.001 * df]. *)
Theorem extract_single_window times signal f0 fn :
  0 < Np.ptp times ->
  fn <> 0 ->
  (1 <= grid_size times f0 fn (0.1 / Np.ptp times))%Z ->
  exists f a ph,
    extract_single times signal f0 fn = Done (f, a, ph) /\
    Rmax (Rmax f0 (0.01 / Np.ptp times) - 0.1 / Np.ptp times)
         (0.01 / Np.ptp times) <= f /\
    f <= Rmax (Rmax f0 (0.01 / Np.ptp times))
              (fn + 0.001 * (0.1 / Np.ptp times))
         + (1 + 1 / 100000) * (0.1 / Np.ptp times).
Proof.
  intros HT Hfn Hnf. unfold extract_single, grid_size in *.
  set (T := Np.ptp times) in *.
  set (df := 0.1 / T) in *. set (floor := 0.01 / T) in *.
  assert (Hdf : 0 < df) by (apply Rdiv_lt_0_compat; lra).
  assert (Hlo : 0 < floor) by (apply Rdiv_lt_0_compat; lra).
  set (lo := Rmax f0 floor) in *.
  assert (Hg : scargle_grid times f0 fn df
               = (lo, df, (Np.pyint ((fn - lo) / df + 0.001) + 1)%Z)).
  { unfold scargle_grid. fold T floor lo.
    destruct (Req_dec_T df 0); [lra|].
    destruct (Req_dec_T fn 0); [contradiction|]. reflexivity. }
  rewrite Hg in Hnf. cbn [snd] in Hnf.
  destruct (scargle_done times signal f0 fn df _ _ _ Hg)
    as [f1 [s1 [Hs [Hl1 [Hl2 [Hf Hz]]]]]]; [lia|].
  rewrite Hs. cbn [bind].
  destruct (argmax_done s1) as [p1 [Hp1 Hb1]];
    [eapply all_zero_nonempty_length; eauto|].
  rewrite Hp1. cbn [bind].
  set (fp := nth p1 f1 0).
  assert (Hfp : lo <= fp <= Rmax lo (fn + 0.001 * df)).
  { unfold fp. rewrite Hf by lia.
    pose proof (grid_point_bound lo df ((fn - lo) / df + 0.001) p1 Hdf) as G.
    replace (lo + ((fn - lo) / df + 0.001) * df) with (fn + 0.001 * df) in G.
    2:{ rewrite Rmult_plus_distr_r.
        replace ((fn - lo) / df * df) with (fn - lo) by (field; lra). lra. }
    apply G. lia. }
  assert (Hfloor : floor <= fp).
  { assert (floor <= lo) by apply Rmax_r. lra. }
  set (L := Rmax (fp - df) floor).
  assert (HL : fp - df <= L <= fp + df).
  { split; [apply Rmax_l|apply Rmax_lub; lra]. }
  assert (Hg2 : scargle_grid times L (fp + df) (df / 100)
                = (L, df / 100,
                   (Np.pyint ((fp + df - L) / (df / 100) + 0.001) + 1)%Z)).
  { unfold scargle_grid. fold T floor.
    rewrite (Rmax_left L floor) by apply Rmax_r.
    destruct (Req_dec_T (df / 100) 0); [lra|].
    destruct (Req_dec_T (fp + df) 0); [lra|]. reflexivity. }
  assert (Hx2 : 0 <= (fp + df - L) / (df / 100) + 0.001).
  { assert (0 <= (fp + df - L) / (df / 100))
      by (apply Rle_mult_inv_pos; lra).
    lra. }
  destruct (scargle_done times signal _ _ _ _ _ _ Hg2)
    as [f2 [s2 [Hs2 [Hl3 [Hl4 [Hf2 Hz2]]]]]].
  { pose proof (pyint_nonneg _ Hx2). lia. }
  rewrite Hs2. cbn [bind].
  destruct (argmax_done s2) as [p2 [Hp2 Hb2]].
  { eapply all_zero_nonempty_length; [exact Hl4|].
    pose proof (pyint_nonneg _ Hx2). lia. }
  rewrite Hp2. cbn [bind].
  eexists; eexists; eexists. split; [reflexivity|].
  rewrite Hf2 by lia.
  assert (Hd100 : 0 < df / 100) by lra.
  pose proof (grid_point_bound L (df / 100)
                ((fp + df - L) / (df / 100) + 0.001) p2 Hd100) as G.
  assert (E : L + ((fp + df - L) / (df / 100) + 0.001) * (df / 100)
              = fp + df + df / 100000).
  { rewrite Rmult_plus_distr_r.
    replace ((fp + df - L) / (df / 100) * (df / 100)) with (fp + df - L)
      by (field; lra).
    lra. }
  rewrite E in G.
  assert (Hp2' : (Z.of_nat p2
                  < Np.pyint ((fp + df - L) / (df / 100) + 0.001) + 1)%Z)
    by lia.
  specialize (G Hp2'). rewrite Rmax_right in G by lra.
  destruct Hfp as [Hfp1 Hfp2]. destruct HL as [HL1 HL2].
  assert (HL3 : Rmax (lo - df) floor <= L).
  { apply Rmax_lub; [lra|apply Rmax_r]. }
  lra.
Qed.

(** ** The extraction under a rescaled signal *)

Lemma scargle_inner_scale (c sd cd m3 m4 : R) :
  forall acc a b m1 m2,
    scargle_inner (c * a) (c * b) m1 m2 sd cd m3 m4 (map (scale_sums c) acc)
    = map (scale_sums c) (scargle_inner a b m1 m2 sd cd m3 m4 acc).
Proof.
  induction acc as [|[[[ss sc] ss2] sc2] acc IH]; intros a b m1 m2;
    cbn [map scargle_inner scale_sums]; [reflexivity|].
  replace (c * a * cd + c * b * sd) with (c * (a * cd + b * sd)) by ring.
  replace (c * b * cd - c * a * sd) with (c * (b * cd - a * sd)) by ring.
  rewrite IH. f_equal.
  repeat match goal with |- (_, _) = (_, _) => f_equal end; ring.
Qed.

Lemma scargle_row_scale (c f0 df t s : R) (acc : list (R * R * R * R)) :
  scargle_row f0 df (map (scale_sums c) acc) (t, c * s)
  = map (scale_sums c) (scargle_row f0 df acc (t, s)).
Proof.
  unfold scargle_row. cbv zeta.
  rewrite <- scargle_inner_scale. f_equal; ring.
Qed.

Lemma scargle_fold_scale (c f0 df : R) :
  forall ts sg acc,
    fold_left (scargle_row f0 df) (combine ts (map (Rmult c) sg))
              (map (scale_sums c) acc)
    = map (scale_sums c) (fold_left (scargle_row f0 df) (combine ts sg) acc).
Proof.
  induction ts as [|t ts IH]; intros [|s sg] acc;
    cbn [map combine fold_left]; try reflexivity.
  rewrite scargle_row_scale. apply IH.
Qed.

Lemma scale_sums_zeros (c : R) (n : nat) :
  repeat (0, 0, 0, 0) n = map (scale_sums c) (repeat (0, 0, 0, 0) n).
Proof.
  induction n as [|n IH]; cbn [repeat map scale_sums]; [reflexivity|].
  rewrite <- IH, Rmult_0_r. reflexivity.
Qed.

Lemma scargle_power_scale (c n : R) (q : R * R * R * R) :
  0 <= c ->
  sqrt (4 / n) * sqrt (scargle_power n (scale_sums c q))
  = c * (sqrt (4 / n) * sqrt (scargle_power n q)).
Proof.
  intros Hc. destruct q as [[[ss sc] ss2] sc2].
  unfold scargle_power, scale_sums.
  replace (((c * sc) ^ 2 * (n - sc2) + (c * ss) ^ 2 * (n + sc2)
            - 2 * (c * ss) * (c * sc) * ss2)
           / (n ^ 2 - sc2 ^ 2 - ss2 ^ 2))
    with (c ^ 2 * ((sc ^ 2 * (n - sc2) + ss ^ 2 * (n + sc2)
                    - 2 * ss * sc * ss2)
                   / (n ^ 2 - sc2 ^ 2 - ss2 ^ 2)))
    by (unfold Rdiv; ring).
  rewrite sqrt_mult_alt by apply pow2_ge_0.
  replace (c ^ 2) with (Rsqr c) by (unfold Rsqr; ring).
  rewrite sqrt_Rsqr by exact Hc. ring.
Qed.

(** The periodogram of a signal multiplied by [c >= 0]: the frequencies
    are the same and every amplitude is multiplied by [c]. *)
Lemma scargle_scale (times signal : list R) (f0 fn df c : R) f1 s1 :
  0 <= c ->
  scargle times signal f0 fn df = Done (f1, s1) ->
  scargle times (map (Rmult c) signal) f0 fn df
  = Done (f1, map (Rmult c) s1).
Proof.
  intros Hc. unfold scargle. rewrite length_map.
  destruct (scargle_grid times f0 fn df) as [[f0' df'] nf].
  destruct (nf <? 0)%Z; [discriminate|].
  rewrite (scale_sums_zeros c), scargle_fold_scale, <- scale_sums_zeros.
  intros H. injection H as <- <-. rewrite !map_map.
  f_equal. f_equal. apply map_ext. intros q.
  apply scargle_power_scale. exact Hc.
Qed.

Lemma argmax_from_scale (c : R) (xs : list R) :
  0 < c ->
  forall k best v,
    Np.argmax_from k best (c * v) (map (Rmult c) xs)
    = Np.argmax_from k best v xs.
Proof.
  intros Hc. induction xs as [|x xs IH]; intros k best v;
    cbn [map Np.argmax_from]; [reflexivity|].
  assert (E : Rltb (c * v) (c * x) = Rltb v x).
  { unfold Rltb. destruct (Rlt_dec v x) as [H|H];
      destruct (Rlt_dec (c * v) (c * x)) as [H'|H']; try reflexivity;
      exfalso; [apply H'|apply H]; nra. }
  rewrite E. destruct (Rltb v x); apply IH.
Qed.

Lemma argmax_scale (c : R) (xs : list R) :
  0 < c -> Np.argmax (map (Rmult c) xs) = Np.argmax xs.
Proof.
  intros Hc. destruct xs as [|x xs]; cbn [map Np.argmax]; [reflexivity|].
  rewrite argmax_from_scale by exact Hc. reflexivity.
Qed.

Lemma nth_scale (c : R) (p : nat) (xs : list R) :
  nth p (map (Rmult c) xs) 0 = c * nth p xs 0.
Proof.
  rewrite <- (Rmult_0_r c) at 1. apply (map_nth (Rmult c)).
Qed.

(** X30.  [extract_single] follows the scale of the signal: multiplying
    the signal by a positive factor [c] leaves the frequency and the phase
    as they are and multiplies the amplitude by [c]. *)
Theorem extract_single_scale (times signal : list R) (f0 fn c f a ph : R) :
  length times = length signal ->
  0 < c ->
  extract_single times signal f0 fn = Done (f, a, ph) ->
  extract_single times (map (Rmult c) signal) f0 fn = Done (f, c * a, ph).
Proof.
  intros _ Hc. unfold extract_single. cbv zeta.
  destruct (scargle times signal f0 fn (0.1 / Np.ptp times))
    as [[freqs ampls]| |] eqn:E1; cbn [bind]; try discriminate.
  rewrite (scargle_scale _ _ _ _ _ c _ _ (Rlt_le _ _ Hc) E1). cbn [bind].
  rewrite argmax_scale by exact Hc.
  destruct (Np.argmax ampls) as [p1| |]; cbn [bind]; try discriminate.
  match goal with
  | |- context [scargle times signal ?l ?r ?d] =>
      destruct (scargle times signal l r d) as [[fr ar]| |] eqn:E2
  end; cbn [bind]; try discriminate.
  rewrite (scargle_scale _ _ _ _ _ c _ _ (Rlt_le _ _ Hc) E2). cbn [bind].
  rewrite argmax_scale by exact Hc.
  destruct (Np.argmax ar) as [p2| |]; cbn [bind]; try discriminate.
  intros H. injection H as <- <- <-.
  rewrite nth_scale. f_equal. f_equal.
  unfold scargle_phase_single. cbv zeta. rewrite scargle_sums_scale.
  destruct (scargle_sums times signal (nth p2 fr 0)
                         (scargle_tau times (nth p2 fr 0)))
    as [[[s_cos cos_2] s_sin] sin_2].
  replace (c * s_sin / sqrt sin_2) with (c * (s_sin / sqrt sin_2))
    by (unfold Rdiv; ring).
  replace (c * s_cos / sqrt cos_2) with (c * (s_cos / sqrt cos_2))
    by (unfold Rdiv; ring).
  rewrite arctan2_scale by exact Hc. reflexivity.
Qed.

End Engine.

(** * The stages on concrete inputs *)

(** The runs below instantiate the matchers with [AfModel].  They give the
    inputs on which the properties above are exercised, and the inputs on
    which a stage leaves what the specification says of it. *)

(** ** The modelled matchers *)

Ltac rcalc :=
  unfold Rmax, Rmin; repeat (destruct (Rle_dec _ _)); try lra.

Lemma Int_part_IZR (n : Z) : Int_part (IZR n) = n.
Proof. symmetry. apply Int_part_spec. lra. Qed.

Lemma rint_IZR (n : Z) : Np.rint (IZR n) = n.
Proof.
  unfold Np.rint, frac_part. rewrite Int_part_IZR.
  destruct (Rlt_dec (IZR n - IZR n) (1 / 2)); [reflexivity|lra].
Qed.

Lemma Reqb_refl (a : R) : Reqb a a = true.
Proof. unfold Reqb. destruct (Req_dec_T a a); [reflexivity|contradiction]. Qed.

Lemma Rltb_irrefl (a : R) : Rltb a a = false.
Proof. apply Rltb_false. lra. Qed.

(** A frequency that is a multiple of [1 / p_orb] to the digit is matched
    to that multiple, whatever the tolerance. *)
Lemma AfModel_harmonic_number_exact (p_orb : R) (n : Z) :
  0 < p_orb -> AfModel.harmonic_number p_orb (IZR n / p_orb) = n.
Proof.
  intros Hp. unfold AfModel.harmonic_number.
  replace (IZR n / p_orb * p_orb) with (IZR n) by (field; lra).
  apply rint_IZR.
Qed.

Lemma AfModel_offset_exact (p_orb : R) (n : Z) :
  0 < p_orb -> AfModel.offset p_orb (IZR n / p_orb) = 0.
Proof.
  intros Hp. unfold AfModel.offset.
  rewrite AfModel_harmonic_number_exact by exact Hp.
  rewrite Rminus_diag. apply Rabs_R0.
Qed.

Lemma AfModel_find_harmonics_single (p_orb f_tol : R) (n : Z) :
  0 < p_orb -> 0 < f_tol -> (1 <= n)%Z ->
  AfModel.find_harmonics [IZR n / p_orb] p_orb f_tol = ([0%nat], [n]).
Proof.
  intros Hp Htol Hn. unfold AfModel.find_harmonics.
  cbn [length Np.arange seq filter].
  assert (Hw : AfModel.within p_orb f_tol (IZR n / p_orb) = true).
  { unfold AfModel.within.
    rewrite AfModel_harmonic_number_exact, AfModel_offset_exact by exact Hp.
    apply andb_true_intro. split; [apply Z.leb_le; exact Hn|].
    apply Rltb_true. exact Htol. }
  assert (Hh : AfModel.is_harmonic [IZR n / p_orb] p_orb f_tol 0 = true).
  { unfold AfModel.is_harmonic. cbn [nth length Np.arange seq existsb].
    rewrite Hw. unfold AfModel.beats. cbn [nth].
    rewrite Rltb_irrefl, Reqb_refl. cbn. rewrite !andb_false_r. reflexivity. }
  rewrite Hh. cbn [map nth].
  rewrite AfModel_harmonic_number_exact by exact Hp. reflexivity.
Qed.







(** ** A harmonic locked at the phase [- PI] *)

(** Three points, a residual [-1] at the first: at the frequency [1 / 4]
    the time origin of the periodogram is [tau = 1], the residual is a
    negative cosine there, and its phase as a sine is [- PI]. *)
Lemma arctan2_negative_axis (x : R) : x < 0 -> Np.arctan2 0 x = PI.
Proof.
  intros Hx. unfold Np.arctan2.
  destruct (Rlt_dec 0 x); [lra|]. destruct (Rlt_dec x 0); [|lra].
  destruct (Rle_dec 0 0); [|lra].
  replace (0 / x) with 0 by (field; lra). rewrite atan_0. lra.
Qed.

Lemma cos_3PI : cos (PI + 2 * PI) = -1.
Proof. rewrite cos_plus, cos_2PI, sin_2PI, cos_PI, sin_PI. lra. Qed.

Lemma sin_3PI : sin (PI + 2 * PI) = 0.
Proof. rewrite sin_plus, cos_2PI, sin_2PI, cos_PI, sin_PI. lra. Qed.

Lemma scargle_tau_quarter : scargle_tau [1; 2; 3] (1 / 4) = 1.
Proof.
  unfold scargle_tau. cbv [fold_left].
  replace (4 * PI * (1 / 4) * 1) with PI by field.
  replace (4 * PI * (1 / 4) * 2) with (2 * PI) by field.
  replace (4 * PI * (1 / 4) * 3) with (PI + 2 * PI) by field.
  rewrite cos_PI, sin_PI, cos_2PI, sin_2PI, cos_3PI, sin_3PI.
  replace (0 + 0 + 0 + 0) with 0 by lra.
  rewrite arctan2_negative_axis by lra.
  field. apply PI_neq0.
Qed.

Lemma scargle_sums_quarter :
  scargle_sums [1; 2; 3] [-1; 0; 0] (1 / 4) 1 = (-1, 2, 0, 1).
Proof.
  unfold scargle_sums. cbv [fold_left combine].
  replace (2 * PI * (1 / 4) * (1 - 1)) with 0 by field.
  replace (2 * PI * (1 / 4) * (2 - 1)) with (PI / 2) by field.
  replace (2 * PI * (1 / 4) * (3 - 1)) with PI by field.
  rewrite cos_0, sin_0, cos_PI2, sin_PI2, cos_PI, sin_PI.
  repeat f_equal; lra.
Qed.

Lemma scargle_phase_quarter :
  scargle_phase_single [1; 2; 3] [-1; 0; 0] (1 / 4) = - PI.
Proof.
  unfold scargle_phase_single.
  rewrite scargle_tau_quarter, scargle_sums_quarter.
  rewrite sqrt_1. replace (0 / 1) with 0 by field.
  rewrite arctan2_negative_axis.
  - lra.
  - assert (0 < sqrt 2) by (apply sqrt_lt_R0; lra).
    apply Rmult_lt_reg_r with (r := sqrt 2); [assumption|].
    unfold Rdiv. rewrite Rmult_assoc, Rinv_l by lra. lra.
Qed.

Lemma wrap_phase_minus_PI : wrap_phase (- PI) = - PI.
Proof.
  unfold wrap_phase, Np.pymod.
  replace ((- PI + PI) / (2 * PI)) with (IZR 0) by (field; apply PI_neq0).
  rewrite Int_part_IZR. lra.
Qed.

Lemma ptp_123 : Np.ptp [1; 2; 3] = 2.
Proof. unfold Np.ptp, Np.amax, Np.amin. cbn [fold_left hd]. rcalc. Qed.

Lemma f_tolerance_123 : f_tolerance_of [1; 2; 3] 4 = 1 / 8.
Proof. unfold f_tolerance_of. rewrite ptp_123. rcalc. Qed.

Lemma lock_resid_quarter (s : sines) :
  s = ([1 / 4], [1], [0]) ->
  lock_resid AfModel.find_harmonics_tolerance [1; 2; 3] [-1; 0; 0] 4 (1 / 8)
             [(0, 3)%nat] ([0], [0], s) 1
  = [-1; 0; 0].
Proof.
  intros ->.
  unfold lock_resid, lock_removed, AfModel.find_harmonics_tolerance.
  rewrite (AfModel_find_harmonics_single 4 (1 / 8) 1) by (lra || lia).
  cbv [matched_to combine filter snd fst map Z.eqb Pos.eqb Np.delete Np.delete_from
       Np.mem existsb Nat.eqb linear_curve sum_sines fold_left assign_slice
       Np.zeros repeat length Np.add Np.sub Np.map2 Nat.leb Nat.ltb andb orb].
  repeat f_equal; lra.
Qed.

Lemma tight_tolerance_pos : 0 < AfModel.tight_tolerance.
Proof.
  unfold AfModel.tight_tolerance. apply Rdiv_lt_0_compat; [lra|].
  apply pow_lt. lra.
Qed.

Lemma lock_harmonic_quarter (s : sines) :
  s = ([1 / 4], [1], [0]) ->
  exists const slope a,
    lock_harmonic AfModel.find_harmonics_tolerance [1; 2; 3] [-1; 0; 0] 4
                  (1 / 8) [(0, 3)%nat] ([0], [0], s) 1
    = (const, slope, ([1 / 4], [a], [- PI])).
Proof.
  intros Hs. unfold lock_harmonic. rewrite (lock_resid_quarter s Hs).
  subst s. unfold lock_removed, AfModel.find_harmonics_tolerance.
  rewrite (AfModel_find_harmonics_single 4 (1 / 8) 1) by (lra || lia).
  cbv [matched_to combine filter snd fst map Z.eqb Pos.eqb Np.delete
       Np.delete_from Np.mem existsb Nat.eqb orb app].
  unfold locked_entry. rewrite scargle_phase_quarter, wrap_phase_minus_PI.
  destruct (linear_pars _ _ _) as [const slope].
  exists const, slope. eexists. reflexivity.
Qed.

Lemma locked_model_quarter (s : sines) :
  s = ([1 / 4], [1], [0]) ->
  locked_model AfModel.find_harmonics_tolerance [1; 2; 3] [-1; 0; 0] 4
               ([0], [0], s) [(0, 3)%nat]
  = lock_harmonic AfModel.find_harmonics_tolerance [1; 2; 3] [-1; 0; 0] 4
                  (1 / 8) [(0, 3)%nat] ([0], [0], s) 1.
Proof.
  intros ->. unfold locked_model. rewrite f_tolerance_123. cbn [fst snd].
  unfold AfModel.find_harmonics_tolerance at 1.
  rewrite (AfModel_find_harmonics_single 4 (1 / 8) 1) by (lra || lia).
  reflexivity.
Qed.

Lemma fix_harmonic_frequency_quarter (s : sines) :
  s = ([1 / 4], [1], [0]) ->
  exists const slope a,
    fix_harmonic_frequency AfModel.find_harmonics_tolerance
      AfModel.find_harmonics_from_pattern [1; 2; 3] [-1; 0; 0] 4 [0] [0]
      s [(0, 3)%nat]
    = Done (const, slope, ([1 / 4], [a], [- PI])).
Proof.
  intros Hs. unfold fix_harmonic_frequency.
  rewrite (locked_model_quarter s Hs).
  destruct (lock_harmonic_quarter s Hs) as [const [slope [a E]]].
  rewrite E. exists const, slope, a. subst s. cbn [fst snd].
  rewrite f_tolerance_123.
  unfold AfModel.find_harmonics_tolerance, AfModel.find_harmonics_from_pattern.
  rewrite (AfModel_find_harmonics_single 4 (1 / 8) 1) by (lra || lia).
  rewrite (AfModel_find_harmonics_single 4 AfModel.tight_tolerance 1)
    by (lra || lia || apply tight_tolerance_pos).
  reflexivity.
Qed.

(** C5, counterexample.  [fix_harmonic_frequency] on three points returns
    the phase [- PI], which is outside [(- PI, PI]]: the residual is a
    negative cosine at the time origin the periodogram chooses, its phase
    is [- PI], and the wrap leaves [- PI] where it is. *)
Lemma fix_harmonic_frequency_phase_minus_pi :
  exists r ph,
    fix_harmonic_frequency AfModel.find_harmonics_tolerance
      AfModel.find_harmonics_from_pattern [1; 2; 3] [-1; 0; 0] 4 [0] [0]
      ([1 / 4], [1], [0]) [(0, 3)%nat] = Done r /\
    In ph (snd (snd r)) /\ ~ (- PI < ph <= PI).
Proof.
  destruct (fix_harmonic_frequency_quarter _ eq_refl) as [const [slope [a E]]].
  exists (const, slope, ([1 / 4], [a], [- PI])), (- PI).
  split; [exact E|]. split; [left; reflexivity|]. lra.
Qed.

(** The same run: its phase is in [[- PI, PI)]. *)
Lemma emitted_phases_wrapped_witness :
  exists r,
    fix_harmonic_frequency AfModel.find_harmonics_tolerance
      AfModel.find_harmonics_from_pattern [1; 2; 3] [-1; 0; 0] 4 [0] [0]
      ([1 / 4], [1], [0]) [(0, 3)%nat] = Done r /\
    phases_wrapped (snd r).
Proof.
  destruct (fix_harmonic_frequency_quarter _ eq_refl) as [const [slope [a E]]].
  exists (const, slope, ([1 / 4], [a], [- PI])). split; [exact E|].
  apply (proj1 (proj2 (proj2 (proj2 (proj2
           (emitted_phases_wrapped AfModel.find_harmonics_tolerance
              AfModel.find_harmonics_from_pattern AfModel.f_within_rayleigh
              AfModel.chains_within_rayleigh)))))
           [1; 2; 3] [-1; 0; 0] 4 [0] [0] ([1 / 4], [1], [0]) [(0, 3)%nat]
           _ E).
  repeat constructor; pose proof PI_RGT_0; cbn; lra.
Defined.






(** ** The reduction of one harmonic *)












(** *** The reduction of an empty set *)

Lemma INR_3 : INR 3 = 3.
Proof. simpl. lra. Qed.





(** *** The BIC formula and the harmonic-avoiding extractor *)

(** The formula on two residuals. *)
Lemma calc_bic_is_formula_witness :
  calc_bic [1; 2] 5 = bic_formula (INR 2) (sum_of_squares [1; 2]) (IZR 5).
Proof. apply calc_bic_is_formula. discriminate. Defined.

Lemma diff_123 : Np.amin (Np.diff [1; 2; 3]) = 1.
Proof.
  unfold Np.amin, Np.diff, Np.sub. cbn [tl removelast Np.map2 fold_left hd].
  rcalc.
Qed.



(** *** The prewhitening loop on a signal without variation *)









(** *** The gate of the prewhitening loop *)

Lemma round2_just_above_two (d : R) : 2 < d < 2.005 -> Np.round2 d = 2.
Proof.
  intros [H1 H2]. unfold Np.round2, Np.rint.
  assert (Hi : Int_part (d * 100) = 200%Z).
  { symmetry. apply Int_part_spec. lra. }
  unfold frac_part. rewrite Hi.
  destruct (Rlt_dec (d * 100 - 200) (1 / 2)); [|lra]. lra.
Qed.

(** C3.  The test of the loop of [extract_all] is made on the BIC
    difference as it is, not on its rounding to two decimals: a drop between
    2 and 2.005 passes the test of the loop, and fails the gate
    [np.round(bic_prev - bic, 2) > 2] that the other stages apply. *)
Theorem extract_all_test_unrounded (st : extract_state) (bic_prev : R) :
  es_bic_prev st = Finite bic_prev ->
  2 < bic_prev - es_bic st < 2.005 ->
  extract_all_test st = true /\
  exceeds (xround2 (bic_drop (es_bic_prev st) (es_bic st))) 2 = false.
Proof.
  intros Hp Hd. unfold extract_all_test. rewrite Hp.
  cbn [bic_drop xround2 exceeds]. split.
  - apply Rltb_true. lra.
  - rewrite (round2_just_above_two _ Hd). apply Rltb_false. lra.
Qed.

(** A drop of 2.004. *)
Lemma extract_all_test_unrounded_witness :
  extract_all_test
    {| es_const := []; es_slope := []; es_resid := [];
       es_accepted := ([], [], []); es_temp := ([], [], []);
       es_bic_prev := Finite 10.004; es_bic := 8; es_i := 0 |} = true /\
  exceeds (xround2 (bic_drop (Finite 10.004) 8)) 2 = false.
Proof.
  apply (extract_all_test_unrounded
           {| es_const := []; es_slope := []; es_resid := [];
              es_accepted := ([], [], []); es_temp := ([], [], []);
              es_bic_prev := Finite 10.004; es_bic := 8; es_i := 0 |}
           10.004); [reflexivity|].
  cbn [es_bic]. lra.
Defined.

(** *** The candidates of [extract_additional_harmonics] *)

(** On three points a day apart the Nyquist frequency is [1 / 2]: with the
    period 2 there is no candidate below it, and the harmonic [1 / 2]
    itself, of number 1, is to be deleted at position 0. *)
Lemma pattern_half :
  AfModel.find_harmonics_from_pattern [1 / 2] 2 = ([0%nat], [1%Z]).
Proof.
  unfold AfModel.find_harmonics_from_pattern.
  apply (AfModel_find_harmonics_single 2 AfModel.tight_tolerance 1);
    (lra || lia || apply tight_tolerance_pos).
Qed.

Lemma no_candidate_123 :
  Np.arange_from_1 (2 * (1 / (2 * Np.amin (Np.diff [1; 2; 3])))) = [].
Proof.
  rewrite diff_123. unfold Np.arange_from_1, Np.ceil.
  replace (- (2 * (1 / (2 * 1)) - 1)) with (IZR 0) by (simpl; field).
  rewrite Int_part_IZR. reflexivity.
Qed.

Lemma extract_additional_harmonics_raises_on_match_witness :
  fst (AfModel.find_harmonics_from_pattern [1 / 2] 2) <> [] /\
  extract_additional_harmonics AfModel.find_harmonics_from_pattern
    [1; 2; 3] [-1; 0; 0] [1; 1; 1] 2 [0] [0] ([1 / 2], [1], [0])
    [(0, 3)%nat]
  = Raised IndexError.
Proof.
  split; [rewrite pattern_half; discriminate|].
  apply (extract_additional_harmonics_raises_on_match
           AfModel.find_harmonics_from_pattern
           [1; 2; 3] [-1; 0; 0] [1; 1; 1] 2 [0] [0] ([1 / 2], [1], [0])
           [(0, 3)%nat] [0%nat] [1%Z] 1%Z pattern_half).
  - discriminate.
  - left. reflexivity.
  - rewrite no_candidate_123. reflexivity.
Defined.

(** ** The further properties on concrete inputs *)

(** *** Folding, likelihood and curves *)

Lemma fold_time_series_range_witness :
  2 <> 0 /\
  Forall (fun ph => - 0.5 <= ph < 0.5) (fold_time_series [0; 1; 3] 2 None).
Proof. split; [lra|apply fold_time_series_range; lra]. Defined.

Lemma fold_time_series_periodic_witness :
  2 <> 0 /\
  fold_time_series (map (fun t => t + IZR 3 * 2) [0; 1; 3]) 2 (Some 0)
  = fold_time_series [0; 1; 3] 2 (Some 0).
Proof. split; [lra|apply fold_time_series_periodic; lra]. Defined.

Lemma calc_bic_likelihood_witness :
  [1; 2] <> [] /\
  calc_bic [1; 2] 5
  = - 2 * calc_likelihood [1; 2] + IZR 5 * ln (INR (length [1; 2])).
Proof. split; [discriminate|apply calc_bic_likelihood; discriminate]. Defined.

Lemma linear_pars_two_points_through_witness :
  1 <> 3 /\
  linear_curve [1; 3]
               [fst (linear_pars_two_points 1 2 3 6)]
               [snd (linear_pars_two_points 1 2 3 6)] [(0, 2)%nat]
  = [2; 6].
Proof. split; [lra|apply linear_pars_two_points_through; lra]. Defined.

Lemma quadratic_pars_two_points_top_witness :
  1 <> 3 /\
  let '(a, b, c) := quadratic_pars_two_points 1 2 3 5 in
  quadratic_curve [1; 3] a b c = [2; 0] /\ 2 * a * 1 + b = 0.
Proof.
  split; [lra|apply (quadratic_pars_two_points_top 1 2 3 5); lra].
Defined.

(** *** The fits *)

Lemma INR_4 : INR 4 = 4.
Proof. simpl. lra. Qed.

Lemma spread_123 : spread [1; 2; 3] = 2.
Proof.
  cbv [spread Np.mean Np.sum map fold_left length]. rewrite INR_3. field.
Qed.

Lemma linear_pars_of_linear_curve_witness :
  spread [1; 2; 3] <> 0 /\
  linear_pars [1; 2; 3] (linear_curve [1; 2; 3] [5] [2] [(0, 3)%nat])
              [(0, 3)%nat]
  = ([5], [2]).
Proof.
  assert (H : spread [1; 2; 3] <> 0) by (rewrite spread_123; lra).
  split; [exact H|exact (linear_pars_of_linear_curve [1; 2; 3] 5 2 H)].
Defined.

Lemma linear_pars_101_raw :
  linear_pars [1; 2; 3] [1; 0; 1] [(0, 3)%nat] = ([2 / 3], [0]).
Proof.
  cbv [linear_pars sector_pars map fst snd Np.slice firstn skipn Nat.sub
       Np.mean Np.sum fold_left length Np.map2].
  rewrite INR_3. f_equal; f_equal; field.
Qed.

Lemma linear_pars_least_squares_witness :
  length [1; 0; 1] = length [1; 2; 3] /\
  spread [1; 2; 3] <> 0 /\
  linear_pars [1; 2; 3] [1; 0; 1] [(0, 3)%nat] = ([2 / 3], [0]) /\
  sum_of_squares
    (Np.sub [1; 0; 1] (linear_curve [1; 2; 3] [2 / 3] [0] [(0, 3)%nat]))
  <= sum_of_squares
       (Np.sub [1; 0; 1] (linear_curve [1; 2; 3] [1] [-1] [(0, 3)%nat])).
Proof.
  assert (H : spread [1; 2; 3] <> 0) by (rewrite spread_123; lra).
  split; [reflexivity|]. split; [exact H|].
  split; [exact linear_pars_101_raw|].
  exact (linear_pars_least_squares [1; 2; 3] [1; 0; 1] (2 / 3) 0 1 (-1)
           eq_refl H linear_pars_101_raw).
Defined.

Lemma spread_012 : spread [0; 1; 2] = 2.
Proof.
  cbv [spread Np.mean Np.sum map fold_left length]. rewrite INR_3. field.
Qed.

Lemma quadratic_det_012 : quadratic_det [0; 1; 2] = 4 / 3.
Proof.
  cbv [quadratic_det Np.mean Np.sum Np.map2 map fold_left length].
  rewrite INR_3. field.
Qed.

Lemma quadratic_pars_of_quadratic_curve_witness :
  spread [0; 1; 2] <> 0 /\
  quadratic_det [0; 1; 2] <> 0 /\
  quadratic_pars [0; 1; 2] (quadratic_curve [0; 1; 2] 1 2 3) = (1, 2, 3).
Proof.
  assert (H1 : spread [0; 1; 2] <> 0) by (rewrite spread_012; lra).
  assert (H2 : quadratic_det [0; 1; 2] <> 0)
    by (rewrite quadratic_det_012; lra).
  split; [exact H1|]. split; [exact H2|].
  exact (quadratic_pars_of_quadratic_curve [0; 1; 2] 1 2 3 H1 H2).
Defined.

Lemma spread_0123 : spread [0; 1; 2; 3] = 5.
Proof.
  cbv [spread Np.mean Np.sum map fold_left length]. rewrite INR_4. field.
Qed.

Lemma quadratic_det_0123 : quadratic_det [0; 1; 2; 3] = 20.
Proof.
  cbv [quadratic_det Np.mean Np.sum Np.map2 map fold_left length].
  rewrite INR_4. field.
Qed.

Lemma cubic_det_0123 : cubic_det [0; 1; 2; 3] = 36.
Proof.
  cbv [cubic_det Np.mean Np.sum Np.map2 map fold_left length].
  rewrite INR_4. field.
Qed.

Lemma cubic_pars_of_cubic_curve_witness :
  spread [0; 1; 2; 3] <> 0 /\
  quadratic_det [0; 1; 2; 3] <> 0 /\
  cubic_det [0; 1; 2; 3] <> 0 /\
  cubic_pars [0; 1; 2; 3] (cubic_curve [0; 1; 2; 3] 1 2 3 4) = (1, 2, 3, 4).
Proof.
  assert (H1 : spread [0; 1; 2; 3] <> 0) by (rewrite spread_0123; lra).
  assert (H2 : quadratic_det [0; 1; 2; 3] <> 0)
    by (rewrite quadratic_det_0123; lra).
  assert (H3 : cubic_det [0; 1; 2; 3] <> 0) by (rewrite cubic_det_0123; lra).
  split; [exact H1|]. split; [exact H2|]. split; [exact H3|].
  exact (cubic_pars_of_cubic_curve [0; 1; 2; 3] 1 2 3 4 H1 H2 H3).
Defined.

(** *** The sinusoid model and the periodogram *)

Lemma sum_sines_app_witness :
  length [1] = length [1 / 4] /\ length [0] = length [1 / 4] /\
  sum_sines [1; 2; 3] ([1 / 4] ++ [1 / 2]) ([1] ++ [3]) ([0] ++ [0])
  = Np.add (sum_sines [1; 2; 3] [1 / 4] [1] [0])
           (sum_sines [1; 2; 3] [1 / 2] [3] [0]).
Proof.
  split; [reflexivity|]. split; [reflexivity|].
  apply sum_sines_app; reflexivity.
Defined.

Lemma spectral_window_normalised_witness :
  [1; 2; 3] <> [] /\
  Forall (fun w => 0 <= w <= 1) (spectral_window [1; 2; 3] [0; 1 / 2]) /\
  spectral_window [1; 2; 3] [0] = [1].
Proof.
  split; [discriminate|].
  apply (spectral_window_normalised [1; 2; 3] [0; 1 / 2]). discriminate.
Defined.


Lemma scargle_ampl_single_scale_witness :
  (length [1; 2; 3]%R <= length [1; 0; 1]%R)%nat /\
  scargle_ampl_single [1; 2; 3] (map (Rmult (-2)) [1; 0; 1]) (1 / 4)
  = Rabs (-2) * scargle_ampl_single [1; 2; 3] [1; 0; 1] (1 / 4).
Proof.
  split; [cbn [length]; lia|].
  apply scargle_ampl_single_scale. cbn [length]. lia.
Defined.

Lemma scargle_phase_single_scale_witness :
  (length [1; 2; 3]%R <= length [1; 0; 1]%R)%nat /\ 0 < 2 /\
  scargle_phase_single [1; 2; 3] (map (Rmult 2) [1; 0; 1]) (1 / 4)
  = scargle_phase_single [1; 2; 3] [1; 0; 1] (1 / 4).
Proof.
  split; [cbn [length]; lia|]. split; [lra|].
  apply scargle_phase_single_scale; [cbn [length]; lia|lra].
Defined.

(** *** The harmonic extractors *)

(** On three points a day apart and the period 4, the candidates of
    [extract_all_harmonics] are the harmonics 1 and 2, and the one
    candidate of [extract_harmonics] is the harmonic 1. *)
Lemma h_candidates_all_123 :
  h_candidates_all [1; 2; 3] 4 None
  = map (fun k => Z.of_nat (S k)) (seq 0 2).
Proof.
  unfold h_candidates_all. rewrite diff_123.
  unfold Np.arange_from_1, Np.ceil.
  replace (Int_part (- (4 * (1 / (2 * 1)) + 0.01 - 1))) with (-2)%Z
    by (apply Int_part_spec; lra).
  reflexivity.
Qed.

Lemma h_candidates_123 : h_candidates [1; 2; 3] 4 = [1%Z].
Proof.
  unfold h_candidates. rewrite diff_123.
  unfold Np.arange_from_1, Np.ceil.
  replace (- (4 * (1 / (2 * 1)) - 1)) with (IZR (-1)) by (simpl; field).
  rewrite Int_part_IZR. reflexivity.
Qed.

Lemma extract_all_harmonics_multiples_witness :
  (@None R = None -> (2 <= length [1; 2; 3]%R)%nat) /\
  match extract_all_harmonics [1; 2; 3] [1; 0; 1] [1; 1; 1] 4 None with
  | Some (_, (f_n_h, a_n_h, ph_n_h)) =>
      h_candidates_all [1; 2; 3] 4 None <> [] /\
      f_n_h = map (fun h => IZR h / 4) (h_candidates_all [1; 2; 3] 4 None)
      /\ length a_n_h = length f_n_h /\ length ph_n_h = length f_n_h
      /\ Forall wrapped ph_n_h
  | None => h_candidates_all [1; 2; 3] 4 None = []
  end.
Proof.
  split; [intros _; cbn [length]; lia|].
  apply extract_all_harmonics_multiples. intros _. cbn [length]. lia.
Defined.

Lemma extract_all_harmonics_constant_witness :
  exists const_r f_n_h a_n_h ph_n_h,
    (@None R = None -> (2 <= length [1; 2; 3]%R)%nat) /\
    extract_all_harmonics [1; 2; 3] [1; 0; 1] [1; 1; 1] 4 None
    = Some (const_r, (f_n_h, a_n_h, ph_n_h)) /\
    const_r
    = Np.mean (Np.sub [1; 0; 1]
                      (sum_sines [1; 2; 3] (removelast f_n_h)
                                 (removelast a_n_h) (removelast ph_n_h))).
Proof.
  destruct (extract_all_harmonics_run [1; 2; 3] [1; 0; 1] [1; 1; 1] 4 None 1
              h_candidates_all_123)
    as [a [ph [E _]]].
  eexists; eexists; eexists; eexists.
  assert (H : @None R = None -> (2 <= length [1; 2; 3]%R)%nat)
    by (intros _; cbn [length]; lia).
  split; [exact H|]. split; [exact E|].
  exact (extract_all_harmonics_constant _ _ _ _ _ _ _ _ _ H E).
Defined.

Lemma extract_harmonics_multiples_witness :
  (2 <= length [1; 2; 3]%R)%nat /\
  match extract_harmonics [1; 2; 3] [1; 0; 1] [1; 1; 1] 4 with
  | Some (_, (f_n_h, a_n_h, ph_n_h)) =>
      h_candidates [1; 2; 3] 4 <> [] /\
      (exists hs,
          f_n_h = map (fun h => IZR h / 4) hs
          /\ StronglySorted Z.lt hs /\ incl hs (h_candidates [1; 2; 3] 4))
      /\ length a_n_h = length f_n_h /\ length ph_n_h = length f_n_h
      /\ Forall wrapped ph_n_h
  | None => h_candidates [1; 2; 3] 4 = []
  end.
Proof.
  split; [cbn [length]; lia|].
  apply extract_harmonics_multiples. cbn [length]. lia.
Defined.

Lemma extract_harmonics_constant_witness :
  exists const_r f_n_h a_n_h ph_n_h,
    (2 <= length [1; 2; 3]%R)%nat /\
    length [1; 0; 1] = length [1; 2; 3] /\
    extract_harmonics [1; 2; 3] [1; 0; 1] [1; 1; 1] 4
    = Some (const_r, (f_n_h, a_n_h, ph_n_h)) /\
    const_r
    = Np.mean (Np.sub [1; 0; 1] (sum_sines [1; 2; 3] f_n_h a_n_h ph_n_h)).
Proof.
  destruct (extract_harmonics_run [1; 2; 3] [1; 0; 1] [1; 1; 1] 4)
    as [sel [a [ph [E _]]]].
  { rewrite h_candidates_123. discriminate. }
  eexists; eexists; eexists; eexists.
  assert (H : (2 <= length [1; 2; 3]%R)%nat) by (cbn [length]; lia).
  split; [exact H|]. split; [reflexivity|]. split; [exact E|].
  exact (extract_harmonics_constant [1; 2; 3] [1; 0; 1] _ _ _ _ _ _ H
           eq_refl E).
Defined.

(** *** The refinement of a subset *)







(** *** Additional harmonics *)




(** *** The period uncertainty and the phase dispersion *)

Lemma formal_period_uncertainty_weighted_witness :
  [0%nat; 1%nat] <> [] /\
  length [1%Z; 2%Z] = length [0%nat; 1%nat] /\
  Forall (fun i => (i < length [1; 2]%R)%nat) [0%nat; 1%nat] /\
  Forall (fun e => e <> 0)
         (harmonic_errors [1; 2] [0%nat; 1%nat] [1%Z; 2%Z]) /\
  formal_period_uncertainty 2 [1; 2] [0%nat; 1%nat] [1%Z; 2%Z]
  = 2 ^ 2
    / sqrt (Np.sum (map (fun e => 1 / e ^ 2)
                        (harmonic_errors [1; 2] [0%nat; 1%nat]
                                         [1%Z; 2%Z]))).
Proof.
  assert (H1 : [0%nat; 1%nat] <> []) by discriminate.
  assert (H3 : Forall (fun i => (i < length [1; 2]%R)%nat) [0%nat; 1%nat])
    by (repeat constructor).
  assert (H4 : Forall (fun e => e <> 0)
                      (harmonic_errors [1; 2] [0%nat; 1%nat] [1%Z; 2%Z])).
  { cbv [harmonic_errors Np.take Np.map2 map nth].
    repeat constructor; lra. }
  split; [exact H1|]. split; [reflexivity|]. split; [exact H3|].
  split; [exact H4|].
  exact (formal_period_uncertainty_weighted 2 [1; 2] [0%nat; 1%nat]
           [1%Z; 2%Z] H1 eq_refl H3 H4).
Defined.

Lemma var_02 : var [0; 2] = 1.
Proof.
  unfold var. cbn [map]. rewrite !pow2_abs.
  cbv [Np.mean Np.sum fold_left length]. simpl INR. field.
Qed.

Lemma phase_dispersion_bounds_witness :
  length [- 0.25; 0.25] = length [0; 2] /\
  0 < var [0; 2] /\
  0 <= phase_dispersion [- 0.25; 0.25] [0; 2] 2 <= 1.
Proof.
  assert (H : 0 < var [0; 2]) by (rewrite var_02; lra).
  split; [reflexivity|]. split; [exact H|].
  exact (phase_dispersion_bounds [- 0.25; 0.25] [0; 2] 2 eq_refl H).
Defined.

(** *** The window and the scale of [extract_single] *)

(** On three points a day apart, the grid up to the frequency [1 / 2] is
    not empty. *)
Lemma grid_size_123_half :
  (1 <= grid_size [1; 2; 3]%R 0%R (1 / 2)%R (0.1 / Np.ptp [1; 2; 3])%R)%Z.
Proof.
  unfold grid_size, scargle_grid. cbn [snd]. rewrite ptp_123.
  destruct (Req_dec_T (0.1 / 2) 0); [lra|].
  destruct (Req_dec_T (1 / 2) 0); [lra|].
  assert (H : (0 <= Np.pyint ((1 / 2 - Rmax 0 (0.01 / 2)) / (0.1 / 2)
                              + 0.001))%Z).
  { apply pyint_nonneg. unfold Rmax. destruct (Rle_dec 0 (0.01 / 2)); [|lra].
    apply Rplus_le_le_0_compat; [|lra].
    apply Rmult_le_pos; [lra|]. apply Rlt_le, Rinv_0_lt_compat. lra. }
  lia.
Qed.

Lemma ptp_123_pos : 0 < Np.ptp [1; 2; 3].
Proof. rewrite ptp_123. lra. Qed.

Lemma half_not_zero : 1 / 2 <> 0.
Proof. lra. Qed.

Lemma extract_single_window_witness :
  0 < Np.ptp [1; 2; 3] /\
  1 / 2 <> 0 /\
  (1 <= grid_size [1; 2; 3]%R 0%R (1 / 2)%R (0.1 / Np.ptp [1; 2; 3])%R)%Z /\
  exists f a ph,
    extract_single [1; 2; 3] [-1; 0; 0] 0 (1 / 2) = Done (f, a, ph) /\
    Rmax (Rmax 0 (0.01 / Np.ptp [1; 2; 3]) - 0.1 / Np.ptp [1; 2; 3])
         (0.01 / Np.ptp [1; 2; 3]) <= f /\
    f <= Rmax (Rmax 0 (0.01 / Np.ptp [1; 2; 3]))
              (1 / 2 + 0.001 * (0.1 / Np.ptp [1; 2; 3]))
         + (1 + 1 / 100000) * (0.1 / Np.ptp [1; 2; 3]).
Proof.
  split; [exact ptp_123_pos|]. split; [exact half_not_zero|].
  split; [exact grid_size_123_half|].
  exact (extract_single_window [1; 2; 3] [-1; 0; 0] 0 (1 / 2)
           ptp_123_pos half_not_zero grid_size_123_half).
Defined.

Lemma extract_single_scale_witness :
  exists f a ph,
    length [1; 2; 3] = length [-1; 0; 0] /\
    0 < 2 /\
    extract_single [1; 2; 3] [-1; 0; 0] 0 (1 / 2) = Done (f, a, ph) /\
    extract_single [1; 2; 3] (map (Rmult 2) [-1; 0; 0]) 0 (1 / 2)
    = Done (f, 2 * a, ph).
Proof.
  destruct (extract_single_done [1; 2; 3] [-1; 0; 0] 0 (1 / 2)
              ptp_123_pos grid_size_123_half) as [f [a [ph [H _]]]].
  exists f, a, (wrap_phase ph).
  split; [reflexivity|]. split; [exact Rlt_0_2|]. split; [exact H|].
  exact (extract_single_scale [1; 2; 3] [-1; 0; 0] 0 (1 / 2) 2 f a
           (wrap_phase ph) eq_refl Rlt_0_2 H).
Defined.

